(** * YaSwag annotation lexer: a shallow embedding and its properties

  The development embeds [internal/parser/annotations.go] (the Directive
  Lexer) together with the parts of Go's [strings] and [regexp] packages it
  calls, and a model of the Document Assembler's conflict rule.

  A Go [string] is a sequence of bytes; it is embedded as a Rocq [string]
  (a sequence of [ascii] bytes).  Every pattern of the parser distinguishes
  ASCII bytes only: a positive class ([\s], [\w], [\d], a literal) never
  accepts a byte above 127 and a negated class ([\S], [[^\x22]], [.]) accepts
  all of them, which is how Go's engine treats the bytes of a non-ASCII
  rune (or an invalid byte, decoded as U+FFFD of width one).  Matching byte
  by byte therefore yields the same submatches as matching rune by rune.
  In comments the double quote of a pattern is written [\x22]. *)

From Stdlib Require Import Ascii String List Bool Arith Lia.
From stdpp Require Import base option list strings gmap.

Local Open Scope string_scope.
Local Open Scope list_scope.

(** ** Go's [strings] package *)

Module strings.

Definition byte (n : nat) : ascii := ascii_of_nat n.

Definition nl : ascii := byte 10.
Definition dquote : ascii := byte 34.
Definition squote : ascii := byte 39.

Fixpoint bytes (l : list nat) : string :=
  match l with
  | [] => EmptyString
  | n :: l' => String (byte n) (bytes l')
  end.

Fixpoint rev_append (s acc : string) : string :=
  match s with
  | EmptyString => acc
  | String c s' => rev_append s' (String c acc)
  end.

Definition rev (s : string) : string := rev_append s EmptyString.

Fixpoint drop (n : nat) (s : string) : string :=
  match n, s with
  | S n', String _ s' => drop n' s'
  | _, _ => s
  end.

(** [strings.HasPrefix(s, prefix)] *)
Definition HasPrefix (s pre : string) : bool := String.prefix pre s.

(** [strings.Contains(s, substr)] *)
Fixpoint Contains (s sub : string) : bool :=
  HasPrefix s sub ||
  match s with
  | EmptyString => false
  | String _ s' => Contains s' sub
  end.

(** [strings.Split(s, sep)] for a separator of one byte. *)
Fixpoint Split (s : string) (sep : ascii) : list string :=
  match s with
  | EmptyString => [EmptyString]
  | String c s' =>
      if Ascii.eqb c sep then EmptyString :: Split s' sep
      else match Split s' sep with
           | l :: ls => String c l :: ls
           | [] => [String c EmptyString]
           end
  end.

(** [strings.Join(elems, sep)] *)
Definition Join (elems : list string) (sep : string) : string :=
  String.concat sep elems.

(** The UTF-8 encodings of the runes for which [unicode.IsSpace] holds:
    the six ASCII ones, U+0085, U+00A0, U+1680, U+2000..U+200A, U+2028,
    U+2029, U+202F, U+205F and U+3000. *)
Definition space_runes : list string :=
  map bytes
    [ [9]; [10]; [11]; [12]; [13]; [32];
      [194; 133]; [194; 160]; [225; 154; 128];
      [226; 128; 128]; [226; 128; 129]; [226; 128; 130]; [226; 128; 131];
      [226; 128; 132]; [226; 128; 133]; [226; 128; 134]; [226; 128; 135];
      [226; 128; 136]; [226; 128; 137]; [226; 128; 138];
      [226; 128; 168]; [226; 128; 169]; [226; 128; 175];
      [226; 129; 159]; [227; 128; 128] ].

(** Width in bytes of the white-space rune [s] starts with (0: none). *)
Definition space_width (runes : list string) (s : string) : nat :=
  match List.find (HasPrefix s) runes with
  | Some r => String.length r
  | None => 0
  end.

Fixpoint trim_left (runes : list string) (fuel : nat) (s : string) : string :=
  match fuel with
  | O => s
  | S fuel' =>
      match space_width runes s with
      | O => s
      | w => trim_left runes fuel' (drop w s)
      end
  end.

(** [strings.TrimLeftFunc(s, unicode.IsSpace)] *)
Definition TrimLeftSpace (s : string) : string :=
  trim_left space_runes (String.length s) s.

(** [strings.TrimRightFunc(s, unicode.IsSpace)]: the last rune is decoded
    backwards, so the encodings are looked for at the end of [s]. *)
Definition TrimRightSpace (s : string) : string :=
  rev (trim_left (map rev space_runes) (String.length s) (rev s)).

(** [strings.TrimSpace(s)] *)
Definition TrimSpace (s : string) : string :=
  TrimRightSpace (TrimLeftSpace s).

Fixpoint drop_while (p : ascii → bool) (s : string) : string :=
  match s with
  | EmptyString => EmptyString
  | String c s' => if p c then drop_while p s' else s
  end.

Fixpoint take_while (p : ascii → bool) (s : string) : string :=
  match s with
  | EmptyString => EmptyString
  | String c s' => if p c then String c (take_while p s') else EmptyString
  end.

Fixpoint all (p : ascii → bool) (s : string) : bool :=
  match s with
  | EmptyString => true
  | String c s' => p c && all p s'
  end.

(** What stands at the head of a string. *)
Definition head_is (p : ascii → bool) (s : string) : bool :=
  match s with
  | EmptyString => false
  | String c _ => p c
  end.

Definition in_cutset (cutset : string) (c : ascii) : bool :=
  existsb (Ascii.eqb c) (list_ascii_of_string cutset).

(** [strings.Trim(s, cutset)] for an ASCII cutset. *)
Definition Trim (s cutset : string) : string :=
  rev (drop_while (in_cutset cutset) (rev (drop_while (in_cutset cutset) s))).

(** [strings.Fields(s)]: the maximal runs of bytes between white-space
    runes.  [cur] holds the field being read, reversed; [skip] counts the
    remaining bytes of a white-space rune already recognised. *)
Fixpoint fields (s : string) (cur : string) (skip : nat) : list string :=
  let flush := match cur with EmptyString => [] | _ => [rev cur] end in
  match s with
  | EmptyString => flush
  | String c s' =>
      match skip with
      | S n => fields s' cur n
      | O =>
          match space_width space_runes s with
          | O => fields s' (String c cur) 0
          | S w => flush ++ fields s' EmptyString w
          end
      end
  end.

Definition Fields (s : string) : list string := fields s EmptyString 0.

Definition upper (c : ascii) : ascii :=
  let n := nat_of_ascii c in
  if Nat.leb 97 n && Nat.leb n 122 then ascii_of_nat (n - 32) else c.

(** [strings.ToUpper(s)] on ASCII letters; other bytes are kept.  The
    lexer applies it to a matched method name only. *)
Fixpoint ToUpper (s : string) : string :=
  match s with
  | EmptyString => EmptyString
  | String c s' => String (upper c) (ToUpper s')
  end.

End strings.

(** ** Go's [regexp] package

  The patterns of the lexer use literals, byte classes, greedy repetition
  of a class, greedy optional parts, alternation and capturing groups that
  are not nested; a leading [^] anchors a pattern at the start of the text.
  Go returns the leftmost match and, among those, the one a backtracking
  search finds first; the matcher below is that search, written in
  continuation-passing style. *)

Module regexp.

Inductive regex : Type :=
| Lit (w : string)
| Cls (p : ascii → bool)
| Star (p : ascii → bool)
| Seq (r1 r2 : regex)
| Alt (r1 r2 : regex)
| Opt (r : regex)
| Grp (i : nat) (r : regex).

Definition Plus (p : ascii → bool) : regex := Seq (Cls p) (Star p).

Fixpoint one_of (ws : list string) : regex :=
  match ws with
  | [] => Cls (λ _, false)
  | [w] => Lit w
  | w :: ws' => Alt (Lit w) (one_of ws')
  end.

Fixpoint seq (rs : list regex) : regex :=
  match rs with
  | [] => Lit EmptyString
  | [r] => r
  | r :: rs' => Seq r (seq rs')
  end.

(** A compiled pattern: its source text ([re.String()], the double quote
    written [\x22]), whether it starts with [^], and its syntax tree. *)
Record Regexp : Type := MustCompile {
  source : string;
  anchored : bool;
  expr : regex
}.

(** [re.NumSubexp()] *)
Fixpoint NumSubexp (r : regex) : nat :=
  match r with
  | Lit _ | Cls _ | Star _ => 0
  | Seq r1 r2 | Alt r1 r2 => NumSubexp r1 + NumSubexp r2
  | Opt r => NumSubexp r
  | Grp _ r => S (NumSubexp r)
  end.

(** Byte classes. *)
Definition chr (c : ascii) : ascii → bool := Ascii.eqb c.
Definition between (lo hi : nat) (c : ascii) : bool :=
  Nat.leb lo (nat_of_ascii c) && Nat.leb (nat_of_ascii c) hi.
Definition space (c : ascii) : bool :=
  existsb (λ n, Nat.eqb (nat_of_ascii c) n) [9; 10; 12; 13; 32].
Definition digit : ascii → bool := between 48 57.
Definition word (c : ascii) : bool :=
  digit c || between 65 90 c || between 97 122 c || chr "_" c.
Definition non (p : ascii → bool) (c : ascii) : bool := negb (p c).
Definition either (p q : ascii → bool) (c : ascii) : bool := p c || q c.

(** Submatches while matching: [None] for a group that took no part. *)
Abbreviation caps := (list (option string)).

Fixpoint strip_prefix (w s : string) : option string :=
  match w, s with
  | EmptyString, _ => Some s
  | String a w', String b s' => if Ascii.eqb a b then strip_prefix w' s' else None
  | String _ _, EmptyString => None
  end.

Section Matcher.
Context {R : Type}.

(** Greedy [p]*: the longest run first, then shorter ones. *)
Fixpoint star (p : ascii → bool) (s : string)
    (k : string → string → option R) : option R :=
  match s with
  | String c s' =>
      if p c then
        match star p s' (λ w rest, k (String c w) rest) with
        | Some x => Some x
        | None => k EmptyString s
        end
      else k EmptyString s
  | EmptyString => k EmptyString s
  end.

(** [run r s cs k]: match [r] at the start of [s]; the continuation gets
    the text matched, the rest of the input and the submatches, and
    answers [None] to ask for the next alternative. *)
Fixpoint run (r : regex) (s : string) (cs : caps)
    (k : string → string → caps → option R) : option R :=
  match r with
  | Lit w =>
      match strip_prefix w s with
      | Some rest => k w rest cs
      | None => None
      end
  | Cls p =>
      match s with
      | String c s' => if p c then k (String c EmptyString) s' cs else None
      | EmptyString => None
      end
  | Star p => star p s (λ w rest, k w rest cs)
  | Seq r1 r2 =>
      run r1 s cs (λ w1 s1 cs1,
        run r2 s1 cs1 (λ w2 s2 cs2, k (w1 +:+ w2) s2 cs2))
  | Alt r1 r2 =>
      match run r1 s cs k with
      | Some x => Some x
      | None => run r2 s cs k
      end
  | Opt r1 =>
      match run r1 s cs k with
      | Some x => Some x
      | None => k EmptyString s cs
      end
  | Grp i r1 => run r1 s cs (λ w s' cs', k w s' (<[i := Some w]> cs'))
  end.
End Matcher.

(** A match at the start of [s]: the text matched and the submatches,
    entry 0 being the whole match. *)
Definition exec (r : regex) (s : string) : option (string * caps) :=
  run r s (replicate (S (NumSubexp r)) None)
    (λ w _ cs, Some (w, <[0 := Some w]> cs)).

(** The leftmost match. *)
Fixpoint search (r : regex) (s : string) : option (string * caps) :=
  match exec r s with
  | Some m => Some m
  | None =>
      match s with
      | String _ s' => search r s'
      | EmptyString => None
      end
  end.

(** A group that took no part in the match is reported as the empty
    string. *)
Definition submatches (cs : caps) : list string := map (default EmptyString) cs.

(** [re.FindStringSubmatch(s)]; [None] is Go's nil slice. *)
Definition FindStringSubmatch (re : Regexp) (s : string) : option (list string) :=
  (λ m, submatches (snd m)) <$>
    (if anchored re then exec (expr re) s else search (expr re) s).

(** Successive matches that do not overlap, for a pattern that matches no
    empty text: [skip] counts the bytes left of the match just found. *)
Fixpoint find_all (r : regex) (s : string) (skip : nat) : list (list string) :=
  match s with
  | EmptyString => []
  | String _ s' =>
      match skip with
      | S n => find_all r s' n
      | O =>
          match exec r s with
          | Some (w, cs) => submatches cs :: find_all r s' (String.length w - 1)
          | None => find_all r s' 0
          end
      end
  end.

(** [re.FindAllStringSubmatch(s, -1)] for a pattern without [^] that
    matches no empty text. *)
Definition FindAllStringSubmatch (re : Regexp) (s : string) : list (list string) :=
  find_all (expr re) s 0.

End regexp.

(** ** The annotation parser ([internal/parser/annotations.go]) *)

Module parser.
Import strings regexp.

(** A Go call returns or panics; the only panic in reach of the lexer is
    an index out of range. *)
Inductive go (A : Type) : Type :=
| Done (a : A)
| Panic.
Arguments Done {A} a.
Arguments Panic {A}.

#[export] Instance go_ret : MRet go := λ A a, Done a.
#[export] Instance go_bind : MBind go := λ A B f m,
  match m with
  | Done a => f a
  | Panic => Panic
  end.

(** [m[i]] on a slice. *)
Definition idx (m : list string) (i : nat) : go string :=
  match m !! i with
  | Some v => Done v
  | None => Panic
  end.

Definition argTrue : string := "true".

Inductive AnnotationType : Type :=
| AnnotationAPI | AnnotationInfo | AnnotationContact | AnnotationLicense
| AnnotationServer | AnnotationTag | AnnotationTOS | AnnotationSecurity
| AnnotationScope | AnnotationExternalDocs | AnnotationLink
| AnnotationWebhook | AnnotationWebhookBody | AnnotationWebhookResponse
| AnnotationRoute | AnnotationQuery | AnnotationPath | AnnotationHeader
| AnnotationBody | AnnotationOK | AnnotationError | AnnotationSecure
| AnnotationModel | AnnotationField.

#[export] Instance AnnotationType_eq_dec : EqDecision AnnotationType.
Proof. solve_decision. Defined.

Record Annotation : Type := mkAnnotation {
  Type_ : AnnotationType;
  RawLine : string;
  Args : gmap string string;
  Tags : list string
}.

Record AnnotationParser : Type := mkAnnotationParser {
  apiPattern : Regexp;
  infoPattern : Regexp;
  contactPattern : Regexp;
  licensePattern : Regexp;
  serverPattern : Regexp;
  tagPattern : Regexp;
  tosPattern : Regexp;
  securityPattern : Regexp;
  scopePattern : Regexp;
  externalDocsPattern : Regexp;
  linkPattern : Regexp;
  webhookPattern : Regexp;
  webhookBodyPattern : Regexp;
  webhookRespPattern : Regexp;
  routePattern : Regexp;
  paramPattern : Regexp;
  bodyPattern : Regexp;
  responsePattern : Regexp;
  securePattern : Regexp;
  modelPattern : Regexp;
  fieldPattern : Regexp
}.

(** Pieces the patterns share. *)
Definition quote : regex := Lit (String dquote EmptyString).
Definition ws : regex := Plus space.
Definition token (i : nat) : regex := Grp i (Plus (non space)).
Definition words (i : nat) : regex := Grp i (Plus word).
(** A quoted text, the group holding what stands between the quotes. *)
Definition quoted (i : nat) : regex :=
  seq [quote; Grp i (Star (non (chr dquote))); quote].
(** A quoted text that is not empty. *)
Definition quoted1 (i : nat) : regex :=
  seq [quote; Grp i (Plus (non (chr dquote))); quote].
(** An optional quoted text after white space. *)
Definition opt_quoted (i : nat) : regex := Opt (Seq ws (quoted i)).
(** An optional [v] and a run of digits and dots. *)
Definition version (i : nat) : regex :=
  Seq (Opt (Lit "v")) (Grp i (Plus (either digit (chr ".")))).

Definition NewAnnotationParser : AnnotationParser := {|
  apiPattern := MustCompile
    "^!api\s+v?([\d.]+)" true
    (seq [Lit "!api"; ws; version 1]);
  infoPattern := MustCompile
    "^!info\s+\x22([^\x22]+)\x22\s+v?([\d.]+)(?:\s+\x22([^\x22]*)\x22)?" true
    (seq [Lit "!info"; ws; quoted1 1; ws; version 2; opt_quoted 3]);
  contactPattern := MustCompile
    "^!contact\s+\x22([^\x22]*)\x22(?:\s+<([^>]+)>)?(?:\s+\(([^)]+)\))?" true
    (seq [Lit "!contact"; ws; quoted 1;
          Opt (seq [ws; Lit "<"; Grp 2 (Plus (non (chr ">"))); Lit ">"]);
          Opt (seq [ws; Lit "("; Grp 3 (Plus (non (chr ")"))); Lit ")"])]);
  licensePattern := MustCompile
    "^!license\s+(\S+)(?:\s+(\S+))?" true
    (seq [Lit "!license"; ws; token 1; Opt (Seq ws (token 2))]);
  serverPattern := MustCompile
    "^!server\s+(\S+)(?:\s+\x22([^\x22]*)\x22)?" true
    (seq [Lit "!server"; ws; token 1; opt_quoted 2]);
  tagPattern := MustCompile
    "^!tag\s+(\S+)(?:\s+\x22([^\x22]*)\x22)?" true
    (seq [Lit "!tag"; ws; token 1; opt_quoted 2]);
  tosPattern := MustCompile
    "^!tos\s+(\S+)" true
    (seq [Lit "!tos"; ws; token 1]);
  securityPattern := MustCompile
    "^!security\s+(\w+):(apiKey|oauth2|http|openIdConnect):?(\w*)(?:\s+\x22([^\x22]*)\x22)?(?:\s+(\S+))?"
    true
    (seq [Lit "!security"; ws; words 1; Lit ":";
          Grp 2 (one_of ["apiKey"; "oauth2"; "http"; "openIdConnect"]);
          Opt (Lit ":"); Grp 3 (Star word);
          opt_quoted 4; Opt (Seq ws (token 5))]);
  scopePattern := MustCompile
    "^!scope\s+(\w+)\s+([\w:]+)(?:\s+\x22([^\x22]*)\x22)?" true
    (seq [Lit "!scope"; ws; words 1; ws;
          Grp 2 (Plus (either word (chr ":"))); opt_quoted 3]);
  externalDocsPattern := MustCompile
    "^!externalDocs\s+(\S+)(?:\s+\x22([^\x22]*)\x22)?" true
    (seq [Lit "!externalDocs"; ws; token 1; opt_quoted 2]);
  linkPattern := MustCompile
    "^!link\s+\x22([^\x22]+)\x22\s+(\S+)" true
    (seq [Lit "!link"; ws; quoted1 1; ws; token 2]);
  webhookPattern := MustCompile
    "^!webhook\s+(\w+):(get|post|put|delete|patch)\s*(?:\x22([^\x22]*)\x22)?" true
    (seq [Lit "!webhook"; ws; words 1; Lit ":";
          Grp 2 (one_of ["get"; "post"; "put"; "delete"; "patch"]);
          Star space; Opt (quoted 3)]);
  webhookBodyPattern := MustCompile
    "^!webhook-body\s+(\S+)(?:\s+\x22([^\x22]*)\x22)?" true
    (seq [Lit "!webhook-body"; ws; token 1; opt_quoted 2]);
  webhookRespPattern := MustCompile
    "^!webhook-response\s+(\d+)\s+(\S+)(?:\s+\x22([^\x22]*)\x22)?" true
    (seq [Lit "!webhook-response"; ws; Grp 1 (Plus digit); ws; token 2;
          opt_quoted 3]);
  routePattern := MustCompile
    "^!(GET|POST|PUT|DELETE|PATCH|OPTIONS|HEAD)\s+(\S+)\s+->\s+(\S+)(?:\s+\x22([^\x22]*)\x22)?"
    true
    (seq [Lit "!";
          Grp 1 (one_of ["GET"; "POST"; "PUT"; "DELETE"; "PATCH"; "OPTIONS"; "HEAD"]);
          ws; token 2; ws; Lit "->"; ws; token 3; opt_quoted 4]);
  paramPattern := MustCompile
    "^!(query|path|header|cookie)\s+([\w-]+):(\w+)\??\s*(?:\x22([^\x22]*)\x22)?" true
    (seq [Lit "!"; Grp 1 (one_of ["query"; "path"; "header"; "cookie"]);
          ws; Grp 2 (Plus (either word (chr "-"))); Lit ":"; words 3;
          Opt (Lit "?"); Star space; Opt (quoted 4)]);
  bodyPattern := MustCompile
    "^!body\s+(\S+)(?:\s+\x22([^\x22]*)\x22)?" true
    (seq [Lit "!body"; ws; token 1; opt_quoted 2]);
  responsePattern := MustCompile
    "^!(ok|error)\s+(?:(\d+)\s+)?(\S+)(?:\s+\x22([^\x22]*)\x22)?" true
    (seq [Lit "!"; Grp 1 (one_of ["ok"; "error"]); ws;
          Opt (Seq (Grp 2 (Plus digit)) ws); token 3; opt_quoted 4]);
  securePattern := MustCompile
    "^!secure\s+(.+)" true
    (seq [Lit "!secure"; ws; Grp 1 (Plus (non (chr nl)))]);
  modelPattern := MustCompile
    "^!model(?:\s+\x22([^\x22]*)\x22)?" true
    (seq [Lit "!model"; opt_quoted 1]);
  fieldPattern := MustCompile
    "^!field\s+(\w+):(\w+)\??\s*(?:\x22([^\x22]*)\x22)?" true
    (seq [Lit "!field"; ws; words 1; Lit ":"; words 2;
          Opt (Lit "?"); Star space; Opt (quoted 3)])
|}.

(** The patterns compiled inside the parse functions. *)
Definition defaultPattern : Regexp :=
  MustCompile "default=(\S+)" false (Seq (Lit "default=") (token 1)).
Definition examplePattern : Regexp :=
  MustCompile "example=(\x22[^\x22]*\x22|\S+)" false
    (Seq (Lit "example=")
         (Grp 1 (Alt (seq [quote; Star (non (chr dquote)); quote])
                     (Plus (non space))))).
Definition hashtagPattern : Regexp :=
  MustCompile "#(\w+)" false (Seq (Lit "#") (words 1)).

(** The cutset of [strings.Trim] in the parse functions: both quotes. *)
Definition quotes : string := String dquote (String squote EmptyString).

(** [extractTags] *)
Fixpoint collect_tags (matches : list (list string)) (tags : list string)
    : go (list string) :=
  match matches with
  | [] => Done tags
  | m :: matches' => m1 ← idx m 1; collect_tags matches' (tags ++ [m1])
  end.

Definition extractTags (line : string) : go (list string) :=
  collect_tags (FindAllStringSubmatch hashtagPattern line) [].

(** The body of the inner loop of [parseSimplePatterns]. *)
Fixpoint fill_args (keys : list string) (i : nat) (m : list string)
    (args : gmap string string) : go (gmap string string) :=
  match keys with
  | [] => Done args
  | key :: keys' =>
      if Nat.ltb (i + 1) (length m)
      then v ← idx m (i + 1); fill_args keys' (S i) m (<[key := v]> args)
      else fill_args keys' (S i) m args
  end.

Definition simple_matchers (p : AnnotationParser)
    : list (Regexp * AnnotationType * list string) :=
  [ (apiPattern p, AnnotationAPI, ["version"]);
    (infoPattern p, AnnotationInfo, ["title"; "version"; "description"]);
    (contactPattern p, AnnotationContact, ["name"; "email"; "url"]);
    (licensePattern p, AnnotationLicense, ["name"; "url"]);
    (serverPattern p, AnnotationServer, ["url"; "description"]);
    (tagPattern p, AnnotationTag, ["name"; "description"]);
    (tosPattern p, AnnotationTOS, ["url"]);
    (securityPattern p, AnnotationSecurity,
       ["name"; "type"; "location"; "description"; "url"]);
    (scopePattern p, AnnotationScope, ["security"; "name"; "description"]);
    (externalDocsPattern p, AnnotationExternalDocs, ["url"; "description"]);
    (linkPattern p, AnnotationLink, ["label"; "url"]) ].

Fixpoint first_simple (matchers : list (Regexp * AnnotationType * list string))
    (line : string) : go (option Annotation) :=
  match matchers with
  | [] => Done None
  | (pattern, aType, keys) :: matchers' =>
      match FindStringSubmatch pattern line with
      | Some m =>
          args ← fill_args keys 0 m ∅;
          Done (Some (mkAnnotation aType line args []))
      | None => first_simple matchers' line
      end
  end.

Definition parseSimplePatterns (p : AnnotationParser) (line : string)
    : go (option Annotation) :=
  first_simple (simple_matchers p) line.

Definition parseRoutePattern (p : AnnotationParser) (line : string)
    : go (option Annotation) :=
  match FindStringSubmatch (routePattern p) line with
  | None => Done None
  | Some m =>
      m1 ← idx m 1; m2 ← idx m 2; m3 ← idx m 3; m4 ← idx m 4;
      tags ← extractTags line;
      Done (Some (mkAnnotation AnnotationRoute line
        (list_to_map [("method", ToUpper m1); ("path", m2);
                      ("operationId", m3); ("summary", m4)])
        tags))
  end.

Definition parseParamPattern (p : AnnotationParser) (line : string)
    : go (option Annotation) :=
  match FindStringSubmatch (paramPattern p) line with
  | None => Done None
  | Some m =>
      m1 ← idx m 1; m2 ← idx m 2; m3 ← idx m 3; m4 ← idx m 4;
      let args : gmap string string :=
        list_to_map [("in", m1); ("name", m2); ("type", m3); ("description", m4)] in
      let args :=
        if Contains line " required" then <["required" := argTrue]> args else args in
      args ←
        match FindStringSubmatch defaultPattern line with
        | Some defMatch =>
            d ← idx defMatch 1; Done (<["default" := Trim d quotes]> args)
        | None => Done args
        end;
      let aType :=
        if String.eqb m1 "path" then AnnotationPath
        else if String.eqb m1 "header" then AnnotationHeader
        else AnnotationQuery in
      Done (Some (mkAnnotation aType line args []))
  end.

Definition parseBodyPattern (p : AnnotationParser) (line : string)
    : go (option Annotation) :=
  match FindStringSubmatch (bodyPattern p) line with
  | None => Done None
  | Some m =>
      m1 ← idx m 1; m2 ← idx m 2;
      let args : gmap string string :=
        list_to_map [("schema", m1); ("description", m2)] in
      let args :=
        if Contains line " required" then <["required" := argTrue]> args else args in
      Done (Some (mkAnnotation AnnotationBody line args []))
  end.

Definition parseResponsePattern (p : AnnotationParser) (line : string)
    : go (option Annotation) :=
  match FindStringSubmatch (responsePattern p) line with
  | None => Done None
  | Some m =>
      statusCode ← idx m 2; schema ← idx m 3; m1 ← idx m 1;
      let statusCode :=
        if String.eqb m1 "ok" && String.eqb statusCode EmptyString
        then "200" else statusCode in
      let statusCode :=
        if String.eqb m1 "error" && String.eqb statusCode EmptyString
        then "500" else statusCode in
      let aType :=
        if String.eqb m1 "error" then AnnotationError else AnnotationOK in
      m4 ← idx m 4;
      Done (Some (mkAnnotation aType line
        (list_to_map [("status", statusCode); ("schema", schema);
                      ("description", m4)])
        []))
  end.

Definition parseSecurePattern (p : AnnotationParser) (line : string)
    : go (option Annotation) :=
  match FindStringSubmatch (securePattern p) line with
  | None => Done None
  | Some m =>
      m1 ← idx m 1;
      let names := Fields m1 in
      Done (Some (mkAnnotation AnnotationSecure line
        (list_to_map [("names", Join names ",")]) names))
  end.

Definition parseWebhookPattern (p : AnnotationParser) (line : string)
    : go (option Annotation) :=
  match FindStringSubmatch (webhookPattern p) line with
  | Some m =>
      m1 ← idx m 1; m2 ← idx m 2; m3 ← idx m 3;
      Done (Some (mkAnnotation AnnotationWebhook line
        (list_to_map [("name", m1); ("method", m2); ("description", m3)]) []))
  | None =>
  match FindStringSubmatch (webhookBodyPattern p) line with
  | Some m =>
      m1 ← idx m 1; m2 ← idx m 2;
      Done (Some (mkAnnotation AnnotationWebhookBody line
        (list_to_map [("schema", m1); ("description", m2)]) []))
  | None =>
  match FindStringSubmatch (webhookRespPattern p) line with
  | Some m =>
      m1 ← idx m 1; m2 ← idx m 2; m3 ← idx m 3;
      Done (Some (mkAnnotation AnnotationWebhookResponse line
        (list_to_map [("status", m1); ("schema", m2); ("description", m3)]) []))
  | None => Done None
  end end end.

Definition parseModelPattern (p : AnnotationParser) (line : string)
    : go (option Annotation) :=
  match FindStringSubmatch (modelPattern p) line with
  | None => Done None
  | Some m =>
      m1 ← idx m 1;
      Done (Some (mkAnnotation AnnotationModel line
        (list_to_map [("description", m1)]) []))
  end.

Definition parseFieldPattern (p : AnnotationParser) (line : string)
    : go (option Annotation) :=
  match FindStringSubmatch (fieldPattern p) line with
  | None => Done None
  | Some m =>
      m1 ← idx m 1; m2 ← idx m 2; m3 ← idx m 3;
      let args : gmap string string :=
        list_to_map [("name", m1); ("type", m2); ("description", m3)] in
      let args :=
        if Contains line " required" then <["required" := argTrue]> args else args in
      args ←
        match FindStringSubmatch examplePattern line with
        | Some exMatch =>
            e ← idx exMatch 1; Done (<["example" := Trim e quotes]> args)
        | None => Done args
        end;
      Done (Some (mkAnnotation AnnotationField line args []))
  end.

(** [if a := f(line); a != nil { return a }], then the rest. *)
Definition or_else (first : go (option Annotation))
    (rest : go (option Annotation)) : go (option Annotation) :=
  a ← first;
  match a with
  | Some _ => Done a
  | None => rest
  end.

Definition parseLine (p : AnnotationParser) (line : string)
    : go (option Annotation) :=
  or_else (parseSimplePatterns p line)
 (or_else (parseRoutePattern p line)
 (or_else (parseParamPattern p line)
 (or_else (parseBodyPattern p line)
 (or_else (parseResponsePattern p line)
 (or_else (parseSecurePattern p line)
 (or_else (parseWebhookPattern p line)
 (or_else (parseModelPattern p line)
          (parseFieldPattern p line)))))))).

(** The loop of [Parse] over the lines left, [annotations] being the
    slice built so far. *)
Fixpoint parse_lines (p : AnnotationParser) (lines : list string)
    (annotations : list Annotation) : go (list Annotation) :=
  match lines with
  | [] => Done annotations
  | line :: lines' =>
      let line := TrimSpace line in
      if negb (HasPrefix line "!") then parse_lines p lines' annotations
      else
        a ← parseLine p line;
        match a with
        | Some a => parse_lines p lines' (annotations ++ [a])
        | None => parse_lines p lines' annotations
        end
  end.

Definition Parse (p : AnnotationParser) (text : string) : go (list Annotation) :=
  parse_lines p (Split text nl) [].

(** The typed views of an annotation used below.  A Go map answers the
    empty string for a key it does not hold, as [!!!] does. *)
Record ParsedRoute : Type := mkParsedRoute {
  route_Method : string;
  route_Path : string;
  route_OperationID : string;
  route_Summary : string;
  route_Tags : list string
}.

Definition GetRoute (a : Annotation) : ParsedRoute :=
  mkParsedRoute (Args a !!! "method") (Args a !!! "path")
    (Args a !!! "operationId") (Args a !!! "summary") (Tags a).

Record ParsedParam : Type := mkParsedParam {
  param_In : string;
  param_Name : string;
  param_Type : string;
  param_Description : string;
  param_Required : bool;
  param_Default : string
}.

Definition GetParam (a : Annotation) : ParsedParam :=
  mkParsedParam (Args a !!! "in") (Args a !!! "name") (Args a !!! "type")
    (Args a !!! "description")
    (String.eqb (Args a !!! "required") argTrue)
    (Args a !!! "default").

Record ParsedBody : Type := mkParsedBody {
  body_Schema : string;
  body_Description : string;
  body_Required : bool
}.

Definition GetBody (a : Annotation) : ParsedBody :=
  mkParsedBody (Args a !!! "schema") (Args a !!! "description")
    (String.eqb (Args a !!! "required") argTrue).

Record ParsedResponse : Type := mkParsedResponse {
  response_Status : string;
  response_Schema : string;
  response_Description : string;
  response_IsError : bool
}.

Definition GetResponse (a : Annotation) : ParsedResponse :=
  mkParsedResponse (Args a !!! "status") (Args a !!! "schema")
    (Args a !!! "description")
    (bool_decide (Type_ a = AnnotationError)).

Record ParsedField : Type := mkParsedField {
  field_Name : string;
  field_Type : string;
  field_Description : string;
  field_Required : bool;
  field_Example : string
}.

Definition GetField (a : Annotation) : ParsedField :=
  mkParsedField (Args a !!! "name") (Args a !!! "type")
    (Args a !!! "description")
    (String.eqb (Args a !!! "required") argTrue)
    (Args a !!! "example").

End parser.

(** ** What a match is

  [matches r w cs cs']: the text [w] is in the language of [r], and
  matching it turns the submatches [cs] into [cs'].  The matcher is sound
  for this relation, which is how the properties of a pattern are read off
  its syntax rather than off the search. *)

Module semantics.
Import strings regexp.

Inductive matches : regex → string → caps → caps → Prop :=
| m_lit w cs : matches (Lit w) w cs cs
| m_cls (p : ascii → bool) c cs :
    p c = true → matches (Cls p) (String c EmptyString) cs cs
| m_star p w cs : all p w = true → matches (Star p) w cs cs
| m_seq r1 r2 w1 w2 cs cs1 cs2 :
    matches r1 w1 cs cs1 → matches r2 w2 cs1 cs2 →
    matches (Seq r1 r2) (w1 +:+ w2) cs cs2
| m_alt_l r1 r2 w cs cs' : matches r1 w cs cs' → matches (Alt r1 r2) w cs cs'
| m_alt_r r1 r2 w cs cs' : matches r2 w cs cs' → matches (Alt r1 r2) w cs cs'
| m_opt_some r w cs cs' : matches r w cs cs' → matches (Opt r) w cs cs'
| m_opt_none r cs : matches (Opt r) EmptyString cs cs
| m_grp i r w cs cs' :
    matches r w cs cs' → matches (Grp i r) w cs (<[i := Some w]> cs').

(** The group numbers of a pattern. *)
Fixpoint groups (r : regex) : list nat :=
  match r with
  | Lit _ | Cls _ | Star _ => []
  | Seq r1 r2 | Alt r1 r2 => groups r1 ++ groups r2
  | Opt r => groups r
  | Grp i r => i :: groups r
  end.

(** Continuations that always answer, and the one [exec] ends with. *)
Definition total {R : Type} (k : string → string → caps → option R) : Prop :=
  ∀ w s cs, is_Some (k w s cs).

Definition final (k : string → string → caps → option (string * caps)) : Prop :=
  ∀ w s cs, ∃ full, k w s cs = Some (full, <[0 := Some full]> cs).

End semantics.

(** ** The vocabulary of the specification *)

Module spec.
Import strings regexp parser.

(** The grammar set of the lexer, one pattern per directive. *)
Definition grammars (p : AnnotationParser) : list Regexp :=
  [ apiPattern p; infoPattern p; contactPattern p; licensePattern p;
    serverPattern p; tagPattern p; tosPattern p; securityPattern p;
    scopePattern p; externalDocsPattern p; linkPattern p;
    routePattern p; paramPattern p; bodyPattern p; responsePattern p;
    securePattern p; webhookPattern p; webhookBodyPattern p;
    webhookRespPattern p; modelPattern p; fieldPattern p ].

(** The directive keywords. *)
Definition keywords : list string :=
  [ "api"; "info"; "contact"; "license"; "server"; "tag"; "tos";
    "security"; "scope"; "externalDocs"; "link";
    "GET"; "POST"; "PUT"; "DELETE"; "PATCH"; "OPTIONS"; "HEAD";
    "query"; "path"; "header"; "cookie"; "body"; "ok"; "error"; "secure";
    "webhook"; "webhook-body"; "webhook-response"; "model"; "field" ].

(** A line carries a keyword when it starts with [!] and the keyword. *)
Definition carries_keyword (line : string) : bool :=
  existsb (λ kw, HasPrefix line (String "!" kw)) keywords.

(** A recognized directive line: some grammar matches it. *)
Definition recognized (p : AnnotationParser) (line : string) : bool :=
  existsb (λ re, bool_decide (is_Some (FindStringSubmatch re line)))
    (grammars p).

(** The attribute keys a kind guarantees. *)
Definition guaranteed_keys (t : AnnotationType) : list string :=
  match t with
  | AnnotationAPI => ["version"]
  | AnnotationInfo => ["title"; "version"; "description"]
  | AnnotationContact => ["name"; "email"; "url"]
  | AnnotationLicense => ["name"; "url"]
  | AnnotationServer => ["url"; "description"]
  | AnnotationTag => ["name"; "description"]
  | AnnotationTOS => ["url"]
  | AnnotationSecurity => ["name"; "type"; "location"; "description"; "url"]
  | AnnotationScope => ["security"; "name"; "description"]
  | AnnotationExternalDocs => ["url"; "description"]
  | AnnotationLink => ["label"; "url"]
  | AnnotationWebhook => ["name"; "method"; "description"]
  | AnnotationWebhookBody => ["schema"; "description"]
  | AnnotationWebhookResponse => ["status"; "schema"; "description"]
  | AnnotationRoute => ["method"; "path"; "operationId"; "summary"]
  | AnnotationQuery | AnnotationPath | AnnotationHeader =>
      ["in"; "name"; "type"; "description"]
  | AnnotationBody => ["schema"; "description"]
  | AnnotationOK | AnnotationError => ["status"; "schema"; "description"]
  | AnnotationSecure => ["names"]
  | AnnotationModel => ["description"]
  | AnnotationField => ["name"; "type"; "description"]
  end.

(** The outcome of one line of a comment block: what [parseLine] answers
    on the trimmed line, which is the annotation of a recognized directive,
    carrying the line, or nothing. *)
Definition line_outcome (p : AnnotationParser) (l : string)
    (o : option Annotation) : Prop :=
  let line := TrimSpace l in
  parseLine p line = Done o ∧
  match o with
  | Some a => recognized p line = true ∧ RawLine a = line
  | None => recognized p line = false
  end.

(** The status code a response line writes out: after the keyword and
    the blanks, a run of digits followed by blanks and one more token. *)
Definition response_body (line : string) : string :=
  drop_while space (drop_while (non space) line).

Definition status_of (body : string) : option string :=
  let r := drop_while digit body in
  if head_is digit body && head_is space r
     && head_is (non space) (drop_while space r)
  then Some (take_while digit body) else None.

Definition explicit_status (line : string) : option string :=
  status_of (response_body line).

(** The schema token of a response line: the first token after the
    status code when one is written out, else the first token. *)
Definition schema_of (body : string) : string :=
  match status_of body with
  | Some _ =>
      take_while (non space) (drop_while space (drop_while digit body))
  | None => take_while (non space) body
  end.

Definition schema_token (line : string) : string :=
  schema_of (response_body line).

(** The hashtags of a text, in order: each [#] that a word byte follows
    yields the run of word bytes after it. *)
Fixpoint hash_words (s : string) : list string :=
  match s with
  | EmptyString => []
  | String c s' =>
      if chr "#" c && head_is word s'
      then take_while word s' :: hash_words s'
      else hash_words s'
  end.

(** What the route grammar matches of a line: the directive up to and
    including its summary. *)
Definition route_prefix (p : AnnotationParser) (line : string) : string :=
  match FindStringSubmatch (routePattern p) line with
  | Some (m0 :: _) => m0
  | _ => EmptyString
  end.

(** The hashtags that follow the summary of a route line. *)
Definition tags_after_summary (p : AnnotationParser) (line : string)
    : list string :=
  hash_words (drop (String.length (route_prefix p line)) line).

Definition carries_keys (a : Annotation) : Prop :=
  ∀ k, k ∈ guaranteed_keys (Type_ a) → is_Some (Args a !! k).

(** The two shapes of a grammar: a literal keyword, or a group of
    alternative keywords. *)
Definition keyword_shape (re : Regexp) : Prop :=
  anchored re = true ∧
  ((∃ kw r, kw ∈ keywords ∧ expr re = Seq (Lit (String "!" kw)) r) ∨
   (∃ kws r, Forall (λ kw, kw ∈ keywords) kws ∧
      expr re = Seq (Lit "!") (Seq (Grp 1 (one_of kws)) r))).

(** What a stage of [parseLine] answers on a line, given the patterns it
    tries and the kinds it builds. *)
Definition stage_result (pats : list Regexp) (types : list AnnotationType)
    (line : string) (r : go (option Annotation)) : Prop :=
  match r with
  | Panic => False
  | Done None => Forall (λ re, FindStringSubmatch re line = None) pats
  | Done (Some a) =>
      Exists (λ re, is_Some (FindStringSubmatch re line)) pats ∧
      RawLine a = line ∧ Type_ a ∈ types ∧ carries_keys a
  end.

End spec.

(** ** The Document Assembler *)

Module assembler.
Import parser.

(** Modelled from the spec: the Document Assembler (sections 4.2, 4.3 and
    7) is not among the sources; only the lexer is.  The model covers the
    operation scope: the blocks are taken in declaration order, the role
    of a block is that of its first annotation, a block of mixed roles is
    reported and dropped, the route directive of an operation block
    establishes (method, path, operationId) wherever it stands in the
    block, a second declaration of a
    (path, method) or of an operationId is reported as an error and
    dropped in favour of the first, and the build goes on.  API and schema
    blocks do not touch the operations and are passed over. *)
Inductive Role : Type := RoleAPI | RoleOperation | RoleSchema.

#[export] Instance Role_eq_dec : EqDecision Role.
Proof. solve_decision. Defined.

Definition role_of (t : AnnotationType) : Role :=
  match t with
  | AnnotationRoute | AnnotationQuery | AnnotationPath | AnnotationHeader
  | AnnotationBody | AnnotationOK | AnnotationError | AnnotationSecure =>
      RoleOperation
  | AnnotationModel | AnnotationField => RoleSchema
  | _ => RoleAPI
  end.

Record ScopeBlock : Type := mkScopeBlock {
  anchor : string;
  annotations : list Annotation
}.

Inductive Severity : Type := SeverityError | SeverityWarning.

#[export] Instance Severity_eq_dec : EqDecision Severity.
Proof. solve_decision. Defined.

Record Diagnostic : Type := mkDiagnostic {
  severity : Severity;
  message : string;
  locations : list string
}.

Record Operation : Type := mkOperation {
  op_method : string;
  op_path : string;
  op_operationId : string;
  op_summary : string;
  op_tags : list string;
  op_attached : list Annotation;
  op_anchor : string
}.

(** The document in progress: path, then method, to the operation; the
    operationIds in use; the diagnostics so far. *)
Record Builder : Type := mkBuilder {
  paths : gmap string (gmap string Operation);
  operationIds : gset string;
  diagnostics : list Diagnostic
}.

Definition empty_builder : Builder := mkBuilder ∅ ∅ [].

Definition lookup_operation (b : Builder) (path method : string)
    : option Operation :=
  paths b !! path ≫= λ item, item !! method.

Definition operations (b : Builder) : list Operation :=
  map_to_list (paths b) ≫= λ entry, snd <$> map_to_list (snd entry).

Definition report (b : Builder) (d : Diagnostic) : Builder :=
  mkBuilder (paths b) (operationIds b) (diagnostics b ++ [d]).

Definition block_role (blk : ScopeBlock) : option Role :=
  (λ a, role_of (Type_ a)) <$> head (annotations blk).

Definition mixed_roles (blk : ScopeBlock) : bool :=
  match block_role blk with
  | Some r =>
      negb (forallb (λ a, bool_decide (role_of (Type_ a) = r)) (annotations blk))
  | None => false
  end.

(** Modelled from the spec: the operation an operation block declares
    (section 4.3), whose code is not among the sources.  The route
    directive of the block, wherever it stands in the block, establishes
    (method, path, operationId); the other directives of the block attach
    to the operation.  The spec asks for one route directive per block and
    says nothing of a block with several: the first one is taken. *)
Definition declared (blk : ScopeBlock) : option Operation :=
  match filter (λ a, Type_ a = AnnotationRoute) (annotations blk) with
  | a :: _ =>
      let r := GetRoute a in
      Some (mkOperation (route_Method r) (route_Path r)
              (route_OperationID r) (route_Summary r) (route_Tags r)
              (filter (λ a, Type_ a ≠ AnnotationRoute) (annotations blk))
              (anchor blk))
  | [] => None
  end.

(** Modelled from the spec: the conflict rule of the Assembler (sections
    4.3 and 7), whose code is not among the sources.  A (path, method) that
    is taken, or an operationId that is in use, is reported as one error
    and the later declaration is dropped; else the operation is stored. *)
Definition add_operation (b : Builder) (op : Operation) : Builder :=
  match lookup_operation b (op_path op) (op_method op) with
  | Some first =>
      report b (mkDiagnostic SeverityError "duplicate path and method"
                  [op_anchor first; op_anchor op])
  | None =>
      if bool_decide (op_operationId op ∈ operationIds b) then
        report b (mkDiagnostic SeverityError "duplicate operationId"
                    [op_anchor op])
      else
        mkBuilder
          (<[op_path op :=
               <[op_method op := op]> (default ∅ (paths b !! op_path op))]>
             (paths b))
          ({[op_operationId op]} ∪ operationIds b)
          (diagnostics b)
  end.

(** Modelled from the spec: one step of [Assemble] (section 4.3), whose
    code is not among the sources.  A block of mixed roles is reported and
    dropped; an operation block adds the operation it declares; the blocks
    of the other roles leave the operations as they are. *)
Definition assemble_block (b : Builder) (blk : ScopeBlock) : Builder :=
  if mixed_roles blk then
    report b (mkDiagnostic SeverityError "mixed roles" [anchor blk])
  else
    match block_role blk, declared blk with
    | Some RoleOperation, Some op => add_operation b op
    | _, _ => b
    end.

(** Modelled from the spec: [Assemble] (section 4.3), whose code is not
    among the sources, takes the blocks in declaration order and never
    aborts. *)
Definition Assemble (blocks : list ScopeBlock) : Builder :=
  foldl assemble_block empty_builder blocks.

Definition errors (b : Builder) : list Diagnostic :=
  filter (λ d, severity d = SeverityError) (diagnostics b).

End assembler.

(** ** Sample directives *)

Module examples.
Import strings parser assembler.

Definition q : string := String dquote EmptyString.
Definition newline : string := String nl EmptyString.

Definition args (l : list (string * string)) : gmap string string :=
  list_to_map l.

Definition security_line : string := "!security petstore_auth:oauth2".

Definition security_annotation : Annotation :=
  mkAnnotation AnnotationSecurity security_line
    (args [("name", "petstore_auth"); ("type", "oauth2");
           ("location", EmptyString); ("description", EmptyString);
           ("url", EmptyString)])
    [].

Definition path_line : string :=
  "!path id:integer " +:+ q +:+ "The user ID" +:+ q +:+ " required".

Definition path_annotation : Annotation :=
  mkAnnotation AnnotationPath path_line
    (args [("in", "path"); ("name", "id"); ("type", "integer");
           ("description", "The user ID"); ("required", "true")])
    [].

Definition ok_line : string :=
  "!ok User " +:+ q +:+ "Successful response" +:+ q.

Definition ok_annotation : Annotation :=
  mkAnnotation AnnotationOK ok_line
    (args [("status", "200"); ("schema", "User");
           ("description", "Successful response")])
    [].

Definition cookie_annotation : Annotation :=
  mkAnnotation AnnotationQuery "!cookie sid:string"
    (args [("in", "cookie"); ("name", "sid"); ("type", "string");
           ("description", EmptyString)])
    [].

Definition route_line : string :=
  "!GET /users -> getUsers " +:+ q +:+ "Retrieve users" +:+ q
    +:+ " #users #admin".

Definition route_annotation : Annotation :=
  mkAnnotation AnnotationRoute route_line
    (args [("method", "GET"); ("path", "/users");
           ("operationId", "getUsers"); ("summary", "Retrieve users")])
    ["users"; "admin"].

(** A route whose path holds a hashtag. *)
Definition route_line_hash_in_path : string :=
  "!GET /pets#all -> listPets " +:+ q +:+ "List pets" +:+ q +:+ " #pets".

(** A quoted default and a quoted example, both with a blank inside. *)
Definition quoted_default_line : string :=
  "!query name:string " +:+ q +:+ "User name" +:+ q
    +:+ " default=" +:+ q +:+ "John Doe" +:+ q.

Definition quoted_example_line : string :=
  "!field name:string " +:+ q +:+ "User name" +:+ q
    +:+ " example=" +:+ q +:+ "John Doe" +:+ q.

(** Two operation blocks that both declare GET /users. *)
Definition list_users_block : ScopeBlock :=
  mkScopeBlock "users.go:12"
    [mkAnnotation AnnotationRoute "!GET /users -> listUsers"
       (args [("method", "GET"); ("path", "/users");
              ("operationId", "listUsers"); ("summary", EmptyString)])
       []].

Definition get_users_block : ScopeBlock :=
  mkScopeBlock "admin.go:40"
    [mkAnnotation AnnotationRoute "!GET /users -> getUsers"
       (args [("method", "GET"); ("path", "/users");
              ("operationId", "getUsers"); ("summary", EmptyString)])
       []].

(** A block whose route comes after a parameter line. *)
Definition find_users_block : ScopeBlock :=
  mkScopeBlock "search.go:7"
    [cookie_annotation;
     mkAnnotation AnnotationRoute "!GET /users -> findUsers"
       (args [("method", "GET"); ("path", "/users");
              ("operationId", "findUsers"); ("summary", EmptyString)])
       []].

Definition ping_block : ScopeBlock :=
  mkScopeBlock "ping.go:3"
    [mkAnnotation AnnotationRoute "!GET /ping -> ping"
       (args [("method", "GET"); ("path", "/ping");
              ("operationId", "ping"); ("summary", EmptyString)])
       []].

Definition list_users : Operation :=
  mkOperation "GET" "/users" "listUsers" EmptyString [] [] "users.go:12".

Definition get_users : Operation :=
  mkOperation "GET" "/users" "getUsers" EmptyString [] [] "admin.go:40".

End examples.

(** ** The other typed views of the lexer *)

Module views.
Import strings parser.

Record ParsedAPI : Type := mkParsedAPI {
  api_Version : string
}.

Definition GetAPI (a : Annotation) : ParsedAPI :=
  mkParsedAPI (Args a !!! "version").

Record ParsedInfo : Type := mkParsedInfo {
  info_Title : string;
  info_Version : string;
  info_Description : string
}.

Definition GetInfo (a : Annotation) : ParsedInfo :=
  mkParsedInfo (Args a !!! "title") (Args a !!! "version")
    (Args a !!! "description").

Record ParsedModel : Type := mkParsedModel {
  model_Description : string
}.

Definition GetModel (a : Annotation) : ParsedModel :=
  mkParsedModel (Args a !!! "description").

Record ParsedSecurity : Type := mkParsedSecurity {
  security_Name : string;
  security_Type : string;
  security_Location : string;
  security_Description : string;
  security_URL : string
}.

Definition GetSecurity (a : Annotation) : ParsedSecurity :=
  mkParsedSecurity (Args a !!! "name") (Args a !!! "type")
    (Args a !!! "location") (Args a !!! "description") (Args a !!! "url").

Record ParsedSecure : Type := mkParsedSecure {
  secure_Names : list string
}.

Definition GetSecure (a : Annotation) : ParsedSecure :=
  mkParsedSecure (Tags a).

Record ParsedWebhook : Type := mkParsedWebhook {
  webhook_Name : string;
  webhook_Method : string;
  webhook_Description : string
}.

(** A text of ASCII bytes. *)
Definition is_ascii (s : string) : bool :=
  all (λ c, Nat.ltb (nat_of_ascii c) 128) s.

(** [GetWebhook] calls [strings.ToUpper] on whatever the annotation holds
    as its method.  On a text of ASCII bytes that is [ToUpper]; on any
    other text Go follows the Unicode case tables, which are not modelled
    here, and the view is left open ([None]). *)
Definition GetWebhook (a : Annotation) : option ParsedWebhook :=
  let method := Args a !!! "method" in
  if is_ascii method
  then Some (mkParsedWebhook (Args a !!! "name") (ToUpper method)
               (Args a !!! "description"))
  else None.

Record ParsedWebhookBody : Type := mkParsedWebhookBody {
  webhook_body_Schema : string;
  webhook_body_Description : string;
  webhook_body_Required : bool
}.

Definition GetWebhookBody (a : Annotation) : ParsedWebhookBody :=
  mkParsedWebhookBody (Args a !!! "schema") (Args a !!! "description")
    (Contains (RawLine a) "required").

Record ParsedWebhookResponse : Type := mkParsedWebhookResponse {
  webhook_response_Status : string;
  webhook_response_Schema : string;
  webhook_response_Description : string
}.

Definition GetWebhookResponse (a : Annotation) : ParsedWebhookResponse :=
  mkParsedWebhookResponse (Args a !!! "status") (Args a !!! "schema")
    (Args a !!! "description").

End views.

(** ** The vocabulary of the further properties *)

Module shapes.
Import strings regexp parser.

(** The bodies of the groups numbered [i] of a pattern. *)
Fixpoint bodies (r : regex) (i : nat) : list regex :=
  match r with
  | Lit _ | Cls _ | Star _ => []
  | Seq r1 r2 | Alt r1 r2 => bodies r1 i ++ bodies r2 i
  | Opt r => bodies r i
  | Grp j r => (if Nat.eqb i j then [r] else []) ++ bodies r i
  end.

(** A group every match of the pattern takes part in. *)
Fixpoint mandatory (r : regex) (i : nat) : bool :=
  match r with
  | Lit _ | Cls _ | Star _ | Opt _ => false
  | Seq r1 r2 => mandatory r1 i || mandatory r2 i
  | Alt r1 r2 => mandatory r1 i && mandatory r2 i
  | Grp j r => Nat.eqb i j || mandatory r i
  end.

(** The keywords a kind of annotation is written with. *)
Definition kind_keywords (t : AnnotationType) : list string :=
  match t with
  | AnnotationAPI => ["api"]
  | AnnotationInfo => ["info"]
  | AnnotationContact => ["contact"]
  | AnnotationLicense => ["license"]
  | AnnotationServer => ["server"]
  | AnnotationTag => ["tag"]
  | AnnotationTOS => ["tos"]
  | AnnotationSecurity => ["security"]
  | AnnotationScope => ["scope"]
  | AnnotationExternalDocs => ["externalDocs"]
  | AnnotationLink => ["link"]
  | AnnotationWebhook => ["webhook"]
  | AnnotationWebhookBody => ["webhook-body"]
  | AnnotationWebhookResponse => ["webhook-response"]
  | AnnotationRoute =>
      ["GET"; "POST"; "PUT"; "DELETE"; "PATCH"; "OPTIONS"; "HEAD"]
  | AnnotationQuery => ["query"; "cookie"]
  | AnnotationPath => ["path"]
  | AnnotationHeader => ["header"]
  | AnnotationBody => ["body"]
  | AnnotationOK => ["ok"]
  | AnnotationError => ["error"]
  | AnnotationSecure => ["secure"]
  | AnnotationModel => ["model"]
  | AnnotationField => ["field"]
  end.

(** The attribute a kind of annotation holds as one mandatory token. *)
Definition token_key (t : AnnotationType) : option string :=
  match t with
  | AnnotationLicense | AnnotationTag => Some "name"
  | AnnotationServer | AnnotationTOS | AnnotationExternalDocs
  | AnnotationLink => Some "url"
  | AnnotationBody | AnnotationWebhookBody => Some "schema"
  | _ => None
  end.

(** The six ASCII bytes [unicode.IsSpace] holds for. *)
Definition ascii_space (c : ascii) : bool :=
  existsb (λ n, Nat.eqb (nat_of_ascii c) n) [9; 10; 11; 12; 13; 32].

(** A text ends with the encoding of a white-space rune. *)
Definition ends_with_space (s : string) : Prop :=
  ∃ pre r, r ∈ space_runes ∧ s = pre +:+ r.

End shapes.

(** ** Where the attributes are stored *)

Module storage.
Import strings regexp parser.

(** The grammar of a kind of annotation. *)
Definition kind_pattern (p : AnnotationParser) (t : AnnotationType) : Regexp :=
  match t with
  | AnnotationAPI => apiPattern p
  | AnnotationInfo => infoPattern p
  | AnnotationContact => contactPattern p
  | AnnotationLicense => licensePattern p
  | AnnotationServer => serverPattern p
  | AnnotationTag => tagPattern p
  | AnnotationTOS => tosPattern p
  | AnnotationSecurity => securityPattern p
  | AnnotationScope => scopePattern p
  | AnnotationExternalDocs => externalDocsPattern p
  | AnnotationLink => linkPattern p
  | AnnotationWebhook => webhookPattern p
  | AnnotationWebhookBody => webhookBodyPattern p
  | AnnotationWebhookResponse => webhookRespPattern p
  | AnnotationRoute => routePattern p
  | AnnotationQuery | AnnotationPath | AnnotationHeader => paramPattern p
  | AnnotationBody => bodyPattern p
  | AnnotationOK | AnnotationError => responsePattern p
  | AnnotationSecure => securePattern p
  | AnnotationModel => modelPattern p
  | AnnotationField => fieldPattern p
  end.

(** The attribute keys a kind guarantees, each with the number of the
    group of the grammar it is taken from. *)
Definition key_groups (t : AnnotationType) : list (string * nat) :=
  match t with
  | AnnotationAPI => [("version", 1)]
  | AnnotationInfo => [("title", 1); ("version", 2); ("description", 3)]
  | AnnotationContact => [("name", 1); ("email", 2); ("url", 3)]
  | AnnotationLicense => [("name", 1); ("url", 2)]
  | AnnotationServer => [("url", 1); ("description", 2)]
  | AnnotationTag => [("name", 1); ("description", 2)]
  | AnnotationTOS => [("url", 1)]
  | AnnotationSecurity =>
      [("name", 1); ("type", 2); ("location", 3); ("description", 4);
       ("url", 5)]
  | AnnotationScope => [("security", 1); ("name", 2); ("description", 3)]
  | AnnotationExternalDocs => [("url", 1); ("description", 2)]
  | AnnotationLink => [("label", 1); ("url", 2)]
  | AnnotationWebhook => [("name", 1); ("method", 2); ("description", 3)]
  | AnnotationWebhookBody => [("schema", 1); ("description", 2)]
  | AnnotationWebhookResponse =>
      [("status", 1); ("schema", 2); ("description", 3)]
  | AnnotationRoute =>
      [("method", 1); ("path", 2); ("operationId", 3); ("summary", 4)]
  | AnnotationQuery | AnnotationPath | AnnotationHeader =>
      [("in", 1); ("name", 2); ("type", 3); ("description", 4)]
  | AnnotationBody => [("schema", 1); ("description", 2)]
  | AnnotationOK | AnnotationError =>
      [("status", 2); ("schema", 3); ("description", 4)]
  | AnnotationSecure => [("names", 1)]
  | AnnotationModel => [("description", 1)]
  | AnnotationField => [("name", 1); ("type", 2); ("description", 3)]
  end.

(** The submatches of the line of an annotation under the grammar of its
    kind: [Some None] stands for a group that took no part in the match. *)
Definition line_captures (p : AnnotationParser) (a : Annotation)
    : option caps :=
  snd <$> exec (expr (kind_pattern p (Type_ a))) (RawLine a).

(** The claim as it is written: every guaranteed key is there, and the
    key of a group that took no part in the match holds the empty
    string. *)
Definition absent_groups_empty (p : AnnotationParser) (a : Annotation)
    : Prop :=
  ∃ cs, line_captures p a = Some cs ∧
    ∀ k g, (k, g) ∈ key_groups (Type_ a) →
      is_Some (Args a !! k) ∧
      (cs !! g = Some None → Args a !! k = Some EmptyString).

(** What is stored for a group that took no part in the match: the
    default status of a response, and the empty string everywhere else. *)
Definition absent_value (t : AnnotationType) (k : string) : string :=
  match t with
  | AnnotationOK => if String.eqb k "status" then "200" else EmptyString
  | AnnotationError => if String.eqb k "status" then "500" else EmptyString
  | _ => EmptyString
  end.

(** What is stored for a group that matched the text [u]: the text itself,
    the names of a [!secure] line being cut into fields and joined. *)
Definition present_value (k u : string) : string :=
  if String.eqb k "names" then Join (Fields u) "," else u.

Definition stored_groups (p : AnnotationParser) (a : Annotation) : Prop :=
  ∃ cs, line_captures p a = Some cs ∧
    ∀ k g, (k, g) ∈ key_groups (Type_ a) →
      ∃ o, cs !! g = Some o ∧
        Args a !! k =
          Some (match o with
                | Some u => present_value k u
                | None => absent_value (Type_ a) k
                end).

End storage.

Import strings regexp parser semantics spec assembler examples.
Import views shapes storage.

(** * Properties *)

(** ** Strings *)

Section StringFacts.

Lemma append_nil_r (s : string) : s +:+ EmptyString = s.
Proof. induction s as [|c s IH]; simpl; [done | by rewrite <- IH at 2]. Qed.

Lemma append_cons (c : ascii) (s t : string) :
  String c s +:+ t = String c (s +:+ t).
Proof. done. Qed.

Lemma append_assoc (s t u : string) : (s +:+ t) +:+ u = s +:+ (t +:+ u).
Proof.
  induction s as [|c s IH]; [done|].
  rewrite !append_cons. by rewrite IH.
Qed.

Lemma length_append (s t : string) :
  String.length (s +:+ t) = String.length s + String.length t.
Proof.
  induction s as [|c s IH]; [done|].
  rewrite append_cons. simpl. by rewrite IH.
Qed.

Lemma strip_prefix_Some (w s rest : string) :
  strip_prefix w s = Some rest → s = w +:+ rest.
Proof.
  revert s. induction w as [|a w IH]; intros s H.
  - destruct s; simpl in H; by inversion H.
  - destruct s as [|b s]; simpl in H; [done|].
    destruct (Ascii.eqb_spec a b) as [->|]; [|done].
    rewrite append_cons. f_equal. by apply IH.
Qed.

Lemma strip_prefix_append (w s : string) : strip_prefix w (w +:+ s) = Some s.
Proof.
  induction w as [|a w IH]; [by destruct s|].
  rewrite append_cons. simpl. by rewrite Ascii.eqb_refl.
Qed.

Lemma prefix_strip (w s : string) :
  String.prefix w s = true ↔ ∃ rest, s = w +:+ rest.
Proof.
  split.
  - revert s. induction w as [|a w IH]; intros s H.
    + by exists s.
    + destruct s as [|b s]; [done|]. simpl in H.
      destruct (ascii_dec a b) as [->|]; [|done].
      destruct (IH _ H) as [rest ->]. by exists rest.
  - intros [rest ->]. induction w as [|a w IH]; [by destruct rest|].
    rewrite append_cons. simpl. by destruct (ascii_dec a a).
Qed.

(** [strings.Contains] decides the presence of a substring. *)
Lemma Contains_spec (s sub : string) :
  Contains s sub = true ↔ ∃ pre post, s = pre +:+ sub +:+ post.
Proof.
  split.
  - induction s as [|c s IH]; intros H.
    + change (HasPrefix EmptyString sub || false = true) in H.
      rewrite orb_false_r in H. apply prefix_strip in H as [rest ->].
      by exists EmptyString, rest.
    + change (HasPrefix (String c s) sub || Contains s sub = true) in H.
      apply orb_true_iff in H as [H|H].
      * apply prefix_strip in H as [rest ->]. by exists EmptyString, rest.
      * destruct (IH H) as (pre & post & ->). by exists (String c pre), post.
  - intros (pre & post & ->). induction pre as [|c pre IH].
    + assert (HasPrefix (sub +:+ post) sub = true) as H
        by (apply prefix_strip; eauto).
      change (EmptyString +:+ sub +:+ post) with (sub +:+ post).
      destruct (sub +:+ post) as [|c t].
      * change (HasPrefix EmptyString sub || false = true). by rewrite H.
      * change (HasPrefix (String c t) sub || Contains t sub = true).
        by rewrite H.
    + rewrite append_cons.
      change (HasPrefix (String c (pre +:+ sub +:+ post)) sub
              || Contains (pre +:+ sub +:+ post) sub = true).
      rewrite IH. apply orb_true_r.
Qed.

Lemma take_while_all (p : ascii → bool) (w rest : string) :
  all p w = true → head_is p rest = false →
  take_while p (w +:+ rest) = w ∧ drop_while p (w +:+ rest) = rest.
Proof.
  intros Hw Hr. induction w as [|c w IH].
  - change (EmptyString +:+ rest) with rest.
    destruct rest as [|c r]; [done|]. simpl in *. by rewrite Hr.
  - rewrite append_cons. simpl in *. apply andb_true_iff in Hw as [-> Hw].
    destruct (IH Hw) as [-> ->]. done.
Qed.

End StringFacts.

(** ** The matcher *)

Section MatcherFacts.
Context {R : Type}.
Implicit Types (k : string → string → caps → option R) (x : R).

Lemma star_sound p s (k : string → string → option R) x :
  star p s k = Some x →
  ∃ w s', s = w +:+ s' ∧ all p w = true ∧ k w s' = Some x.
Proof.
  revert k. induction s as [|c s IH]; intros k H; simpl in H.
  - by exists EmptyString, EmptyString.
  - destruct (p c) eqn:Hc; [|by exists EmptyString, (String c s)].
    destruct (star p s _) as [y|] eqn:E; [|by exists EmptyString, (String c s)].
    inversion H; subst y.
    apply IH in E as (w & s' & -> & Hw & Hk).
    exists (String c w), s'. simpl. by rewrite Hc.
Qed.

(** The longest run is tried first. *)
Lemma star_first p s (k : string → string → option R) x :
  k (take_while p s) (drop_while p s) = Some x → star p s k = Some x.
Proof.
  revert k. induction s as [|c s IH]; intros k H; simpl in *; [done|].
  destruct (p c); [|done].
  by rewrite (IH (λ w rest, k (String c w) rest) H).
Qed.

Lemma run_sound r : ∀ s cs k x,
  run r s cs k = Some x →
  ∃ w s' cs', s = w +:+ s' ∧ matches r w cs cs' ∧ k w s' cs' = Some x.
Proof.
  induction r as [w|p|p|r1 IH1 r2 IH2|r1 IH1 r2 IH2|r IH|i r IH];
    intros s cs k x H; simpl in H.
  - destruct (strip_prefix w s) as [rest|] eqn:E; [|done].
    apply strip_prefix_Some in E. exists w, rest, cs. eauto using matches.
  - destruct s as [|c s]; [done|]. destruct (p c) eqn:Hc; [|done].
    exists (String c EmptyString), s, cs. eauto using matches.
  - apply star_sound in H as (w & s' & -> & Hw & Hk).
    exists w, s', cs. eauto using matches.
  - apply IH1 in H as (w1 & s1 & cs1 & -> & M1 & H).
    apply IH2 in H as (w2 & s2 & cs2 & -> & M2 & H).
    exists (w1 +:+ w2), s2, cs2. rewrite append_assoc. eauto using matches.
  - destruct (run r1 s cs k) as [y|] eqn:E.
    + inversion H; subst y.
      apply IH1 in E as (w & s' & cs' & -> & M & Hk).
      exists w, s', cs'. eauto using matches.
    + apply IH2 in H as (w & s' & cs' & -> & M & Hk).
      exists w, s', cs'. eauto using matches.
  - destruct (run r s cs k) as [y|] eqn:E.
    + inversion H; subst y.
      apply IH in E as (w & s' & cs' & -> & M & Hk).
      exists w, s', cs'. eauto using matches.
    + exists EmptyString, s, cs. eauto using matches.
  - apply IH in H as (w & s' & cs' & -> & M & Hk).
    exists w, s', (<[i := Some w]> cs'). eauto using matches.
Qed.

Lemma run_plus_first p s cs k x :
  head_is p s = true →
  k (take_while p s) (drop_while p s) cs = Some x →
  run (Plus p) s cs k = Some x.
Proof.
  destruct s as [|c s]; simpl; [done|]. intros ->.
  intros H. by apply star_first.
Qed.

Lemma run_opt_first r s cs k x :
  run r s cs k = Some x → run (Opt r) s cs k = Some x.
Proof. simpl. by intros ->. Qed.

Lemma run_opt_skip r s cs k :
  run r s cs k = None → run (Opt r) s cs k = k EmptyString s cs.
Proof. simpl. by intros ->. Qed.

Lemma run_plus_head p s cs k x :
  run (Plus p) s cs k = Some x → head_is p s = true.
Proof.
  destruct s as [|c s]; simpl; [done|]. by destruct (p c).
Qed.

End MatcherFacts.

Section MatchFacts.

Lemma matches_length r w cs cs' :
  matches r w cs cs' → length cs' = length cs.
Proof.
  induction 1; try done; try congruence.
  rewrite length_insert. done.
Qed.

(** A match only writes the submatches of its own groups. *)
Lemma matches_frame r w cs cs' (j : nat) :
  matches r w cs cs' → j ∉ groups r → cs' !! j = cs !! j.
Proof.
  induction 1 as [| | |r1 r2 w1 w2 cs cs1 cs2 _ IH1 _ IH2
                  |r1 r2 w cs cs' _ IH|r1 r2 w cs cs' _ IH
                  |r w cs cs' _ IH| |i r w cs cs' _ IH];
    simpl; intros Hj; try done.
  - rewrite IH2, IH1; [done|..]; set_solver.
  - apply IH; set_solver.
  - apply IH; set_solver.
  - by apply IH.
  - rewrite list_lookup_insert_ne; [apply IH|]; set_solver.
Qed.

Lemma matches_plus (p : ascii → bool) w cs cs' :
  matches (Plus p) w cs cs' →
  cs' = cs ∧ all p w = true ∧ head_is p w = true.
Proof.
  intros H. inversion H as [| | |? ? w1 w2 ? cs1 ? H1 H2| | | | |]; subst.
  inversion H1; subst. inversion H2; subst.
  rewrite append_cons. simpl. split; [done|]. split; [|done].
  apply andb_true_iff. done.
Qed.

Lemma matches_one_of kws w cs cs' :
  matches (one_of kws) w cs cs' → w ∈ kws ∧ cs' = cs.
Proof.
  revert w. induction kws as [|w0 [|w1 kws] IH]; intros w H.
  - inversion H; subst. done.
  - inversion H; subst. split; [left|done].
  - inversion H as [| | | |? ? ? ? ? HL|? ? ? ? ? HR| | |]; subst.
    + inversion HL; subst. split; [left|done].
    + destruct (IH _ HR) as [Hin ->]. split; [by right|done].
Qed.

Lemma exec_sound r s w cs :
  exec r s = Some (w, cs) →
  ∃ s' cs', s = w +:+ s' ∧
    matches r w (replicate (S (NumSubexp r)) None) cs' ∧
    cs = <[0 := Some w]> cs'.
Proof.
  intros H. apply run_sound in H as (w' & s' & cs' & -> & M & Hk).
  inversion Hk; subst. eauto.
Qed.

Lemma exec_length r s w cs :
  exec r s = Some (w, cs) → length cs = S (NumSubexp r).
Proof.
  intros H. apply exec_sound in H as (s' & cs' & _ & M & ->).
  rewrite length_insert, (matches_length _ _ _ _ M). apply length_replicate.
Qed.

Lemma search_sound r s w cs :
  search r s = Some (w, cs) →
  ∃ pre s' cs', s = pre +:+ w +:+ s' ∧
    matches r w (replicate (S (NumSubexp r)) None) cs' ∧
    cs = <[0 := Some w]> cs'.
Proof.
  induction s as [|c s IH]; simpl;
    destruct (exec r _) as [[w' cs0]|] eqn:E; intros H; try done.
  - injection H as -> ->. apply exec_sound in E as (s' & cs' & Hs & M & ->).
    by exists EmptyString, s', cs'.
  - injection H as -> ->. apply exec_sound in E as (s' & cs' & Hs & M & ->).
    by exists EmptyString, s', cs'.
  - destruct (IH H) as (pre & s' & cs' & -> & M & ->).
    by exists (String c pre), s', cs'.
Qed.

Lemma search_length r s w cs :
  search r s = Some (w, cs) → length cs = S (NumSubexp r).
Proof.
  induction s as [|c s IH]; simpl; destruct (exec r _) as [[w' cs']|] eqn:E;
    intros H; try done; inversion H; subst; eauto using exec_length.
Qed.

(** A match has one entry per group, and one for the whole match. *)
Lemma FindStringSubmatch_length re s m :
  FindStringSubmatch re s = Some m → length m = S (NumSubexp (expr re)).
Proof.
  unfold FindStringSubmatch, submatches. intros H.
  apply fmap_Some in H as ([w cs] & H & ->). rewrite length_map. simpl.
  destruct (anchored re); eauto using exec_length, search_length.
Qed.

End MatchFacts.

(** ** The stages of [parseLine] *)

(** Name the entries of a match whose pattern is known. *)
Ltac match_shape E :=
let Hlen := fresh "Hlen" in
pose proof (FindStringSubmatch_length _ _ _ E) as Hlen;
match type of Hlen with
| length ?m = ?n =>
    let n' := eval vm_compute in n in
    change (length m = n') in Hlen;
    repeat (destruct m as [|? m]; [discriminate Hlen|]);
    destruct m; [clear Hlen|discriminate Hlen]
end.

Ltac keys_present :=
let k := fresh "k" in
let Hk := fresh "Hk" in
intros k Hk; simpl in Hk;
repeat (apply elem_of_cons in Hk as [->|Hk]);
[vm_compute; by eexists ..|by apply elem_of_nil in Hk].

Section StageFacts.
Local Abbreviation p := NewAnnotationParser.

Lemma find_all_length r s skip :
  Forall (λ m, length m = S (NumSubexp r)) (find_all r s skip).
Proof.
  revert skip. induction s as [|c s IH]; intros skip; simpl; [done|].
  destruct skip; [|done].
  destruct (exec r (String c s)) as [[w cs]|] eqn:E; [|done].
  constructor; [|done].
  unfold submatches. rewrite length_map. eauto using exec_length.
Qed.

Lemma collect_tags_spec (ms : list (list string)) (tags : list string) :
  Forall (λ m, length m = 2) ms →
  collect_tags ms tags = Done (tags ++ map (λ m, m !!! 1) ms).
Proof.
  revert tags. induction ms as [|m ms IH]; intros tags H; simpl.
  - by rewrite app_nil_r.
  - inversion H as [|? ? Hm Hms]; subst.
    destruct m as [|m0 [|m1 [|]]]; try done. simpl.
    rewrite (IH _ Hms). by rewrite <- app_assoc.
Qed.

Lemma extractTags_spec line :
  extractTags line =
    Done (map (λ m, m !!! 1) (FindAllStringSubmatch hashtagPattern line)).
Proof.
  unfold extractTags. rewrite collect_tags_spec; [done|].
  apply (find_all_length (expr hashtagPattern)).
Qed.

Lemma fill_args_spec keys : ∀ i (m : list string) args,
  i + length keys < length m →
  ∃ args', fill_args keys i m args = Done args' ∧
    ∀ k, k ∈ keys ∨ is_Some (args !! k) → is_Some (args' !! k).
Proof.
  induction keys as [|key keys IH]; intros i m args Hlen; simpl in *.
  - exists args. split; [done|]. intros k [Hk|Hk]; [by apply elem_of_nil in Hk|done].
  - destruct (Nat.ltb_spec (i + 1) (length m)) as [Hlt|]; [|lia].
    unfold idx. destruct (lookup_lt_is_Some_2 m (i + 1) Hlt) as [v ->]. simpl.
    destruct (IH (S i) m (<[key := v]> args)) as (args' & -> & Hks); [lia|].
    exists args'. split; [done|]. intros k Hk. apply Hks.
    destruct (decide (k = key)) as [->|Hne].
    + right. rewrite lookup_insert_eq. eauto.
    + destruct Hk as [Hk|Hk].
      * left. apply elem_of_cons in Hk as [|]; done.
      * right. by rewrite lookup_insert_ne.
Qed.

Lemma first_simple_result matchers line :
  Forall (λ '(re, t, keys),
            length keys = NumSubexp (expr re) ∧ guaranteed_keys t = keys)
         matchers →
  stage_result (map (λ m, m.1.1) matchers) (map (λ m, m.1.2) matchers) line
    (first_simple matchers line).
Proof.
  induction 1 as [|[[re t] keys] matchers [Hn Hk] _ IH]; simpl; [done|].
  destruct (FindStringSubmatch re line) as [m|] eqn:E.
  - pose proof (FindStringSubmatch_length _ _ _ E) as Hlen.
    destruct (fill_args_spec keys 0 m ∅) as (args & -> & Hargs); [simpl; lia|].
    simpl. split; [left; eauto|]. split; [done|]. split; [left|].
    intros k Hin. simpl in Hin. rewrite Hk in Hin. apply Hargs. by left.
  - destruct (first_simple matchers line) as [[a|]|]; simpl in *; [|by constructor|done].
    destruct IH as (Hex & Hraw & Hty & Hkeys).
    split; [by right|]. split; [done|]. split; [by right|done].
Qed.

Lemma parseSimplePatterns_result line :
  stage_result (map (λ m, m.1.1) (simple_matchers p))
    (map (λ m, m.1.2) (simple_matchers p)) line (parseSimplePatterns p line).
Proof. apply first_simple_result. repeat constructor. Qed.

Lemma parseRoutePattern_result line :
  stage_result [routePattern p] [AnnotationRoute] line (parseRoutePattern p line).
Proof.
  unfold parseRoutePattern. destruct (FindStringSubmatch _ line) as [m|] eqn:E.
  - assert (is_Some (FindStringSubmatch (routePattern p) line)) as Hex
      by (rewrite E; eauto).
    match_shape E. rewrite extractTags_spec. simpl.
    split; [left; exact Hex|]. split; [done|]. split; [left|].
    keys_present.
  - by repeat constructor.
Qed.

Ltac split_ifs :=
  repeat match goal with
         | |- context [if ?b then _ else _] => destruct b
         end.

Ltac stage_done Hex :=
  simpl; split_ifs; simpl;
  (split; [left; exact Hex|]);
  (split; [done|]);
  (split; [by repeat first [apply list_elem_of_here | apply list_elem_of_further]|]);
  keys_present.

Lemma parseParamPattern_result line :
  stage_result [paramPattern p]
    [AnnotationQuery; AnnotationPath; AnnotationHeader] line
    (parseParamPattern p line).
Proof.
  unfold parseParamPattern.
  destruct (FindStringSubmatch (paramPattern p) line) as [m|] eqn:E;
    [|by repeat constructor].
  assert (is_Some (FindStringSubmatch (paramPattern p) line)) as Hex
    by (rewrite E; eauto).
  match_shape E. simpl.
  destruct (FindStringSubmatch defaultPattern line) as [dm|] eqn:Ed;
    [match_shape Ed|]; stage_done Hex.
Qed.

Lemma parseBodyPattern_result line :
  stage_result [bodyPattern p] [AnnotationBody] line (parseBodyPattern p line).
Proof.
  unfold parseBodyPattern.
  destruct (FindStringSubmatch (bodyPattern p) line) as [m|] eqn:E;
    [|by repeat constructor].
  assert (is_Some (FindStringSubmatch (bodyPattern p) line)) as Hex
    by (rewrite E; eauto).
  match_shape E. stage_done Hex.
Qed.

Lemma parseResponsePattern_result line :
  stage_result [responsePattern p] [AnnotationOK; AnnotationError] line
    (parseResponsePattern p line).
Proof.
  unfold parseResponsePattern.
  destruct (FindStringSubmatch (responsePattern p) line) as [m|] eqn:E;
    [|by repeat constructor].
  assert (is_Some (FindStringSubmatch (responsePattern p) line)) as Hex
    by (rewrite E; eauto).
  match_shape E. stage_done Hex.
Qed.

Lemma parseSecurePattern_result line :
  stage_result [securePattern p] [AnnotationSecure] line
    (parseSecurePattern p line).
Proof.
  unfold parseSecurePattern.
  destruct (FindStringSubmatch (securePattern p) line) as [m|] eqn:E;
    [|by repeat constructor].
  assert (is_Some (FindStringSubmatch (securePattern p) line)) as Hex
    by (rewrite E; eauto).
  match_shape E. stage_done Hex.
Qed.

Lemma parseWebhookPattern_result line :
  stage_result [webhookPattern p; webhookBodyPattern p; webhookRespPattern p]
    [AnnotationWebhook; AnnotationWebhookBody; AnnotationWebhookResponse] line
    (parseWebhookPattern p line).
Proof.
  unfold parseWebhookPattern.
  destruct (FindStringSubmatch (webhookPattern p) line) as [m|] eqn:E.
  { assert (is_Some (FindStringSubmatch (webhookPattern p) line)) as Hex
      by (rewrite E; eauto).
    match_shape E. stage_done Hex. }
  destruct (FindStringSubmatch (webhookBodyPattern p) line) as [m|] eqn:E2.
  { assert (is_Some (FindStringSubmatch (webhookBodyPattern p) line)) as Hex
      by (rewrite E2; eauto).
    match_shape E2. simpl.
    split; [right; left; exact Hex|]. split; [done|].
    split; [by repeat first [apply list_elem_of_here | apply list_elem_of_further]|].
    keys_present. }
  destruct (FindStringSubmatch (webhookRespPattern p) line) as [m|] eqn:E3.
  { assert (is_Some (FindStringSubmatch (webhookRespPattern p) line)) as Hex
      by (rewrite E3; eauto).
    match_shape E3. simpl.
    split; [right; right; left; exact Hex|]. split; [done|].
    split; [by repeat first [apply list_elem_of_here | apply list_elem_of_further]|].
    keys_present. }
  by repeat constructor.
Qed.

Lemma parseModelPattern_result line :
  stage_result [modelPattern p] [AnnotationModel] line (parseModelPattern p line).
Proof.
  unfold parseModelPattern.
  destruct (FindStringSubmatch (modelPattern p) line) as [m|] eqn:E;
    [|by repeat constructor].
  assert (is_Some (FindStringSubmatch (modelPattern p) line)) as Hex
    by (rewrite E; eauto).
  match_shape E. stage_done Hex.
Qed.

Lemma parseFieldPattern_result line :
  stage_result [fieldPattern p] [AnnotationField] line (parseFieldPattern p line).
Proof.
  unfold parseFieldPattern.
  destruct (FindStringSubmatch (fieldPattern p) line) as [m|] eqn:E;
    [|by repeat constructor].
  assert (is_Some (FindStringSubmatch (fieldPattern p) line)) as Hex
    by (rewrite E; eauto).
  match_shape E. simpl.
  destruct (FindStringSubmatch examplePattern line) as [em|] eqn:Ee;
    [match_shape Ee|]; stage_done Hex.
Qed.

Lemma or_else_result pats1 types1 pats2 types2 line first rest :
  stage_result pats1 types1 line first →
  stage_result pats2 types2 line rest →
  stage_result (pats1 ++ pats2) (types1 ++ types2) line (or_else first rest).
Proof.
  destruct first as [[a|]|]; simpl; [| |done].
  - intros (Hex & Hraw & Hty & Hk) _.
    split; [apply Exists_app; by left|]. split; [done|].
    split; [apply elem_of_app; by left|done].
  - intros Hnone. destruct rest as [[a|]|]; simpl; [| |done].
    + intros (Hex & Hraw & Hty & Hk).
      split; [apply Exists_app; by right|]. split; [done|].
      split; [apply elem_of_app; by right|done].
    + intros Hnone2. by apply Forall_app.
Qed.

(** [parseLine] never panics; it answers an annotation exactly on the
    lines a grammar matches. *)
Lemma parseLine_result line :
  match parseLine p line with
  | Panic => False
  | Done None => recognized p line = false
  | Done (Some a) =>
      recognized p line = true ∧ RawLine a = line ∧ carries_keys a
  end.
Proof.
  assert (∃ types, stage_result (grammars p) types line (parseLine p line))
    as [types H].
  { eexists. exact
    (or_else_result _ _ _ _ line _ _ (parseSimplePatterns_result line)
    (or_else_result _ _ _ _ line _ _ (parseRoutePattern_result line)
    (or_else_result _ _ _ _ line _ _ (parseParamPattern_result line)
    (or_else_result _ _ _ _ line _ _ (parseBodyPattern_result line)
    (or_else_result _ _ _ _ line _ _ (parseResponsePattern_result line)
    (or_else_result _ _ _ _ line _ _ (parseSecurePattern_result line)
    (or_else_result _ _ _ _ line _ _ (parseWebhookPattern_result line)
    (or_else_result _ _ _ _ line _ _ (parseModelPattern_result line)
       (parseFieldPattern_result line))))))))). }
  unfold recognized.
  destruct (parseLine p line) as [[a|]|]; simpl in H; [| |done].
  - destruct H as (Hex & Hraw & _ & Hk). split; [|done].
    apply existsb_exists. apply Exists_exists in Hex as (re & Hin & Hre).
    exists re. split; [by apply list_elem_of_In|by apply bool_decide_eq_true].
  - apply not_true_iff_false. intros Hex.
    apply existsb_exists in Hex as (re & Hin & Hre).
    apply bool_decide_eq_true in Hre as [m Hm].
    apply list_elem_of_In in Hin.
    rewrite Forall_forall in H. rewrite (H re Hin) in Hm. done.
Qed.

End StageFacts.

(** ** [Parse] *)

Section ParseFacts.
Local Abbreviation p := NewAnnotationParser.

Lemma exec_lit_prefix w r s x :
  exec (Seq (Lit w) r) s = Some x → HasPrefix s w = true.
Proof.
  intros H. apply run_sound in H as (w1 & s1 & cs1 & -> & M & _).
  inversion M as [| | |? ? u v ? ? ? Mu Mv| | | | |]; subst.
  inversion Mu; subst. apply prefix_strip.
  exists (v +:+ s1). by rewrite append_assoc.
Qed.

Lemma grammars_keyword : Forall keyword_shape (grammars p).
Proof.
  unfold grammars.
  repeat (apply Forall_cons; split; [split; [done|]|]); [..|constructor];
    first
      [ left; eexists _, _; split; [|reflexivity];
        by repeat first [apply list_elem_of_here | apply list_elem_of_further]
      | right; eexists [_; _; _; _; _; _; _], _; split; [|reflexivity];
        repeat (apply Forall_cons; split; [|]); [..|constructor];
        by repeat first [apply list_elem_of_here | apply list_elem_of_further]
      | right; eexists [_; _; _; _], _; split; [|reflexivity];
        repeat (apply Forall_cons; split; [|]); [..|constructor];
        by repeat first [apply list_elem_of_here | apply list_elem_of_further]
      | right; eexists [_; _], _; split; [|reflexivity];
        repeat (apply Forall_cons; split; [|]); [..|constructor];
        by repeat first [apply list_elem_of_here | apply list_elem_of_further] ].
Qed.

(** A line that carries no keyword is matched by no grammar. *)
Lemma recognized_keyword line :
  recognized p line = true → carries_keyword line = true.
Proof.
  unfold recognized, carries_keyword. intros H.
  apply existsb_exists in H as (re & Hin & Hre).
  apply bool_decide_eq_true in Hre as [m Hm].
  apply list_elem_of_In in Hin.
  pose proof grammars_keyword as G. rewrite Forall_forall in G.
  destruct (G re Hin) as (Ha & [(kw & r & Hkw & He)|(kws & r & Hkws & He)]);
    unfold FindStringSubmatch in Hm; rewrite Ha, He in Hm;
    apply fmap_Some in Hm as ([w cs] & Hx & _); apply existsb_exists.
  - exists kw. split; [by apply list_elem_of_In|].
    by apply exec_lit_prefix in Hx.
  - apply run_sound in Hx as (w1 & s1 & cs1 & -> & M & _).
    inversion M as [| | |? ? u v ? ? ? Mu Mv| | | | |]; subst.
    inversion Mu; subst.
    inversion Mv as [| | |? ? u2 v2 ? ? ? Mu2 Mv2| | | | |]; subst.
    inversion Mu2 as [| | | | | | | |? ? ? ? ? Mk]; subst.
    apply matches_one_of in Mk as [Hkw _].
    rewrite Forall_forall in Hkws.
    exists u2. split; [apply list_elem_of_In; auto|].
    apply prefix_strip. exists (v2 +:+ s1).
    by rewrite !append_assoc.
Qed.

Lemma recognized_bang line :
  recognized p line = true → HasPrefix line "!" = true.
Proof.
  intros H. apply recognized_keyword in H. unfold carries_keyword in H.
  apply existsb_exists in H as (kw & _ & H).
  apply prefix_strip in H as [rest ->]. apply prefix_strip.
  by exists (kw +:+ rest).
Qed.

Lemma parse_lines_spec lines : ∀ acc,
  ∃ outs,
    parse_lines p lines acc = Done (acc ++ omap id outs) ∧
    Forall2 (line_outcome p) lines outs ∧
    Forall (λ o, ∀ a, o = Some a → carries_keys a) outs.
Proof.
  induction lines as [|l lines IH]; intros acc; simpl.
  - exists []. simpl. by rewrite app_nil_r.
  - pose proof (parseLine_result (TrimSpace l)) as Hl.
    destruct (HasPrefix (TrimSpace l) "!") eqn:Hbang; simpl.
    + destruct (parseLine p (TrimSpace l)) as [[a|]|] eqn:E; simpl; [| |done].
      * destruct (IH (acc ++ [a])) as (outs & -> & Hout & Hk).
        exists (Some a :: outs). simpl. rewrite <- app_assoc.
        destruct Hl as (Hrec & Hraw & Hkeys).
        split; [done|]. split; constructor; try done.
        by intros ? [= <-].
      * destruct (IH acc) as (outs & -> & Hout & Hk).
        exists (None :: outs). split; [done|]. split; by constructor.
    + destruct (IH acc) as (outs & -> & Hout & Hk).
      exists (None :: outs). split; [done|]. split; constructor; try done.
      assert (recognized p (TrimSpace l) = false) as Hrec.
      { apply not_true_iff_false. intros Hrec.
        apply recognized_bang in Hrec. congruence. }
      unfold line_outcome. split; [|done].
      destruct (parseLine p (TrimSpace l)) as [[a|]|]; [|done..].
      destruct Hl as [Hl _]. congruence.
Qed.

(** [strings.Split] cuts a text at each separator. *)
Lemma Split_append (s t : string) (sep : ascii) :
  Split (s +:+ String sep t) sep = Split s sep ++ Split t sep.
Proof.
  induction s as [|c s IH].
  - change (EmptyString +:+ String sep t) with (String sep t).
    simpl. by rewrite Ascii.eqb_refl.
  - rewrite append_cons. simpl. rewrite IH.
    destruct (Ascii.eqb c sep); [done|].
    destruct (Split s sep) as [|l ls] eqn:E; [|done].
    destruct s; simpl in E; [done|]. destruct (Ascii.eqb _ sep); [done|].
    by destruct (Split s sep).
Qed.

Lemma parse_lines_app lines1 : ∀ lines2 acc,
  parse_lines p (lines1 ++ lines2) acc =
    anns ← parse_lines p lines1 acc; parse_lines p lines2 anns.
Proof.
  induction lines1 as [|l lines1 IH]; intros lines2 acc; simpl; [done|].
  destruct (HasPrefix (TrimSpace l) "!"); simpl; [|done].
  destruct (parseLine p (TrimSpace l)) as [[a|]|]; simpl; done.
Qed.

Lemma parse_lines_acc lines : ∀ acc,
  parse_lines p lines acc = anns ← parse_lines p lines []; Done (acc ++ anns).
Proof.
  induction lines as [|l lines IH]; intros acc; simpl.
  - by rewrite app_nil_r.
  - destruct (HasPrefix (TrimSpace l) "!"); simpl; [|done].
    destruct (parseLine p (TrimSpace l)) as [[a|]|]; simpl; [|done..].
    rewrite (IH (acc ++ [a])), (IH [a]).
    destruct (parse_lines p lines []); simpl; [|done].
    by rewrite <- app_assoc.
Qed.

End ParseFacts.

(** ** Which stage built an annotation *)

Section Dispatch.
Local Abbreviation p := NewAnnotationParser.

Lemma or_else_inv first rest a :
  or_else first rest = Done (Some a) →
  first = Done (Some a) ∨ (first = Done None ∧ rest = Done (Some a)).
Proof. destruct first as [[b|]|]; simpl; intros H; auto; done. Qed.

Ltac type_clash Hty :=
  exfalso;
  repeat (apply elem_of_cons in Hty as [Hty|Hty]; [discriminate Hty|]);
  by apply elem_of_nil in Hty.

Ltac by_stage H R :=
  let Hty := fresh "Hty" in
  pose proof R as Hty; rewrite H in Hty;
  destruct Hty as (_ & _ & Hty & _); simpl in Hty;
  destruct (Type_ _); try exact H; type_clash Hty.

(** The kind of an annotation tells the stage of [parseLine] it comes
    from. *)
Lemma parseLine_stage line a :
  parseLine p line = Done (Some a) →
  match Type_ a with
  | AnnotationRoute => parseRoutePattern p line
  | AnnotationQuery | AnnotationPath | AnnotationHeader =>
      parseParamPattern p line
  | AnnotationBody => parseBodyPattern p line
  | AnnotationOK | AnnotationError => parseResponsePattern p line
  | AnnotationSecure => parseSecurePattern p line
  | AnnotationWebhook | AnnotationWebhookBody | AnnotationWebhookResponse =>
      parseWebhookPattern p line
  | AnnotationModel => parseModelPattern p line
  | AnnotationField => parseFieldPattern p line
  | _ => parseSimplePatterns p line
  end = Done (Some a).
Proof.
  unfold parseLine. intros H.
  apply or_else_inv in H as [H|[_ H]];
    [by_stage H (parseSimplePatterns_result line)|].
  apply or_else_inv in H as [H|[_ H]];
    [by_stage H (parseRoutePattern_result line)|].
  apply or_else_inv in H as [H|[_ H]];
    [by_stage H (parseParamPattern_result line)|].
  apply or_else_inv in H as [H|[_ H]];
    [by_stage H (parseBodyPattern_result line)|].
  apply or_else_inv in H as [H|[_ H]];
    [by_stage H (parseResponsePattern_result line)|].
  apply or_else_inv in H as [H|[_ H]];
    [by_stage H (parseSecurePattern_result line)|].
  apply or_else_inv in H as [H|[_ H]];
    [by_stage H (parseWebhookPattern_result line)|].
  apply or_else_inv in H as [H|[_ H]];
    [by_stage H (parseModelPattern_result line)|].
  by_stage H (parseFieldPattern_result line).
Qed.

(** The [required] attribute of the three stages that set it. *)
Lemma parseParamPattern_required line a :
  parseParamPattern p line = Done (Some a) →
  Args a !!! "required" = if Contains line " required" then argTrue else EmptyString.
Proof.
  unfold parseParamPattern.
  destruct (FindStringSubmatch (paramPattern p) line) as [m|] eqn:E; [|done].
  match_shape E. simpl.
  destruct (FindStringSubmatch defaultPattern line) as [dm|] eqn:Ed;
    [match_shape Ed|]; simpl; intros [= <-]; simpl;
    destruct (Contains line " required"); done.
Qed.

Lemma parseBodyPattern_required line a :
  parseBodyPattern p line = Done (Some a) →
  Args a !!! "required" = if Contains line " required" then argTrue else EmptyString.
Proof.
  unfold parseBodyPattern.
  destruct (FindStringSubmatch (bodyPattern p) line) as [m|] eqn:E; [|done].
  match_shape E. simpl. intros [= <-]; simpl.
  destruct (Contains line " required"); done.
Qed.

Lemma parseFieldPattern_required line a :
  parseFieldPattern p line = Done (Some a) →
  Args a !!! "required" = if Contains line " required" then argTrue else EmptyString.
Proof.
  unfold parseFieldPattern.
  destruct (FindStringSubmatch (fieldPattern p) line) as [m|] eqn:E; [|done].
  match_shape E. simpl.
  destruct (FindStringSubmatch examplePattern line) as [em|] eqn:Ee;
    [match_shape Ee|]; simpl; intros [= <-]; simpl;
    destruct (Contains line " required"); done.
Qed.

Lemma required_flag (args : gmap string string) line :
  args !!! "required" = (if Contains line " required" then argTrue else EmptyString) →
  String.eqb (args !!! "required") argTrue = true ↔
  ∃ pre post, line = pre +:+ " required" +:+ post.
Proof.
  intros ->. rewrite <- Contains_spec.
  by destruct (Contains line " required").
Qed.

End Dispatch.

(** ** The keyword group of the parameter and response grammars *)

Section Keywords.
Local Abbreviation p := NewAnnotationParser.

Lemma exec_keyword kws rest s w (cs : caps) :
  exec (Seq (Lit "!") (Seq (Grp 1 (one_of kws)) rest)) s = Some (w, cs) →
  1 ∉ groups rest →
  ∃ kw tail, kw ∈ kws ∧ s = "!" +:+ kw +:+ tail ∧ cs !! 1 = Some (Some kw).
Proof.
  intros H Hfr. apply exec_sound in H as (s' & cs' & -> & M & ->).
  inversion M as [| | |? ? w1 w23 ? cs1 ? M1 M23| | | | |]; subst.
  inversion M1; subst.
  inversion M23 as [| | |? ? w2 w3 ? cs2 ? M2 M3| | | | |]; subst.
  inversion M2 as [| | | | | | | |? ? ? ? cs2' M2']; subst.
  apply matches_one_of in M2' as [Hkw ->].
  exists w2, (w3 +:+ s'). split; [done|]. split.
  - by rewrite !append_assoc.
  - rewrite list_lookup_insert_ne by done.
    rewrite (matches_frame _ _ _ _ 1 M3 Hfr).
    apply list_lookup_insert_eq. simpl. rewrite length_replicate. lia.
Qed.

Lemma submatches_lookup (cs : caps) i v :
  cs !! i = Some (Some v) → submatches cs !! i = Some v.
Proof. intros H. unfold submatches. by rewrite list_lookup_fmap, H. Qed.

Lemma paramPattern_keyword line m :
  FindStringSubmatch (paramPattern p) line = Some m →
  ∃ kw tail, kw ∈ ["query"; "path"; "header"; "cookie"] ∧
    line = "!" +:+ kw +:+ tail ∧ m !! 1 = Some kw.
Proof.
  unfold FindStringSubmatch. intros H.
  apply fmap_Some in H as ([w cs] & H & ->). simpl in H.
  apply (exec_keyword ["query"; "path"; "header"; "cookie"])
    in H as (kw & tail & Hkw & -> & Hcs).
  - exists kw, tail. eauto using submatches_lookup.
  - vm_compute. intros Hin. repeat (apply elem_of_cons in Hin as [Hin|Hin]; [done|]).
    by apply elem_of_nil in Hin.
Qed.

Lemma or_else_skip rest : or_else (Done None) rest = rest.
Proof. done. Qed.

Lemma cookie_line rest a :
  parseLine p ("!cookie" +:+ rest) = Done (Some a) →
  parseParamPattern p ("!cookie" +:+ rest) = Done (Some a).
Proof.
  unfold parseLine.
  assert (parseSimplePatterns p ("!cookie" +:+ rest) = Done None) as ->
    by (vm_compute; reflexivity).
  assert (parseRoutePattern p ("!cookie" +:+ rest) = Done None) as ->
    by (vm_compute; reflexivity).
  rewrite !or_else_skip. intros H.
  apply or_else_inv in H as [H|[_ H]]; [done|].
  vm_compute in H. done.
Qed.

Lemma parseParamPattern_cookie rest a :
  parseParamPattern p ("!cookie" +:+ rest) = Done (Some a) →
  Args a !! "in" = Some "cookie" ∧ Type_ a = AnnotationQuery.
Proof.
  unfold parseParamPattern.
  destruct (FindStringSubmatch (paramPattern p) _) as [m|] eqn:E; [|done].
  destruct (paramPattern_keyword _ _ E) as (kw & tail & Hkw & Heq & Hm).
  assert (kw = "cookie") as ->.
  { repeat (apply elem_of_cons in Hkw as [->|Hkw]); try done;
      try (vm_compute in Heq; congruence).
    by apply elem_of_nil in Hkw. }
  match_shape E. simpl in Hm. injection Hm as ->. simpl.
  destruct (FindStringSubmatch defaultPattern _) as [dm|] eqn:Ed;
    [match_shape Ed|]; simpl; intros [= <-]; simpl;
    destruct (Contains _ " required"); done.
Qed.

End Keywords.

(** ** Byte classes *)

Section Classes.

Lemma digit_not_space c : digit c = true → space c = false.
Proof. destruct c as [[] [] [] [] [] [] [] []]; by vm_compute. Qed.

Lemma word_not_hash c : word c = true → Ascii.eqb "#" c = false.
Proof. destruct c as [[] [] [] [] [] [] [] []]; by vm_compute. Qed.

Lemma non_true (q : ascii → bool) c : non q c = true ↔ q c = false.
Proof. unfold non. by destruct (q c). Qed.

Lemma head_is_append (q : ascii → bool) w s :
  head_is q w = true → head_is q (w +:+ s) = true.
Proof. by destruct w. Qed.

Lemma head_is_excl (q q' : ascii → bool) w :
  (∀ c, q c = true → q' c = false) →
  head_is q w = true → head_is q' w = false.
Proof. destruct w; simpl; [done|]. auto. Qed.

Lemma all_append (q : ascii → bool) (s t : string) :
  all q (s +:+ t) = all q s && all q t.
Proof.
  induction s as [|c s IH]; [done|].
  rewrite append_cons. simpl. rewrite IH. by rewrite andb_assoc.
Qed.

Lemma all_rev (q : ascii → bool) (s : string) : all q (rev s) = all q s.
Proof.
  unfold rev.
  enough (∀ acc, all q (rev_append s acc) = all q s && all q acc) as H
    by (rewrite H; apply andb_true_r).
  induction s as [|c s IH]; intros acc; simpl; [done|].
  rewrite IH. simpl. destruct (q c), (all q s); simpl; try done.
Qed.

Lemma all_drop_while (q f : ascii → bool) (s : string) :
  all q s = true → all q (drop_while f s) = true.
Proof.
  induction s as [|c s IH]; simpl; [done|].
  intros [Hc Hs]%andb_true_iff. destruct (f c); [by apply IH|].
  simpl. by rewrite Hc.
Qed.

(** Trimming removes bytes only. *)
Lemma all_Trim (q : ascii → bool) (s cutset : string) :
  all q s = true → all q (Trim s cutset) = true.
Proof.
  intros H. unfold Trim. rewrite all_rev. apply all_drop_while.
  rewrite all_rev. by apply all_drop_while.
Qed.

Lemma all_no_blank (v : string) :
  all (non space) v = true → Contains v " " = false.
Proof.
  intros H. apply not_true_iff_false. intros Hc.
  apply Contains_spec in Hc as (pre & post & ->).
  rewrite !all_append in H.
  apply andb_true_iff in H as [_ H]. by apply andb_true_iff in H as [H _].
Qed.

Lemma all_impl (q q' : ascii → bool) w :
  (∀ c, q c = true → q' c = true) → all q w = true → all q' w = true.
Proof.
  intros Hq. induction w as [|c w IH]; simpl; [done|].
  intros [Hc Hw]%andb_true_iff. rewrite (Hq _ Hc). by apply IH.
Qed.

End Classes.

(** ** Continuations *)

Section Continuations.
Context {R : Type}.
Implicit Types (k : string → string → caps → option R).

Lemma run_seq r1 r2 s cs k :
  run (Seq r1 r2) s cs k =
    run r1 s cs (λ w1 s1 cs1,
      run r2 s1 cs1 (λ w2 s2 cs2, k (w1 +:+ w2) s2 cs2)).
Proof. done. Qed.

Lemma run_grp i r s cs k :
  run (Grp i r) s cs k = run r s cs (λ w s' cs', k w s' (<[i := Some w]> cs')).
Proof. done. Qed.

Lemma run_lit_append w s cs k : run (Lit w) (w +:+ s) cs k = k w s cs.
Proof. simpl. by rewrite strip_prefix_append. Qed.

Lemma run_lit1 a b s cs k :
  run (Lit (String a EmptyString)) (String b s) cs k =
    if Ascii.eqb a b then k (String a EmptyString) s cs else None.
Proof. simpl. by destruct (Ascii.eqb a b), s. Qed.

Lemma run_seq_sound r1 r2 s cs k x :
  run (Seq r1 r2) s cs k = Some x →
  ∃ w1 s1 cs1, s = w1 +:+ s1 ∧ matches r1 w1 cs cs1 ∧
    run r2 s1 cs1 (λ w2 s2 cs2, k (w1 +:+ w2) s2 cs2) = Some x.
Proof. rewrite run_seq. apply run_sound. Qed.

Lemma total_seq k w1 :
  total k → total (λ w2 s2 cs2, k (w1 +:+ w2) s2 cs2).
Proof. intros Hk w s cs. apply Hk. Qed.

Lemma run_opt_total r s cs k : total k → is_Some (run (Opt r) s cs k).
Proof. intros Hk. simpl. destruct (run r s cs k); [eauto|apply Hk]. Qed.

End Continuations.

Lemma final_total k : final k → total k.
Proof. intros Hk w s cs. destruct (Hk w s cs) as [full ->]. eauto. Qed.

Lemma final_seq k w1 : final k → final (λ w2 s2 cs2, k (w1 +:+ w2) s2 cs2).
Proof. intros Hk w s cs. apply Hk. Qed.

(** ** The response grammar *)

Ltac not_in_groups :=
let Hin := fresh "Hin" in
vm_compute; intros Hin;
repeat (apply elem_of_cons in Hin as [Hin|Hin]; [done|]);
by apply elem_of_nil in Hin.

Section Response.
Local Abbreviation p := NewAnnotationParser.
Local Abbreviation ns := (non space).
Local Abbreviation status_group := (Seq (Grp 2 (Plus digit)) ws).
Local Abbreviation tail := (Seq (token 3) (opt_quoted 4)).
Implicit Types (k : string → string → caps → option (string * caps)).

Lemma space_not_digit c : space c = true → digit c = false.
Proof.
  intros Hs. destruct (digit c) eqn:Hd; [|done].
  apply digit_not_space in Hd. congruence.
Qed.

Lemma head_ns_not_space w : head_is ns w = true → head_is space w = false.
Proof. destruct w; simpl; [done|]. by intros ?%non_true. Qed.

Lemma tail_sound s cs k x :
  final k → run tail s cs k = Some x →
  head_is ns s = true ∧
  ∀ j, j ≠ 0 → j ≠ 3 → j ≠ 4 → snd x !! j = cs !! j.
Proof.
  intros Hk H. apply run_sound in H as (w & s' & cs' & -> & M & Hx).
  destruct (Hk w s' cs') as [full Hf]. rewrite Hf in Hx. injection Hx as <-.
  split.
  - inversion M as [| | |? ? w1 w2 ? cs1 ? M1 M2| | | | |]; subst.
    inversion M1 as [| | | | | | | |? ? ? ? cs1' M1']; subst.
    apply matches_plus in M1' as (_ & _ & Hh).
    rewrite append_assoc. by apply head_is_append.
  - intros j H0 H3 H4. simpl. rewrite list_lookup_insert_ne by done.
    apply (matches_frame _ _ _ _ j M).
    vm_compute. intros Hin.
    repeat (apply elem_of_cons in Hin as [Hin|Hin]; [done|]).
    by apply elem_of_nil in Hin.
Qed.

(** The schema token is the longest run of bytes that are no blanks. *)
Lemma tail_first s cs k :
  final k → head_is ns s = true → 3 < length cs →
  ∃ x, run tail s cs k = Some x ∧
    snd x !! 3 = Some (Some (take_while ns s)) ∧
    ∀ j, j ≠ 0 → j ≠ 3 → j ≠ 4 → snd x !! j = cs !! j.
Proof.
  intros Hk Hs Hlen.
  set (tw := take_while ns s).
  destruct (run_opt_total (Seq ws (quoted 4)) (drop_while ns s)
              (<[3 := Some tw]> cs)
              (λ w2 s2 cs2, k (tw +:+ w2) s2 cs2)) as [x Hx].
  { apply total_seq, final_total, Hk. }
  exists x. split.
  - rewrite run_seq. unfold token. rewrite run_grp.
    apply run_plus_first; [done|]. exact Hx.
  - apply run_sound in Hx as (w & s' & cs' & _ & M & Hx).
    destruct (Hk (tw +:+ w) s' cs') as [full Hf].
    rewrite Hf in Hx. injection Hx as <-. simpl. split.
    + rewrite list_lookup_insert_ne by done.
      rewrite (matches_frame _ _ _ _ 3 M) by not_in_groups.
      by apply list_lookup_insert_eq.
    + intros j H0 H3 H4. rewrite list_lookup_insert_ne by done.
      rewrite (matches_frame _ _ _ _ j M).
      * by rewrite list_lookup_insert_ne.
      * vm_compute. intros Hin.
        repeat (apply elem_of_cons in Hin as [Hin|Hin]; [done|]).
        by apply elem_of_nil in Hin.
Qed.

Lemma status_of_written w1 w2 s2 :
  all digit w1 = true → head_is digit w1 = true →
  all space w2 = true → head_is space w2 = true →
  head_is ns s2 = true →
  status_of (w1 +:+ w2 +:+ s2) = Some w1.
Proof.
  intros Ha1 Hh1 Ha2 Hh2 Hh3. unfold status_of.
  destruct (take_while_all digit w1 (w2 +:+ s2)) as [-> ->]; [done|..].
  { apply (head_is_excl space digit); [apply space_not_digit|].
    by apply head_is_append. }
  rewrite (head_is_append digit w1) by done.
  rewrite (head_is_append space w2) by done.
  destruct (take_while_all space w2 s2) as [_ ->];
    [done|by apply head_ns_not_space|].
  by rewrite Hh3.
Qed.

Lemma response_tail s cs k x :
  final k → 3 < length cs →
  run (Seq (Opt status_group) tail) s cs k = Some x →
  head_is space s = false ∧
  snd x !! 1 = cs !! 1 ∧
  snd x !! 2 = match status_of s with
               | Some d => Some (Some d)
               | None => cs !! 2
               end ∧
  snd x !! 3 = Some (Some (schema_of s)).
Proof.
  intros Hk Hlen H. rewrite run_seq in H.
  set (K := λ w1 s1 cs1, run tail s1 cs1 (λ w2 s2 cs2, k (w1 +:+ w2) s2 cs2)) in H.
  unfold schema_of. destruct (status_of s) as [d|] eqn:Est.
  - unfold status_of in Est.
    destruct (head_is digit s) eqn:H1; [|done].
    destruct (head_is space (drop_while digit s)) eqn:H2; [|done].
    destruct (head_is ns (drop_while space (drop_while digit s))) eqn:H3; [|done].
    simpl in Est. injection Est as <-.
    set (d := take_while digit s) in *.
    set (r := drop_while digit s) in *.
    destruct (tail_first (drop_while space r) (<[2 := Some d]> cs)
                (λ w2 s2 cs2, k ((d +:+ take_while space r) +:+ w2) s2 cs2))
      as (y & Hy & Hy3 & Hyj);
      [by apply final_seq|done|by rewrite length_insert|].
    assert (run (Opt status_group) s cs K = Some y) as HG.
    { apply run_opt_first. rewrite run_seq, run_grp.
      apply run_plus_first; [done|].
      apply run_plus_first; [done|]. exact Hy. }
    rewrite HG in H. injection H as <-.
    split; [by apply (head_is_excl digit space); [apply digit_not_space|]|].
    split; [rewrite Hyj by done; by rewrite list_lookup_insert_ne|].
    split; [|done].
    rewrite Hyj by done. apply list_lookup_insert_eq. lia.
  - assert (run status_group s cs K = None) as HG.
    { destruct (run status_group s cs K) as [y|] eqn:EG; [exfalso|done].
      apply run_seq_sound in EG as (w1 & s1 & cs1 & -> & M1 & EG).
      inversion M1 as [| | | | | | | |? ? ? ? cs1' M1']; subst.
      apply matches_plus in M1' as (-> & Ha1 & Hh1).
      apply run_sound in EG as (w2 & s2 & cs2 & -> & M2 & EG).
      apply matches_plus in M2 as (-> & Ha2 & Hh2).
      apply tail_sound in EG as [Hh3 _]; [|by apply final_seq].
      rewrite status_of_written in Est; done. }
    rewrite (run_opt_skip _ _ _ _ HG) in H. unfold K in H.
    pose proof (tail_sound _ _ _ _ (final_seq _ _ Hk) H) as [Hh Hj].
    destruct (tail_first s cs _ (final_seq _ EmptyString Hk) Hh Hlen)
      as (y & Hy & Hy3 & _).
    rewrite Hy in H. injection H as <-.
    split; [by apply head_ns_not_space|].
    split; [by apply Hj|]. split; [by apply Hj|done].
Qed.

Lemma response_body_eq kw sp body :
  kw ∈ ["ok"; "error"] →
  all space sp = true → head_is space sp = true →
  head_is space body = false →
  response_body ("!" +:+ kw +:+ sp +:+ body) = body.
Proof.
  intros Hkw Ha Hh Hb. unfold response_body.
  assert (drop_while ns ("!" +:+ kw +:+ sp +:+ body) = sp +:+ body) as ->.
  { assert (head_is ns (sp +:+ body) = false) as Hsp.
    { destruct sp as [|c sp]; [done|]. simpl in *. unfold non. by rewrite Hh. }
    repeat (apply elem_of_cons in Hkw as [->|Hkw]).
    - by destruct (take_while_all ns "!ok" (sp +:+ body)) as [_ ?].
    - by destruct (take_while_all ns "!error" (sp +:+ body)) as [_ ?].
    - by apply elem_of_nil in Hkw. }
  by destruct (take_while_all space sp body) as [_ ?].
Qed.

(** The submatches of the response grammar, read off the line. *)
Lemma responsePattern_groups line m :
  FindStringSubmatch (responsePattern p) line = Some m →
  ∃ kw tail, kw ∈ ["ok"; "error"] ∧ line = "!" +:+ kw +:+ tail ∧
    m !! 1 = Some kw ∧
    m !! 2 = Some (default EmptyString (explicit_status line)) ∧
    m !! 3 = Some (schema_token line).
Proof.
  unfold FindStringSubmatch. intros H.
  apply fmap_Some in H as ([w cs] & H & ->). simpl in H.
  unfold exec in H.
  apply run_seq_sound in H as (w1 & s1 & cs1 & -> & M1 & H).
  inversion M1; subst.
  apply run_seq_sound in H as (w2 & s2 & cs2 & -> & M2 & H).
  inversion M2 as [| | | | | | | |? ? ? ? cs2' M2']; subst.
  apply (matches_one_of ["ok"; "error"]) in M2' as [Hkw ->].
  apply run_seq_sound in H as (w3 & s3 & cs3 & -> & M3 & H).
  apply matches_plus in M3 as (-> & Ha3 & Hh3).
  apply response_tail in H as (Hsp & H1 & H2 & H3);
    [|by intros ???; eexists|rewrite length_insert, length_replicate; simpl; lia].
  exists w2, (w3 +:+ s3). split; [done|]. split; [done|].
  unfold explicit_status, schema_token.
  rewrite response_body_eq by done.
  unfold submatches. rewrite !list_lookup_fmap. simpl in *.
  rewrite H1, H2, H3. simpl. split; [done|]. split; [|done].
  by destruct (status_of s3).
Qed.

Lemma status_of_nonempty body d :
  status_of body = Some d → String.eqb d EmptyString = false.
Proof.
  unfold status_of. destruct (head_is digit body) eqn:H1; [|done].
  destruct (head_is space _); [|done]. destruct (head_is ns _); [|done].
  intros [= <-]. destruct body as [|c body]; [done|]. simpl in *.
  by rewrite H1.
Qed.

(** The attributes of a response annotation, read off the line. *)
Lemma parseResponsePattern_attrs line a :
  parseResponsePattern p line = Done (Some a) →
  ∃ kw tail, kw ∈ ["ok"; "error"] ∧ line = "!" +:+ kw +:+ tail ∧
    Type_ a = (if String.eqb kw "error" then AnnotationError else AnnotationOK) ∧
    Args a !!! "status" =
      match explicit_status line with
      | Some d => d
      | None => if String.eqb kw "error" then "500" else "200"
      end ∧
    Args a !!! "schema" = schema_token line.
Proof.
  unfold parseResponsePattern.
  destruct (FindStringSubmatch (responsePattern p) line) as [m|] eqn:E; [|done].
  destruct (responsePattern_groups _ _ E)
    as (kw & tail & Hkw & Hline & H1 & H2 & H3).
  match_shape E. simpl in H1, H2, H3.
  injection H1 as ->. injection H2 as ->. injection H3 as ->.
  simpl. intros [= <-]. exists kw, tail. split; [done|]. split; [done|].
  simpl.
  unfold explicit_status in *.
  destruct (status_of (response_body line)) as [d|] eqn:Est; simpl.
  - rewrite (status_of_nonempty _ _ Est), !andb_false_r. cbv iota.
    by rewrite (status_of_nonempty _ _ Est), !andb_false_r.
  - repeat (apply elem_of_cons in Hkw as [->|Hkw]); [done..|].
    by apply elem_of_nil in Hkw.
Qed.

Lemma response_tail_total s cs k :
  final k → head_is ns s = true → 3 < length cs →
  is_Some (run (Seq (Opt status_group) tail) s cs k).
Proof.
  intros Hk Hs Hlen. rewrite run_seq.
  match goal with |- is_Some (run (Opt ?r) s cs ?K) =>
    destruct (run r s cs K) as [y|] eqn:EG end.
  - exists y. by apply run_opt_first.
  - rewrite (run_opt_skip _ _ _ _ EG).
    destruct (tail_first s cs _ (final_seq _ EmptyString Hk) Hs Hlen)
      as (y & Hy & _). eauto.
Qed.

Lemma run_alt_l {R} r1 r2 s cs (k : string → string → caps → option R) x :
  run r1 s cs k = Some x → run (Alt r1 r2) s cs k = Some x.
Proof. simpl. by intros ->. Qed.

(** A keyword, blanks and a token are a response line. *)
Lemma responsePattern_matches kw sp body :
  kw ∈ ["ok"; "error"] →
  all space sp = true → head_is space sp = true →
  head_is ns body = true →
  is_Some (FindStringSubmatch (responsePattern p) ("!" +:+ kw +:+ sp +:+ body)).
Proof.
  intros Hkw Ha Hh Hb. unfold FindStringSubmatch. simpl anchored. cbv iota.
  apply fmap_is_Some. unfold exec.
  change (expr (responsePattern p)) with
    (Seq (Lit "!") (Seq (Grp 1 (Alt (Lit "ok") (Lit "error")))
       (Seq ws (Seq (Opt status_group) tail)))).
  rewrite run_seq, run_lit_append, run_seq, run_grp.
  pose proof (head_ns_not_space _ Hb) as Hb'.
  destruct (take_while_all space sp body Ha Hb') as [Htw Hdw].
  assert (∀ cs (k : string → string → caps → option (string * caps)),
    final k → 3 < length cs →
    is_Some (run (Seq ws (Seq (Opt status_group) tail)) (sp +:+ body) cs k))
    as Hrest.
  { intros cs k Hk Hlen. rewrite run_seq.
    match goal with |- is_Some (run ws _ _ ?K) =>
      destruct (response_tail_total body cs
                  (λ w2 s2 cs2, k (sp +:+ w2) s2 cs2)) as [y Hy];
        [by apply final_seq|done|done|]
    end.
    exists y. apply run_plus_first; [by apply head_is_append|].
    by rewrite Htw, Hdw. }
  repeat (apply elem_of_cons in Hkw as [->|Hkw]).
  - match goal with |- is_Some (run _ _ ?cs ?K) =>
      destruct (Hrest (<[1 := Some "ok"]> cs)
                  (λ w2 s2 cs2, Some ("!" +:+ "ok" +:+ w2,
                     <[0 := Some ("!" +:+ "ok" +:+ w2)]> cs2))) as [y Hy];
        [by intros ???; eexists
        |rewrite length_insert, length_replicate; simpl; lia|]
    end.
    exists y. apply run_alt_l. rewrite run_lit_append. exact Hy.
  - match goal with |- is_Some (run _ _ ?cs ?K) =>
      destruct (Hrest (<[1 := Some "error"]> cs)
                  (λ w2 s2 cs2, Some ("!" +:+ "error" +:+ w2,
                     <[0 := Some ("!" +:+ "error" +:+ w2)]> cs2))) as [y Hy];
        [by intros ???; eexists
        |rewrite length_insert, length_replicate; simpl; lia|]
    end.
    exists y.
    change (run (Alt (Lit "ok") (Lit "error")) ?s ?cs ?k)
      with (run (Lit "error") s cs k).
    rewrite run_lit_append. exact Hy.
  - by apply elem_of_nil in Hkw.
Qed.

Lemma digit_non_space c : digit c = true → ns c = true.
Proof. intros H. apply non_true. by apply digit_not_space. Qed.

(** A token of digits alone carries no status: it is the schema. *)
Lemma status_of_digits d :
  all digit d = true → status_of d = None ∧ schema_of d = d.
Proof.
  intros Hd.
  destruct (take_while_all digit d EmptyString Hd eq_refl) as [_ Hdrop].
  rewrite append_nil_r in Hdrop.
  assert (status_of d = None) as Hst.
  { unfold status_of. rewrite Hdrop. simpl. by rewrite andb_false_r. }
  split; [done|]. unfold schema_of. rewrite Hst.
  destruct (take_while_all ns d EmptyString) as [Htake _];
    [by apply (all_impl digit ns); [apply digit_non_space|]|done|].
  by rewrite append_nil_r in Htake.
Qed.

Lemma all_head (q : ascii → bool) w :
  all q w = true → w ≠ EmptyString → head_is q w = true.
Proof. destruct w; simpl; [done|]. by intros [? _]%andb_true_iff. Qed.

End Response.

(** ** Hashtags *)

Section Hashtags.
Local Abbreviation p := NewAnnotationParser.

Lemma exec_hashtag c s :
  exec (expr hashtagPattern) (String c s) =
    if chr "#" c && head_is word s
    then Some ("#" +:+ take_while word s,
               [Some ("#" +:+ take_while word s); Some (take_while word s)])
    else None.
Proof.
  unfold exec. change (expr hashtagPattern) with (Seq (Lit "#") (Grp 1 (Plus word))).
  rewrite run_seq, run_lit1. unfold chr.
  destruct (Ascii.eqb "#" c); [|done]. rewrite run_grp. simpl andb.
  destruct (head_is word s) eqn:Hs.
  - by apply run_plus_first.
  - match goal with |- ?r = None => destruct r as [y|] eqn:E; [|done] end.
    apply run_plus_head in E. congruence.
Qed.

Lemma length_take_while_cons (q : ascii → bool) c s n :
  (S n ≤ String.length (take_while q (String c s)))%nat →
  q c = true ∧ (n ≤ String.length (take_while q s))%nat.
Proof. simpl. destruct (q c); simpl; [split; [done|lia]|lia]. Qed.

Lemma hash_words_cons c s :
  hash_words (String c s) =
    if chr "#" c && head_is word s
    then take_while word s :: hash_words s
    else hash_words s.
Proof. done. Qed.

Lemma find_all_cons r c s skip :
  find_all r (String c s) skip =
    match skip with
    | S n => find_all r s n
    | O =>
        match exec r (String c s) with
        | Some (w, cs) => submatches cs :: find_all r s (String.length w - 1)
        | None => find_all r s 0
        end
    end.
Proof. done. Qed.

(** The matches of the hashtag pattern are the hashtags. *)
Lemma find_all_hash_words s : ∀ skip,
  (skip ≤ String.length (take_while word s))%nat →
  map (λ m, m !!! 1) (find_all (expr hashtagPattern) s skip) = hash_words s.
Proof.
  induction s as [|c s IH]; intros skip Hskip; [done|].
  rewrite find_all_cons, hash_words_cons. destruct skip as [|n].
  - rewrite exec_hashtag.
    destruct (chr "#" c && head_is word s); [|by apply IH; lia].
    rewrite map_cons. f_equal. apply IH.
    rewrite length_append. simpl. lia.
  - apply length_take_while_cons in Hskip as [Hc Hn].
    unfold chr. rewrite (word_not_hash _ Hc). by apply IH.
Qed.

(** [extractTags] never panics and answers the hashtags of the line. *)
Lemma extractTags_hash_words line : extractTags line = Done (hash_words line).
Proof.
  rewrite extractTags_spec. unfold FindAllStringSubmatch.
  rewrite find_all_hash_words; [done|lia].
Qed.

Lemma HasPrefix1 a c w :
  HasPrefix (String c w) (String a EmptyString) = Ascii.eqb a c.
Proof.
  unfold HasPrefix. simpl. destruct (ascii_dec a c) as [->|Hne].
  - rewrite Ascii.eqb_refl. by destruct w.
  - symmetry. by apply Ascii.eqb_neq.
Qed.

Lemma hash_words_skip w s :
  Contains w "#" = false → hash_words (w +:+ s) = hash_words s.
Proof.
  induction w as [|c w IH]; [done|].
  change (Contains (String c w) "#")
    with (HasPrefix (String c w) "#" || Contains w "#").
  rewrite HasPrefix1. intros [Hc Hw]%orb_false_iff.
  rewrite append_cons, hash_words_cons. unfold chr. rewrite Hc.
  by apply IH.
Qed.

Lemma drop_length_append w s : drop (String.length w) (w +:+ s) = s.
Proof. induction w as [|c w IH]; [by destruct s|]. by rewrite append_cons. Qed.

Lemma parseRoutePattern_tags line a :
  parseRoutePattern p line = Done (Some a) →
  Tags a = hash_words line ∧
  (Contains (route_prefix p line) "#" = false →
   Tags a = tags_after_summary p line).
Proof.
  unfold parseRoutePattern, tags_after_summary, route_prefix.
  destruct (FindStringSubmatch (routePattern p) line) as [m|] eqn:E; [|done].
  assert (∃ rest, line = hd EmptyString m +:+ rest) as [rest Hline].
  { unfold FindStringSubmatch in E.
    apply fmap_Some in E as ([w cs] & E & ->). simpl in E.
    apply exec_sound in E as (s' & cs' & -> & M & ->).
    exists s'. pose proof (matches_length _ _ _ _ M) as Hl.
    rewrite length_replicate in Hl. by destruct cs'. }
  match_shape E. rewrite extractTags_hash_words. simpl.
  intros [= <-]. simpl. split; [done|]. intros Hno.
  simpl in Hline. rewrite Hline at 2.
  rewrite drop_length_append. rewrite Hline at 1. by apply hash_words_skip.
Qed.

End Hashtags.

(** ** Default values *)

Section Defaults.
Local Abbreviation p := NewAnnotationParser.

(** What the default pattern captures holds no blank. *)
Lemma defaultPattern_token line m :
  FindStringSubmatch defaultPattern line = Some m →
  ∃ v, m !! 1 = Some v ∧ all (non space) v = true.
Proof.
  unfold FindStringSubmatch. intros H.
  apply fmap_Some in H as ([w cs] & H & ->). simpl in H.
  apply search_sound in H as (pre & s' & cs' & _ & M & ->).
  inversion M as [| | |? ? w1 w2 ? cs1 ? M1 M2| | | | |]; subst.
  inversion M1; subst.
  inversion M2 as [| | | | | | | |? ? ? ? cs2 M2']; subst.
  apply matches_plus in M2' as (-> & Ha & _).
  exists w2. by split.
Qed.

Lemma parseParamPattern_default line a :
  parseParamPattern p line = Done (Some a) →
  Contains (Args a !!! "default") " " = false.
Proof.
  unfold parseParamPattern.
  destruct (FindStringSubmatch (paramPattern p) line) as [m|] eqn:E; [|done].
  match_shape E. simpl.
  destruct (FindStringSubmatch defaultPattern line) as [dm|] eqn:Ed.
  - destruct (defaultPattern_token _ _ Ed) as (v & Hv & Hall).
    match_shape Ed. simpl in Hv. injection Hv as ->. simpl.
    intros [= <-]. simpl.
    destruct (Contains line " required"); simpl;
      apply all_no_blank, all_Trim, Hall.
  - simpl. intros [= <-]. simpl. by destruct (Contains line " required").
Qed.

End Defaults.

(** ** The assembler *)

Section AssemblerFacts.

Lemma declared_anchor blk op :
  declared blk = Some op → op_anchor op = anchor blk.
Proof.
  unfold declared. destruct (filter _ (annotations blk)); [done|].
  by intros [= <-].
Qed.

(** A block that declares an operation and does not mix roles is an
    operation block. *)
Lemma declared_role blk op :
  mixed_roles blk = false → declared blk = Some op →
  block_role blk = Some RoleOperation.
Proof.
  unfold mixed_roles, declared, block_role.
  destruct (filter _ (annotations blk)) as [|a l] eqn:E; [done|].
  intros Hm _.
  assert (a ∈ annotations blk ∧ Type_ a = AnnotationRoute) as [Hin Hty].
  { apply and_comm, (list_elem_of_filter (λ a, Type_ a = AnnotationRoute)).
    rewrite E. left. }
  destruct (annotations blk) as [|a0 others]; [by apply elem_of_nil in Hin|].
  change ((λ a, role_of (Type_ a)) <$> head (a0 :: others))
    with (Some (role_of (Type_ a0))) in *.
  apply negb_false_iff in Hm. rewrite forallb_forall in Hm.
  apply list_elem_of_In, Hm, bool_decide_eq_true in Hin.
  rewrite Hty in Hin. simpl in Hin. by rewrite <- Hin.
Qed.

Lemma assemble_operation_block b blk op :
  mixed_roles blk = false → declared blk = Some op →
  assemble_block b blk = add_operation b op.
Proof.
  intros Hm Hd. unfold assemble_block. rewrite Hm, Hd.
  by rewrite (declared_role _ _ Hm Hd).
Qed.

(** The three outcomes of [add_operation]. *)
Lemma add_operation_cases b op :
  (∃ first,
     lookup_operation b (op_path op) (op_method op) = Some first ∧
     add_operation b op =
       report b (mkDiagnostic SeverityError "duplicate path and method"
                   [op_anchor first; op_anchor op])) ∨
  (lookup_operation b (op_path op) (op_method op) = None ∧
   op_operationId op ∈ operationIds b ∧
   add_operation b op =
     report b (mkDiagnostic SeverityError "duplicate operationId"
                 [op_anchor op])) ∨
  (lookup_operation b (op_path op) (op_method op) = None ∧
   (op_operationId op ∉ operationIds b) ∧
   add_operation b op =
     mkBuilder
       (<[op_path op :=
            <[op_method op := op]> (default ∅ (paths b !! op_path op))]>
          (paths b))
       ({[op_operationId op]} ∪ operationIds b)
       (diagnostics b)).
Proof.
  unfold add_operation.
  destruct (lookup_operation b (op_path op) (op_method op)) as [first|];
    [left; by exists first|right].
  case_bool_decide; [by left|by right].
Qed.

Lemma lookup_stored (ps : gmap string (gmap string Operation)) ids ds op p m :
  lookup_operation
    (mkBuilder
       (<[op_path op := <[op_method op := op]> (default ∅ (ps !! op_path op))]>
          ps) ids ds) p m =
    if decide (p = op_path op ∧ m = op_method op) then Some op
    else lookup_operation (mkBuilder ps ids ds) p m.
Proof.
  unfold lookup_operation. simpl.
  destruct (decide (p = op_path op)) as [->|Hp].
  - rewrite lookup_insert_eq. simpl.
    destruct (decide (m = op_method op)) as [->|Hm].
    + rewrite lookup_insert_eq. by rewrite decide_True.
    + rewrite lookup_insert_ne by done. rewrite decide_False by tauto.
      by destruct (ps !! op_path op).
  - rewrite lookup_insert_ne by done. by rewrite decide_False by tauto.
Qed.

(** One step appends diagnostics and looks at the document only. *)
Lemma assemble_block_frame b blk D :
  ∃ ds,
    diagnostics (assemble_block b blk) = diagnostics b ++ ds ∧
    assemble_block (mkBuilder (paths b) (operationIds b) D) blk =
      mkBuilder (paths (assemble_block b blk))
        (operationIds (assemble_block b blk)) (D ++ ds).
Proof.
  unfold assemble_block. destruct (mixed_roles blk); [by eexists [_]|].
  assert (∃ ds, diagnostics b = diagnostics b ++ ds ∧
            mkBuilder (paths b) (operationIds b) D =
              mkBuilder (paths b) (operationIds b) (D ++ ds)) as Hsame
    by (exists []; by rewrite !app_nil_r).
  destruct (block_role blk) as [[]|]; try done.
  destruct (declared blk) as [op|]; [|done].
  unfold add_operation, lookup_operation. simpl.
  destruct (paths b !! op_path op ≫= λ item, item !! op_method op);
    [by eexists [_]|].
  case_bool_decide; [by eexists [_]|]. simpl.
  exists []. by rewrite !app_nil_r.
Qed.

Lemma foldl_frame rest : ∀ b D,
  ∃ ds,
    diagnostics (foldl assemble_block b rest) = diagnostics b ++ ds ∧
    foldl assemble_block (mkBuilder (paths b) (operationIds b) D) rest =
      mkBuilder (paths (foldl assemble_block b rest))
        (operationIds (foldl assemble_block b rest)) (D ++ ds).
Proof.
  induction rest as [|blk rest IH]; intros b D; simpl.
  - exists []. rewrite !app_nil_r. done.
  - destruct (assemble_block_frame b blk D) as (ds1 & Hd1 & ->).
    destruct (IH (assemble_block b blk) (D ++ ds1)) as (ds2 & Hd2 & ->).
    exists (ds1 ++ ds2). by rewrite Hd2, Hd1, !app_assoc.
Qed.

(** What a step stores, it stores under the path and method of the
    operation the block declares; what is stored stays. *)
Lemma lookup_origin b blk p m o :
  lookup_operation (assemble_block b blk) p m = Some o →
  lookup_operation b p m = Some o ∨
  (declared blk = Some o ∧ op_path o = p ∧ op_method o = m).
Proof.
  unfold assemble_block. destruct (mixed_roles blk); [by left|].
  destruct (block_role blk) as [[]|]; try (by left).
  destruct (declared blk) as [op|]; [|by left].
  destruct (add_operation_cases b op)
    as [(first & _ & ->)|[(_ & _ & ->)|(_ & _ & ->)]]; try (by left).
  rewrite lookup_stored. destruct b as [ps ids ds]. simpl.
  destruct (decide (p = op_path op ∧ m = op_method op)) as [[-> ->]|];
    [|by left].
  intros [= <-]. by right.
Qed.

Lemma lookup_stable b blk p m o :
  lookup_operation b p m = Some o →
  lookup_operation (assemble_block b blk) p m = Some o.
Proof.
  intros H. unfold assemble_block. destruct (mixed_roles blk); [done|].
  destruct (block_role blk) as [[]|]; try done.
  destruct (declared blk) as [op|]; [|done].
  destruct (add_operation_cases b op)
    as [(first & _ & ->)|[(_ & _ & ->)|(Hnone & _ & ->)]]; try done.
  rewrite lookup_stored. destruct b as [ps ids ds]. simpl in *.
  destruct (decide (p = op_path op ∧ m = op_method op)) as [[-> ->]|];
    [congruence|done].
Qed.

Lemma foldl_lookup_stable blocks : ∀ b p m o,
  lookup_operation b p m = Some o →
  lookup_operation (foldl assemble_block b blocks) p m = Some o.
Proof.
  induction blocks as [|blk blocks IH]; intros b p m o H; simpl; [done|].
  by apply IH, lookup_stable.
Qed.

Lemma ids_origin b blk i :
  i ∈ operationIds (assemble_block b blk) →
  i ∈ operationIds b ∨ ∃ o, declared blk = Some o ∧ op_operationId o = i.
Proof.
  unfold assemble_block. destruct (mixed_roles blk); [by left|].
  destruct (block_role blk) as [[]|]; try (by left).
  destruct (declared blk) as [op|]; [|by left].
  destruct (add_operation_cases b op)
    as [(first & _ & ->)|[(_ & _ & ->)|(_ & _ & ->)]]; try (by left).
  simpl. intros [->%elem_of_singleton|?]%elem_of_union; [|by left].
  right. by exists op.
Qed.

(** Every operation of a document built by [Assemble] sits under its own
    path and method. *)
Lemma assemble_block_keyed b blk :
  (∀ p m o, lookup_operation b p m = Some o → op_path o = p ∧ op_method o = m) →
  ∀ p m o, lookup_operation (assemble_block b blk) p m = Some o →
    op_path o = p ∧ op_method o = m.
Proof.
  intros Hb p m o H.
  destruct (lookup_origin _ _ _ _ _ H) as [H0|(_ & ? & ?)]; [by apply Hb|done].
Qed.

Lemma foldl_keyed blocks : ∀ b,
  (∀ p m o, lookup_operation b p m = Some o → op_path o = p ∧ op_method o = m) →
  ∀ p m o, lookup_operation (foldl assemble_block b blocks) p m = Some o →
    op_path o = p ∧ op_method o = m.
Proof.
  induction blocks as [|blk blocks IH]; intros b Hb; simpl; [done|].
  by apply IH, assemble_block_keyed.
Qed.

Lemma Assemble_keyed blocks p m o :
  lookup_operation (Assemble blocks) p m = Some o →
  op_path o = p ∧ op_method o = m.
Proof. apply foldl_keyed. intros ??? H. by vm_compute in H. Qed.

Lemma elem_of_operations b o :
  o ∈ operations b ↔ ∃ p m, lookup_operation b p m = Some o.
Proof.
  unfold operations, lookup_operation. rewrite list_elem_of_bind. split.
  - intros ([p item] & Ho & Hitem). apply elem_of_map_to_list in Hitem.
    apply list_elem_of_fmap in Ho as ([m o'] & -> & Ho).
    apply elem_of_map_to_list in Ho. exists p, m. by rewrite Hitem.
  - intros (p & m & H). apply bind_Some in H as (item & Hitem & Ho).
    exists (p, item). split; [|by apply elem_of_map_to_list].
    apply list_elem_of_fmap. exists (m, o).
    split; [done|by apply elem_of_map_to_list].
Qed.

Lemma NoDup_operations b :
  (∀ p m o, lookup_operation b p m = Some o → op_path o = p ∧ op_method o = m) →
  NoDup (operations b).
Proof.
  intros Hb. unfold operations. apply NoDup_bind; [..|apply NoDup_map_to_list].
  - intros [p1 i1] [p2 i2] o H1 H2 Ho1 Ho2.
    apply elem_of_map_to_list in H1, H2.
    apply list_elem_of_fmap in Ho1 as ([m1 o1] & -> & Ho1).
    apply list_elem_of_fmap in Ho2 as ([m2 o2] & Heq & Ho2).
    simpl in Heq. subst o2. apply elem_of_map_to_list in Ho1, Ho2.
    destruct (Hb p1 m1 o1) as [Hp1 _];
      [unfold lookup_operation; by rewrite H1|].
    destruct (Hb p2 m2 o1) as [Hp2 _];
      [unfold lookup_operation; by rewrite H2|].
    assert (p1 = p2) as -> by congruence. congruence.
  - intros [p item] Hitem. apply elem_of_map_to_list in Hitem.
    apply NoDup_fmap_2_strong; [|apply NoDup_map_to_list].
    intros [m1 o1] [m2 o2] H1 H2 Heq. simpl in Heq. subst o2.
    apply elem_of_map_to_list in H1, H2.
    destruct (Hb p m1 o1) as [_ Hm1];
      [unfold lookup_operation; by rewrite Hitem|].
    destruct (Hb p m2 o1) as [_ Hm2];
      [unfold lookup_operation; by rewrite Hitem|].
    congruence.
Qed.

Lemma filter_none {A} (P : A → Prop) `{∀ x, Decision (P x)} (l : list A) :
  (∀ y, y ∈ l → ¬ P y) → filter P l = [].
Proof.
  induction l as [|a l IH]; intros Hl; [done|].
  rewrite filter_cons_False by (apply Hl; left).
  apply IH. intros y Hy. apply Hl. by right.
Qed.

Lemma filter_only {A} (P : A → Prop) `{∀ x, Decision (P x)} (l : list A) x :
  NoDup l → x ∈ l → P x → (∀ y, y ∈ l → P y → y = x) → filter P l = [x].
Proof.
  induction l as [|a l IH]; intros Hnd Hx HP Hl; [by apply elem_of_nil in Hx|].
  apply NoDup_cons in Hnd as [Ha Hnd].
  destruct (decide (P a)) as [HPa|HPa].
  - assert (a = x) as -> by (apply Hl; [left|done]).
    rewrite filter_cons_True by done. f_equal. apply filter_none.
    intros y Hy HPy. apply Ha. rewrite <- (Hl y); [done|by right|done].
  - rewrite filter_cons_False by done.
    apply elem_of_cons in Hx as [->|Hx]; [done|].
    apply IH; try done. intros y Hy. apply Hl. by right.
Qed.

(** Blocks that declare neither a path and method nor an operationId
    leave them free. *)
Lemma foldl_undeclared blocks p m i : ∀ b,
  lookup_operation b p m = None → i ∉ operationIds b →
  Forall (λ blk, ∀ op, declared blk = Some op →
            ¬ (op_path op = p ∧ op_method op = m) ∧ op_operationId op ≠ i)
    blocks →
  lookup_operation (foldl assemble_block b blocks) p m = None ∧
  i ∉ operationIds (foldl assemble_block b blocks).
Proof.
  induction blocks as [|blk blocks IH]; intros b Hnone Hid Hall; simpl; [done|].
  inversion Hall as [|? ? Hblk Hrest]; subst. apply IH; [| |done].
  - destruct (lookup_operation (assemble_block b blk) p m) as [o|] eqn:E;
      [|done].
    apply lookup_origin in E as [E|(Hd & Hp & Hm)]; [congruence|].
    destruct (Hblk o Hd) as [Hno _]. by destruct Hno.
  - intros [?|(o & Hd & Ho)]%ids_origin; [done|].
    by destruct (Hblk o Hd) as [_ Hno].
Qed.

End AssemblerFacts.

(** ** The tests of the repository

    The table of [TestAnnotationParser_Parse]
    ([internal/parser/annotations_test.go]), run on the embedding. *)

Section RepositoryTests.
Local Abbreviation p := NewAnnotationParser.

Example test_parse_api :
  Parse p "!api 3.0.3" =
  Done
    [mkAnnotation AnnotationAPI
       "!api 3.0.3"
       (args [("version", "3.0.3")])
       []].
Proof. by vm_compute. Qed.

Example test_parse_api_v :
  Parse p "!api v3.1.0" =
  Done
    [mkAnnotation AnnotationAPI
       "!api v3.1.0"
       (args [("version", "3.1.0")])
       []].
Proof. by vm_compute. Qed.

Example test_parse_info :
  Parse p ("!info " +:+ q +:+ "My API" +:+ q +:+ " v1.0.0 " +:+ q +:+ "This is a sample API" +:+ q) =
  Done
    [mkAnnotation AnnotationInfo
       ("!info " +:+ q +:+ "My API" +:+ q +:+ " v1.0.0 " +:+ q +:+ "This is a sample API" +:+ q)
       (args [("title", "My API"); ("version", "1.0.0"); ("description", "This is a sample API")])
       []].
Proof. by vm_compute. Qed.

Example test_parse_info_no_description :
  Parse p ("!info " +:+ q +:+ "My API" +:+ q +:+ " 1.0.0") =
  Done
    [mkAnnotation AnnotationInfo
       ("!info " +:+ q +:+ "My API" +:+ q +:+ " 1.0.0")
       (args [("title", "My API"); ("version", "1.0.0"); ("description", EmptyString)])
       []].
Proof. by vm_compute. Qed.

Example test_parse_contact :
  Parse p ("!contact " +:+ q +:+ "API Support" +:+ q +:+ " <support@example.com> (https://example.com)") =
  Done
    [mkAnnotation AnnotationContact
       ("!contact " +:+ q +:+ "API Support" +:+ q +:+ " <support@example.com> (https://example.com)")
       (args [("name", "API Support"); ("email", "support@example.com"); ("url", "https://example.com")])
       []].
Proof. by vm_compute. Qed.

Example test_parse_contact_no_url :
  Parse p ("!contact " +:+ q +:+ "API Support" +:+ q +:+ " <support@example.com>") =
  Done
    [mkAnnotation AnnotationContact
       ("!contact " +:+ q +:+ "API Support" +:+ q +:+ " <support@example.com>")
       (args [("name", "API Support"); ("email", "support@example.com"); ("url", EmptyString)])
       []].
Proof. by vm_compute. Qed.

Example test_parse_license :
  Parse p "!license MIT https://opensource.org/licenses/MIT" =
  Done
    [mkAnnotation AnnotationLicense
       "!license MIT https://opensource.org/licenses/MIT"
       (args [("name", "MIT"); ("url", "https://opensource.org/licenses/MIT")])
       []].
Proof. by vm_compute. Qed.

Example test_parse_server :
  Parse p ("!server https://api.example.com/v1 " +:+ q +:+ "Production server" +:+ q) =
  Done
    [mkAnnotation AnnotationServer
       ("!server https://api.example.com/v1 " +:+ q +:+ "Production server" +:+ q)
       (args [("url", "https://api.example.com/v1"); ("description", "Production server")])
       []].
Proof. by vm_compute. Qed.

Example test_parse_tag :
  Parse p ("!tag users " +:+ q +:+ "Operations about users" +:+ q) =
  Done
    [mkAnnotation AnnotationTag
       ("!tag users " +:+ q +:+ "Operations about users" +:+ q)
       (args [("name", "users"); ("description", "Operations about users")])
       []].
Proof. by vm_compute. Qed.

Example test_parse_get_route :
  Parse p ("!GET /users -> getUsers " +:+ q +:+ "Retrieve users" +:+ q +:+ " #users #admin") =
  Done
    [mkAnnotation AnnotationRoute
       ("!GET /users -> getUsers " +:+ q +:+ "Retrieve users" +:+ q +:+ " #users #admin")
       (args [("method", "GET"); ("path", "/users"); ("operationId", "getUsers"); ("summary", "Retrieve users")])
       ["users"; "admin"]].
Proof. by vm_compute. Qed.

Example test_parse_post_route :
  Parse p ("!POST /users -> createUser " +:+ q +:+ "Create a user" +:+ q +:+ " #users") =
  Done
    [mkAnnotation AnnotationRoute
       ("!POST /users -> createUser " +:+ q +:+ "Create a user" +:+ q +:+ " #users")
       (args [("method", "POST"); ("path", "/users"); ("operationId", "createUser"); ("summary", "Create a user")])
       ["users"]].
Proof. by vm_compute. Qed.

Example test_parse_query :
  Parse p ("!query limit:integer " +:+ q +:+ "The number of results" +:+ q +:+ " default=10 required") =
  Done
    [mkAnnotation AnnotationQuery
       ("!query limit:integer " +:+ q +:+ "The number of results" +:+ q +:+ " default=10 required")
       (args [("in", "query"); ("name", "limit"); ("type", "integer"); ("description", "The number of results"); ("required", "true"); ("default", "10")])
       []].
Proof. by vm_compute. Qed.

Example test_parse_path :
  Parse p ("!path id:integer " +:+ q +:+ "The user ID" +:+ q +:+ " required") =
  Done
    [mkAnnotation AnnotationPath
       ("!path id:integer " +:+ q +:+ "The user ID" +:+ q +:+ " required")
       (args [("in", "path"); ("name", "id"); ("type", "integer"); ("description", "The user ID"); ("required", "true")])
       []].
Proof. by vm_compute. Qed.

Example test_parse_header :
  Parse p ("!header X-Token:string " +:+ q +:+ "Authorization token" +:+ q) =
  Done
    [mkAnnotation AnnotationHeader
       ("!header X-Token:string " +:+ q +:+ "Authorization token" +:+ q)
       (args [("in", "header"); ("name", "X-Token"); ("type", "string"); ("description", "Authorization token")])
       []].
Proof. by vm_compute. Qed.

Example test_parse_body :
  Parse p ("!body CreateUserRequest " +:+ q +:+ "User data" +:+ q +:+ " required") =
  Done
    [mkAnnotation AnnotationBody
       ("!body CreateUserRequest " +:+ q +:+ "User data" +:+ q +:+ " required")
       (args [("schema", "CreateUserRequest"); ("description", "User data"); ("required", "true")])
       []].
Proof. by vm_compute. Qed.

Example test_parse_ok_default_status :
  Parse p ("!ok User " +:+ q +:+ "Successful response" +:+ q) =
  Done
    [mkAnnotation AnnotationOK
       ("!ok User " +:+ q +:+ "Successful response" +:+ q)
       (args [("status", "200"); ("schema", "User"); ("description", "Successful response")])
       []].
Proof. by vm_compute. Qed.

Example test_parse_ok_custom_status :
  Parse p ("!ok 201 User " +:+ q +:+ "User created" +:+ q) =
  Done
    [mkAnnotation AnnotationOK
       ("!ok 201 User " +:+ q +:+ "User created" +:+ q)
       (args [("status", "201"); ("schema", "User"); ("description", "User created")])
       []].
Proof. by vm_compute. Qed.

Example test_parse_error :
  Parse p ("!error 404 ErrorResponse " +:+ q +:+ "Not found" +:+ q) =
  Done
    [mkAnnotation AnnotationError
       ("!error 404 ErrorResponse " +:+ q +:+ "Not found" +:+ q)
       (args [("status", "404"); ("schema", "ErrorResponse"); ("description", "Not found")])
       []].
Proof. by vm_compute. Qed.

Example test_parse_error_default_status :
  Parse p ("!error ErrorResponse " +:+ q +:+ "Server error" +:+ q) =
  Done
    [mkAnnotation AnnotationError
       ("!error ErrorResponse " +:+ q +:+ "Server error" +:+ q)
       (args [("status", "500"); ("schema", "ErrorResponse"); ("description", "Server error")])
       []].
Proof. by vm_compute. Qed.

Example test_parse_model :
  Parse p ("!model " +:+ q +:+ "A user entity" +:+ q) =
  Done
    [mkAnnotation AnnotationModel
       ("!model " +:+ q +:+ "A user entity" +:+ q)
       (args [("description", "A user entity")])
       []].
Proof. by vm_compute. Qed.

Example test_parse_model_no_description :
  Parse p "!model" =
  Done
    [mkAnnotation AnnotationModel
       "!model"
       (args [("description", EmptyString)])
       []].
Proof. by vm_compute. Qed.

Example test_parse_field :
  Parse p ("!field id:integer " +:+ q +:+ "User ID" +:+ q +:+ " required example=123") =
  Done
    [mkAnnotation AnnotationField
       ("!field id:integer " +:+ q +:+ "User ID" +:+ q +:+ " required example=123")
       (args [("name", "id"); ("type", "integer"); ("description", "User ID"); ("required", "true"); ("example", "123")])
       []].
Proof. by vm_compute. Qed.

Example test_parse_field_quoted_example :
  Parse p ("!field name:string " +:+ q +:+ "User name" +:+ q +:+ " example=" +:+ q +:+ "John Doe" +:+ q) =
  Done
    [mkAnnotation AnnotationField
       ("!field name:string " +:+ q +:+ "User name" +:+ q +:+ " example=" +:+ q +:+ "John Doe" +:+ q)
       (args [("name", "name"); ("type", "string"); ("description", "User name"); ("example", "John Doe")])
       []].
Proof. by vm_compute. Qed.

Example test_parse_multiple :
  Parse p ("!GET /users -> getUsers " +:+ q +:+ "Get users" +:+ q +:+ " #users" +:+ newline +:+ "!query limit:integer " +:+ q +:+ "Limit results" +:+ q +:+ newline +:+ "!ok User[] " +:+ q +:+ "Success" +:+ q) =
  Done
    [mkAnnotation AnnotationRoute
       ("!GET /users -> getUsers " +:+ q +:+ "Get users" +:+ q +:+ " #users")
       (args [("method", "GET"); ("path", "/users"); ("operationId", "getUsers"); ("summary", "Get users")])
       ["users"];
     mkAnnotation AnnotationQuery
       ("!query limit:integer " +:+ q +:+ "Limit results" +:+ q)
       (args [("in", "query"); ("name", "limit"); ("type", "integer"); ("description", "Limit results")])
       [];
     mkAnnotation AnnotationOK
       ("!ok User[] " +:+ q +:+ "Success" +:+ q)
       (args [("status", "200"); ("schema", "User[]"); ("description", "Success")])
       []].
Proof. by vm_compute. Qed.

Example test_parse_no_annotations :
  Parse p "This is just a comment without annotations" =
  Done
    [].
Proof. by vm_compute. Qed.

Example test_parse_mixed_content :
  Parse p ("Some description" +:+ newline +:+ "!api 3.0.3" +:+ newline +:+ "More text") =
  Done
    [mkAnnotation AnnotationAPI
       "!api 3.0.3"
       (args [("version", "3.0.3")])
       []].
Proof. by vm_compute. Qed.

End RepositoryTests.

(** * The claims *)

Section Claims.
Local Abbreviation p := NewAnnotationParser.

(** C1. [Parse] never fails: on every text it answers a list of
    annotations, one per line, in line order, that a grammar of the lexer
    matches once the line is trimmed, each carrying its line; a line no
    grammar matches contributes nothing, and a line that carries no
    directive keyword is matched by no grammar. *)
Theorem Parse_never_fails (text : string) :
  ∃ outcomes : list (option Annotation),
    Parse p text = Done (omap id outcomes) ∧
    Forall2 (line_outcome p) (Split text nl) outcomes ∧
    ∀ line, carries_keyword line = false → recognized p line = false.
Proof.
  destruct (parse_lines_spec (Split text nl) []) as (outs & H & Hout & _).
  exists outs. split; [exact H|]. split; [done|].
  intros line Hk. destruct (recognized p line) eqn:E; [|done].
  apply recognized_keyword in E. congruence.
Qed.

(** C2. A response line starts with [!ok] or [!error]; the status of its
    annotation is the status code written out on the line when there is
    one, else 200 for [!ok] and 500 for [!error]. *)
Theorem response_status_default (line : string) (a : Annotation) :
  parseLine p line = Done (Some a) →
  Type_ a ∈ [AnnotationOK; AnnotationError] →
  ∃ kw tail, line = "!" +:+ kw +:+ tail ∧
    ((kw = "ok" ∧ Type_ a = AnnotationOK) ∨
     (kw = "error" ∧ Type_ a = AnnotationError)) ∧
    response_Status (GetResponse a) =
      match explicit_status line with
      | Some d => d
      | None => if String.eqb kw "ok" then "200" else "500"
      end.
Proof.
  intros H Hty. pose proof (parseLine_stage _ _ H) as Hs.
  assert (parseResponsePattern p line = Done (Some a)) as Hr.
  { repeat (apply elem_of_cons in Hty as [Hty|Hty]);
      [by rewrite Hty in Hs..|by apply elem_of_nil in Hty]. }
  destruct (parseResponsePattern_attrs _ _ Hr)
    as (kw & tail & Hkw & Hline & Ht & Hst & _).
  exists kw, tail. split; [done|].
  unfold GetResponse. simpl. rewrite Hst.
  repeat (apply elem_of_cons in Hkw as [->|Hkw]);
    [| |by apply elem_of_nil in Hkw]; simpl in Ht; auto.
Qed.

Lemma response_status_default_witness :
  ∃ kw tail, ok_line = "!" +:+ kw +:+ tail ∧
    ((kw = "ok" ∧ Type_ ok_annotation = AnnotationOK) ∨
     (kw = "error" ∧ Type_ ok_annotation = AnnotationError)) ∧
    response_Status (GetResponse ok_annotation) =
      match explicit_status ok_line with
      | Some d => d
      | None => if String.eqb kw "ok" then "200" else "500"
      end.
Proof.
  apply (response_status_default ok_line ok_annotation).
  - vm_compute. reflexivity.
  - apply list_elem_of_here.
Defined.

(** C3. The Required attribute of a parameter annotation (query, path,
    header), of a body annotation and of a field annotation is true
    exactly when the line holds the substring [ required]. *)
Theorem required_iff_substring (line : string) (a : Annotation) :
  parseLine p line = Done (Some a) →
  (Type_ a ∈ [AnnotationQuery; AnnotationPath; AnnotationHeader] →
   (param_Required (GetParam a) = true ↔
    ∃ pre post, line = pre +:+ " required" +:+ post)) ∧
  (Type_ a = AnnotationBody →
   (body_Required (GetBody a) = true ↔
    ∃ pre post, line = pre +:+ " required" +:+ post)) ∧
  (Type_ a = AnnotationField →
   (field_Required (GetField a) = true ↔
    ∃ pre post, line = pre +:+ " required" +:+ post)).
Proof.
  intros H. pose proof (parseLine_stage _ _ H) as Hs.
  split; [|split]; intros Hty.
  - apply required_flag, parseParamPattern_required.
    repeat (apply elem_of_cons in Hty as [Hty|Hty]);
      [by rewrite Hty in Hs..|by apply elem_of_nil in Hty].
  - apply required_flag, parseBodyPattern_required. by rewrite Hty in Hs.
  - apply required_flag, parseFieldPattern_required. by rewrite Hty in Hs.
Qed.

Lemma required_iff_substring_witness :
  param_Required (GetParam path_annotation) = true ↔
  ∃ pre post, path_line = pre +:+ " required" +:+ post.
Proof.
  refine (proj1 (required_iff_substring path_line path_annotation _) _).
  - vm_compute. reflexivity.
  - apply list_elem_of_further, list_elem_of_here.
Defined.

(** C4. The default stored for a parameter never holds a blank: on a line
    whose default is written in quotes with a blank inside, the value
    stored is cut at the blank, whereas the example of a field line written
    the same way is stored whole. *)
Theorem quoted_default_truncated :
  (∀ line a, parseLine p line = Done (Some a) →
     Type_ a ∈ [AnnotationQuery; AnnotationPath; AnnotationHeader] →
     Contains (param_Default (GetParam a)) " " = false) ∧
  (∃ a, parseLine p quoted_default_line = Done (Some a) ∧
        param_Default (GetParam a) = "John") ∧
  (∃ a, parseLine p quoted_example_line = Done (Some a) ∧
        field_Example (GetField a) = "John Doe").
Proof.
  split; [|split; eexists; split; by vm_compute].
  intros line a H Hty. pose proof (parseLine_stage _ _ H) as Hs.
  apply (parseParamPattern_default line).
  repeat (apply elem_of_cons in Hty as [Hty|Hty]);
    [by rewrite Hty in Hs..|by apply elem_of_nil in Hty].
Qed.

(** C5, as stated, fails: the tags of a route line whose path holds a
    hashtag are not the hashtags that follow the summary. *)
Lemma route_tags_counterexample :
  ∃ a, parseLine p route_line_hash_in_path = Done (Some a) ∧
    Type_ a = AnnotationRoute ∧
    route_Tags (GetRoute a) = ["all"; "pets"] ∧
    tags_after_summary p route_line_hash_in_path = ["pets"] ∧
    route_Tags (GetRoute a) ≠ tags_after_summary p route_line_hash_in_path.
Proof.
  eexists. split; [by vm_compute|]. split; [done|]. split; [done|].
  split; [by vm_compute|]. by vm_compute.
Qed.

(** C5, amended. The tags of a route annotation are the hashtags of the
    whole line, in order and with duplicates; they are the hashtags that
    follow the summary when the part of the line the route grammar
    matches holds no [#]. *)
Theorem route_tags_whole_line (line : string) (a : Annotation) :
  parseLine p line = Done (Some a) →
  Type_ a = AnnotationRoute →
  route_Tags (GetRoute a) = hash_words line ∧
  (Contains (route_prefix p line) "#" = false →
   route_Tags (GetRoute a) = tags_after_summary p line).
Proof.
  intros H Hty. pose proof (parseLine_stage _ _ H) as Hs.
  rewrite Hty in Hs. by apply parseRoutePattern_tags.
Qed.

Lemma route_tags_whole_line_witness :
  route_Tags (GetRoute route_annotation) = hash_words route_line ∧
  (Contains (route_prefix p route_line) "#" = false →
   route_Tags (GetRoute route_annotation) = tags_after_summary p route_line).
Proof.
  apply (route_tags_whole_line route_line route_annotation).
  - vm_compute. reflexivity.
  - reflexivity.
Defined.

(** C7. When two operation blocks declare the same path and method, the
    later one adds exactly one error, which names both blocks, and nothing
    else; the operation of the first block stays the only one of the
    document for that path and method; and the build goes on: the blocks
    that follow are assembled as if the later block were not there, its
    one error apart.  The blocks may stand anywhere in the build, the first
    being the first block that declares the path and method. *)
Theorem duplicate_route_first_wins (pre mid rest : list ScopeBlock)
    (blk1 blk2 : ScopeBlock) (op1 op2 : Operation) :
  mixed_roles blk1 = false → mixed_roles blk2 = false →
  declared blk1 = Some op1 → declared blk2 = Some op2 →
  op_path op2 = op_path op1 → op_method op2 = op_method op1 →
  Forall (λ blk, ∀ op, declared blk = Some op →
            ¬ (op_path op = op_path op1 ∧ op_method op = op_method op1) ∧
            op_operationId op ≠ op_operationId op1) pre →
  let before := pre ++ blk1 :: mid in
  let d := mkDiagnostic SeverityError "duplicate path and method"
             [anchor blk1; anchor blk2] in
  let b := Assemble (before ++ blk2 :: rest) in
  let b' := Assemble (before ++ rest) in
  Assemble (before ++ [blk2]) = report (Assemble before) d ∧
  lookup_operation b (op_path op1) (op_method op1) = Some op1 ∧
  filter (λ o, op_path o = op_path op1 ∧ op_method o = op_method op1)
    (operations b) = [op1] ∧
  paths b = paths b' ∧ operationIds b = operationIds b' ∧
  ∃ ds, diagnostics b' = diagnostics (Assemble before) ++ ds ∧
        diagnostics b = diagnostics (Assemble before) ++ d :: ds.
Proof.
  intros Hm1 Hm2 Hd1 Hd2 Hp Hm Hpre before d b b'.
  assert (lookup_operation (Assemble before) (op_path op1) (op_method op1)
            = Some op1) as Hfirst.
  { unfold before, Assemble. rewrite foldl_app. simpl.
    apply foldl_lookup_stable.
    destruct (foldl_undeclared pre (op_path op1) (op_method op1)
                (op_operationId op1) empty_builder) as [Hnone Hid]; try done.
    rewrite (assemble_operation_block _ _ _ Hm1 Hd1).
    destruct (add_operation_cases (foldl assemble_block empty_builder pre) op1)
      as [(first & Hl & _)|[(_ & Hin & _)|(_ & _ & ->)]]; [congruence|done|].
    rewrite lookup_stored. by rewrite decide_True. }
  assert (assemble_block (Assemble before) blk2 = report (Assemble before) d)
    as Hstep.
  { rewrite (assemble_operation_block _ _ _ Hm2 Hd2).
    destruct (add_operation_cases (Assemble before) op2)
      as [(first & Hl & ->)|[(Hl & _)|(Hl & _)]];
      rewrite Hp, Hm, Hfirst in Hl; [|done..].
    injection Hl as <-. unfold d.
    by rewrite (declared_anchor _ _ Hd1), (declared_anchor _ _ Hd2). }
  destruct (foldl_frame rest (Assemble before)
              (diagnostics (Assemble before) ++ [d])) as (ds & Hds & Hrest).
  assert (b = mkBuilder (paths b') (operationIds b')
                (diagnostics (Assemble before) ++ d :: ds)) as Hb.
  { unfold b, b', Assemble. rewrite !foldl_app. simpl.
    fold (Assemble before). rewrite Hstep. unfold report.
    rewrite Hrest. by rewrite <- app_assoc. }
  assert (lookup_operation b (op_path op1) (op_method op1) = Some op1) as Hlook.
  { unfold b, Assemble. rewrite foldl_app. by apply foldl_lookup_stable. }
  split; [|split; [done|split; [|split; [by rewrite Hb|split; [by rewrite Hb|]]]]].
  - unfold Assemble. rewrite foldl_app. simpl. exact Hstep.
  - apply filter_only.
    + apply NoDup_operations. intros ???. apply Assemble_keyed.
    + apply elem_of_operations. eauto.
    + done.
    + intros o (p & m & Ho)%elem_of_operations [Hop Hom].
      destruct (Assemble_keyed _ _ _ _ Ho) as [<- <-].
      rewrite Hop, Hom in Ho. congruence.
  - exists ds. split; [|by rewrite Hb].
    unfold b', Assemble. rewrite foldl_app. exact Hds.
Qed.

Lemma duplicate_route_first_wins_witness :
  let before := [ping_block] ++ find_users_block :: [] in
  let d := mkDiagnostic SeverityError "duplicate path and method"
             ["search.go:7"; "admin.go:40"] in
  let b := Assemble (before ++ get_users_block :: [list_users_block]) in
  let b' := Assemble (before ++ [list_users_block]) in
  let op1 := mkOperation "GET" "/users" "findUsers" EmptyString []
               [cookie_annotation] "search.go:7" in
  Assemble (before ++ [get_users_block]) = report (Assemble before) d ∧
  lookup_operation b "/users" "GET" = Some op1 ∧
  filter (λ o, op_path o = "/users" ∧ op_method o = "GET") (operations b)
    = [op1] ∧
  paths b = paths b' ∧ operationIds b = operationIds b' ∧
  ∃ ds, diagnostics b' = diagnostics (Assemble before) ++ ds ∧
        diagnostics b = diagnostics (Assemble before) ++ d :: ds.
Proof.
  apply (duplicate_route_first_wins [ping_block] [] [list_users_block]
           find_users_block get_users_block
           (mkOperation "GET" "/users" "findUsers" EmptyString []
              [cookie_annotation] "search.go:7")
           get_users); try reflexivity.
  apply Forall_cons. split; [|by apply Forall_nil].
  intros op. vm_compute. intros [= <-]. split; [intros [? _]|]; discriminate.
Defined.

(** C9. A response line made of the keyword, blanks and one token of
    digits is a response directive whose schema is the digits and whose
    status is the default of the keyword. *)
Theorem digits_only_is_schema (kw sp d : string) :
  kw ∈ ["ok"; "error"] →
  all space sp = true → sp ≠ EmptyString →
  all digit d = true → d ≠ EmptyString →
  ∃ a, parseLine p ("!" +:+ kw +:+ sp +:+ d) = Done (Some a) ∧
    Type_ a = (if String.eqb kw "ok" then AnnotationOK else AnnotationError) ∧
    response_Schema (GetResponse a) = d ∧
    response_Status (GetResponse a) =
      (if String.eqb kw "ok" then "200" else "500").
Proof.
  intros Hkw Hsp Hsp0 Hd Hd0.
  pose proof (all_head _ _ Hsp Hsp0) as Hhs.
  pose proof (all_head _ _ Hd Hd0) as Hhd.
  assert (head_is (non space) d = true) as Hns.
  { destruct d as [|c d]; [done|]. simpl in *. by apply digit_non_space. }
  destruct (responsePattern_matches kw sp d Hkw Hsp Hhs Hns) as [m Hm].
  pose proof (parseResponsePattern_result ("!" +:+ kw +:+ sp +:+ d)) as R.
  destruct (parseResponsePattern p ("!" +:+ kw +:+ sp +:+ d))
    as [[a|]|] eqn:E; unfold stage_result in R; [| |done].
  2: { apply Forall_cons in R as [R _]. congruence. }
  exists a.
  destruct (parseResponsePattern_attrs _ _ E)
    as (kw' & tail & Hkw' & Hline & Ht & Hst & Hsc).
  unfold explicit_status in Hst. unfold schema_token in Hsc.
  assert (response_body ("!" +:+ kw +:+ sp +:+ d) = d) as Hbody
    by (apply response_body_eq; [done..|by apply head_ns_not_space]).
  rewrite Hbody in Hst, Hsc.
  destruct (status_of_digits d Hd) as [Hnone Hschema].
  rewrite Hnone in Hst. rewrite Hschema in Hsc.
  unfold GetResponse. simpl. rewrite Hst, Hsc.
  repeat (apply elem_of_cons in Hkw as [->|Hkw]);
    [| |by apply elem_of_nil in Hkw];
    (repeat (apply elem_of_cons in Hkw' as [->|Hkw']);
      [| |by apply elem_of_nil in Hkw'];
      try (vm_compute in Hline; congruence));
    (split; [|done]); unfold parseLine.
  - assert (parseSimplePatterns p ("!" +:+ "ok" +:+ sp +:+ d) = Done None)
      as -> by (vm_compute; reflexivity).
    assert (parseRoutePattern p ("!" +:+ "ok" +:+ sp +:+ d) = Done None)
      as -> by (vm_compute; reflexivity).
    assert (parseParamPattern p ("!" +:+ "ok" +:+ sp +:+ d) = Done None)
      as -> by (vm_compute; reflexivity).
    assert (parseBodyPattern p ("!" +:+ "ok" +:+ sp +:+ d) = Done None)
      as -> by (vm_compute; reflexivity).
    by rewrite E.
  - assert (parseSimplePatterns p ("!" +:+ "error" +:+ sp +:+ d) = Done None)
      as -> by (vm_compute; reflexivity).
    assert (parseRoutePattern p ("!" +:+ "error" +:+ sp +:+ d) = Done None)
      as -> by (vm_compute; reflexivity).
    assert (parseParamPattern p ("!" +:+ "error" +:+ sp +:+ d) = Done None)
      as -> by (vm_compute; reflexivity).
    assert (parseBodyPattern p ("!" +:+ "error" +:+ sp +:+ d) = Done None)
      as -> by (vm_compute; reflexivity).
    by rewrite E.
Qed.

Lemma digits_only_is_schema_witness :
  ∃ a, parseLine p ("!" +:+ "error" +:+ " " +:+ "404") = Done (Some a) ∧
    Type_ a = AnnotationError ∧
    response_Schema (GetResponse a) = "404" ∧
    response_Status (GetResponse a) = "500".
Proof.
  apply (digits_only_is_schema "error" " " "404").
  - apply list_elem_of_further, list_elem_of_here.
  - reflexivity.
  - discriminate.
  - reflexivity.
  - discriminate.
Defined.

(** C10. A line that starts with [!cookie] and matches the parameter
    grammar gets an annotation of the query kind whose [in] attribute is
    [cookie]. *)
Theorem cookie_is_query (rest : string) :
  is_Some (FindStringSubmatch (paramPattern p) ("!cookie" +:+ rest)) →
  ∃ a, parseLine p ("!cookie" +:+ rest) = Done (Some a) ∧
    Type_ a = AnnotationQuery ∧ param_In (GetParam a) = "cookie".
Proof.
  intros Hm. pose proof (parseLine_result ("!cookie" +:+ rest)) as R.
  destruct (parseLine p ("!cookie" +:+ rest)) as [[a|]|] eqn:E; [| |done].
  - exists a. split; [done|].
    apply cookie_line, parseParamPattern_cookie in E as [Hin Hty].
    split; [done|]. unfold GetParam. simpl.
    by rewrite lookup_total_alt, Hin.
  - exfalso. apply not_true_iff_false in R. apply R.
    unfold recognized. apply existsb_exists. exists (paramPattern p).
    split; [simpl; tauto|by apply bool_decide_eq_true].
Qed.

Lemma cookie_is_query_witness :
  ∃ a, parseLine p ("!cookie" +:+ " sid:string") = Done (Some a) ∧
    Type_ a = AnnotationQuery ∧ param_In (GetParam a) = "cookie".
Proof.
  apply (cookie_is_query " sid:string"). vm_compute. by eexists.
Defined.

End Claims.

(** * More of the lexer *)

(** ** Trimming and splitting *)

Section Trimming.

Lemma rev_append_spec (s acc : string) : rev_append s acc = rev s +:+ acc.
Proof.
  unfold rev. revert acc. induction s as [|c s IH]; intros acc; simpl; [done|].
  rewrite (IH (String c acc)), (IH (String c EmptyString)).
  by rewrite append_assoc.
Qed.

Lemma rev_cons (c : ascii) (s : string) :
  rev (String c s) = rev s +:+ String c EmptyString.
Proof. unfold rev at 1. simpl. apply rev_append_spec. Qed.

Lemma rev_app (s t : string) : rev (s +:+ t) = rev t +:+ rev s.
Proof.
  induction s as [|c s IH].
  - change (EmptyString +:+ t) with t. by rewrite append_nil_r.
  - rewrite append_cons, !rev_cons, IH. by rewrite append_assoc.
Qed.

Lemma rev_involutive (s : string) : rev (rev s) = s.
Proof.
  induction s as [|c s IH]; [done|].
  rewrite rev_cons, rev_app, IH. done.
Qed.

Lemma length_rev (s : string) : String.length (rev s) = String.length s.
Proof.
  induction s as [|c s IH]; [done|].
  rewrite rev_cons, length_append, IH. simpl. lia.
Qed.

Lemma HasPrefix_append (x y r : string) :
  HasPrefix x r = true → HasPrefix (x +:+ y) r = true.
Proof.
  unfold HasPrefix. intros [rest ->]%prefix_strip. apply prefix_strip.
  exists (rest +:+ y). by rewrite append_assoc.
Qed.

(** No rune of the list stands at the head of the text. *)
Lemma space_width_zero (runes : list string) (s : string) :
  Forall (λ r, r ≠ EmptyString) runes →
  space_width runes s = 0 ↔ List.find (HasPrefix s) runes = None.
Proof.
  intros Hne. unfold space_width.
  destruct (List.find (HasPrefix s) runes) as [r|] eqn:E; [|done].
  apply find_some in E as [Hin _]. apply list_elem_of_In in Hin.
  rewrite Forall_forall in Hne. specialize (Hne r Hin).
  destruct r; [done|]. simpl. split; intros; done.
Qed.

Lemma space_width_prefix (runes : list string) (x y : string) :
  Forall (λ r, r ≠ EmptyString) runes →
  space_width runes (x +:+ y) = 0 → space_width runes x = 0.
Proof.
  intros Hne. rewrite !space_width_zero by done. intros H.
  destruct (List.find (HasPrefix x) runes) as [r|] eqn:E; [|done].
  apply find_some in E as [Hin Hr].
  apply (find_none _ _ H) in Hin. by rewrite (HasPrefix_append _ y _ Hr) in Hin.
Qed.

Lemma space_width_drop (runes : list string) (s : string) w :
  space_width runes s = S w →
  ∃ r, String.length r = S w ∧ s = r +:+ drop (S w) s.
Proof.
  unfold space_width.
  destruct (List.find (HasPrefix s) runes) as [r|] eqn:E; [|done].
  apply find_some in E as [_ Hr]. intros Hlen. exists r. split; [done|].
  apply prefix_strip in Hr as [rest ->]. rewrite <- Hlen.
  by rewrite drop_length_append.
Qed.

Lemma trim_left_suffix (runes : list string) (n : nat) (s : string) :
  ∃ pre, s = pre +:+ trim_left runes n s.
Proof.
  revert s. induction n as [|n IH]; intros s; cbn [trim_left]; [by exists EmptyString|].
  destruct (space_width runes s) as [|w] eqn:E; [by exists EmptyString|].
  destruct (space_width_drop _ _ _ E) as (r & _ & Hs).
  destruct (IH (drop (S w) s)) as [pre Hpre].
  exists (r +:+ pre). rewrite append_assoc, <- Hpre. done.
Qed.

Lemma trim_left_head (runes : list string) (n : nat) (s : string) :
  (String.length s ≤ n)%nat →
  space_width runes (trim_left runes n s) = 0.
Proof.
  revert s. induction n as [|n IH]; intros s Hlen; cbn [trim_left].
  - destruct s; [|simpl in Hlen; lia]. unfold space_width.
    destruct (List.find _ runes) as [r|] eqn:E; [|done].
    apply find_some in E as [_ Hr]. unfold HasPrefix in Hr. by destruct r.
  - destruct (space_width runes s) as [|w] eqn:E; [done|].
    apply IH. destruct (space_width_drop _ _ _ E) as (r & Hr & Hs).
    rewrite Hs, length_append in Hlen. lia.
Qed.

Lemma trim_left_fixed (runes : list string) (n : nat) (s : string) :
  space_width runes s = 0 → trim_left runes n s = s.
Proof. intros H. destruct n; cbn [trim_left]; [done|]. by rewrite H. Qed.

Lemma space_runes_nonempty : Forall (λ r, r ≠ EmptyString) space_runes.
Proof. unfold space_runes. simpl. repeat constructor; done. Qed.

Lemma rev_space_runes_nonempty :
  Forall (λ r, r ≠ EmptyString) (map rev space_runes).
Proof. unfold space_runes. simpl. repeat constructor; done. Qed.

(** [strings.TrimSpace] keeps a piece of the text... *)
Lemma TrimSpace_piece (s : string) :
  ∃ pre post, s = pre +:+ TrimSpace s +:+ post.
Proof.
  unfold TrimSpace, TrimRightSpace, TrimLeftSpace.
  destruct (trim_left_suffix space_runes (String.length s) s) as [pre Hpre].
  set (u := trim_left space_runes (String.length s) s) in *.
  destruct (trim_left_suffix (map rev space_runes) (String.length u) (rev u))
    as [post Hpost].
  exists pre, (rev post). rewrite <- rev_app, <- Hpost, rev_involutive. done.
Qed.

(** ... and trimming twice is trimming once. *)
Lemma TrimSpace_idempotent (s : string) : TrimSpace (TrimSpace s) = TrimSpace s.
Proof.
  unfold TrimSpace at 2 3. unfold TrimRightSpace, TrimLeftSpace.
  set (u := trim_left space_runes (String.length s) s).
  assert (space_width space_runes u = 0) as Hu by (by apply trim_left_head).
  set (v := trim_left (map rev space_runes) (String.length u) (rev u)).
  assert (space_width (map rev space_runes) v = 0) as Hv.
  { apply trim_left_head. by rewrite length_rev. }
  destruct (trim_left_suffix (map rev space_runes) (String.length u) (rev u))
    as [post Hpost]. fold v in Hpost.
  assert (u = rev v +:+ rev post) as Hux.
  { rewrite <- rev_app, <- Hpost, rev_involutive. done. }
  assert (space_width space_runes (rev v) = 0) as Hx.
  { apply (space_width_prefix _ _ (rev post)); [apply space_runes_nonempty|].
    by rewrite <- Hux. }
  unfold TrimSpace, TrimLeftSpace. rewrite (trim_left_fixed _ _ _ Hx).
  unfold TrimRightSpace. rewrite rev_involutive.
  by rewrite (trim_left_fixed _ _ _ Hv).
Qed.

Lemma all_TrimSpace (q : ascii → bool) (s : string) :
  all q s = true → all q (TrimSpace s) = true.
Proof.
  destruct (TrimSpace_piece s) as (pre & post & Hs). intros H.
  rewrite Hs, !all_append in H.
  apply andb_true_iff in H as [_ H]. by apply andb_true_iff in H as [H _].
Qed.

Lemma all_Split (q : ascii → bool) (s : string) (sep : ascii) :
  all q s = true → Forall (λ l, all q l = true) (Split s sep).
Proof.
  induction s as [|c s IH]; simpl; [by repeat constructor|].
  intros [Hc Hs]%andb_true_iff. specialize (IH Hs).
  destruct (Ascii.eqb c sep); [by constructor|].
  destruct (Split s sep) as [|l ls]; [by repeat constructor; simpl; rewrite Hc|].
  inversion IH; subst. constructor; [|done]. simpl. by rewrite Hc.
Qed.

(** The pieces [strings.Split] cuts hold no separator. *)
Lemma Split_no_sep (s : string) (sep : ascii) :
  Forall (λ l, all (non (chr sep)) l = true) (Split s sep).
Proof.
  induction s as [|c s IH]; simpl; [by repeat constructor|].
  destruct (Ascii.eqb c sep) eqn:E; [by constructor|].
  assert (non (chr sep) c = true) as Hc.
  { unfold non, chr. rewrite Ascii.eqb_sym. by rewrite E. }
  destruct (Split s sep) as [|l ls]; [by repeat constructor; simpl; rewrite Hc|].
  inversion IH; subst. constructor; [|done]. simpl. by rewrite Hc.
Qed.

Lemma Split_whole (s : string) (sep : ascii) :
  all (non (chr sep)) s = true → Split s sep = [s].
Proof.
  induction s as [|c s IH]; simpl; [done|].
  intros [Hc Hs]%andb_true_iff. rewrite (IH Hs).
  unfold non, chr in Hc. rewrite Ascii.eqb_sym in Hc.
  by destruct (Ascii.eqb c sep).
Qed.

Lemma Contains_all (s : string) (c : ascii) :
  Contains s (String c EmptyString) = false ↔ all (non (chr c)) s = true.
Proof.
  induction s as [|b s IH].
  - by vm_compute.
  - change (Contains (String b s) (String c EmptyString))
      with (HasPrefix (String b s) (String c EmptyString)
            || Contains s (String c EmptyString)).
    rewrite HasPrefix1. simpl. unfold non at 1, chr at 1.
    rewrite orb_false_iff, andb_true_iff, IH, negb_true_iff. done.
Qed.

End Trimming.

(** ** The loop of [Parse], read backwards *)

Section ParseLoop.

Local Abbreviation p := NewAnnotationParser.

Lemma Split_pieces (s : string) (sep : ascii) :
  ∃ l ls, Split s sep = l :: ls ∧ (∃ post, s = l +:+ post) ∧
    ∀ l', l' ∈ ls → ∃ pre post, s = pre +:+ l' +:+ post.
Proof.
  induction s as [|c s (l & ls & E & [post Hl] & Hls)]; simpl.
  - exists EmptyString, []. split; [done|]. split; [by exists EmptyString|].
    by intros l' ?%elem_of_nil.
  - destruct (Ascii.eqb c sep).
    + exists EmptyString, (Split s sep). split; [done|].
      split; [by exists (String c s)|]. intros l'. rewrite E.
      intros [->|Hl']%elem_of_cons.
      * exists (String c EmptyString), post. by rewrite Hl at 1.
      * destruct (Hls l' Hl') as (pre & post' & Hs).
        exists (String c pre), post'. by rewrite Hs at 1.
    + rewrite E. exists (String c l), ls. split; [done|].
      split; [exists post; by rewrite Hl at 1|]. intros l' Hl'.
      destruct (Hls l' Hl') as (pre & post' & Hs).
      exists (String c pre), post'. by rewrite Hs at 1.
Qed.

Lemma Split_piece (s : string) (sep : ascii) (l : string) :
  l ∈ Split s sep → ∃ pre post, s = pre +:+ l +:+ post.
Proof.
  destruct (Split_pieces s sep) as (l0 & ls & -> & [post Hl] & Hls).
  intros [->|Hl']%elem_of_cons; [by exists EmptyString, post|by apply Hls].
Qed.

Lemma parse_lines_elem lines : ∀ acc anns a,
  parse_lines p lines acc = Done anns → a ∈ anns →
  a ∈ acc ∨
  ∃ l, l ∈ lines ∧ HasPrefix (TrimSpace l) "!" = true ∧
       parseLine p (TrimSpace l) = Done (Some a).
Proof.
  induction lines as [|l lines IH]; intros acc anns a; simpl.
  - intros [= ->] Ha. by left.
  - destruct (HasPrefix (TrimSpace l) "!") eqn:Hbang; simpl.
    + destruct (parseLine p (TrimSpace l)) as [[b|]|] eqn:E; simpl; [| |done].
      * intros H Ha. destruct (IH _ _ _ H Ha) as [Hacc|(l' & Hl' & Hr)].
        -- apply elem_of_app in Hacc as [Hacc| ->%list_elem_of_singleton];
             [by left|].
           right. exists l. split; [left|done].
        -- right. exists l'. split; [by right|done].
      * intros H Ha. destruct (IH _ _ _ H Ha) as [Hacc|(l' & Hl' & Hr)];
          [by left|].
        right. exists l'. split; [by right|done].
    + intros H Ha. destruct (IH _ _ _ H Ha) as [Hacc|(l' & Hl' & Hr)];
        [by left|].
      right. exists l'. split; [by right|done].
Qed.

(** Every annotation of a result comes from one line of the text. *)
Lemma Parse_elem text anns a :
  Parse p text = Done anns → a ∈ anns →
  ∃ l, l ∈ Split text nl ∧ HasPrefix (TrimSpace l) "!" = true ∧
       parseLine p (TrimSpace l) = Done (Some a).
Proof.
  unfold Parse. intros H Ha.
  destruct (parse_lines_elem _ _ _ _ H Ha) as [Hnil|Hl]; [|done].
  by apply elem_of_nil in Hnil.
Qed.

Lemma parseLine_RawLine line a :
  parseLine p line = Done (Some a) → RawLine a = line.
Proof.
  intros E. pose proof (parseLine_result line) as H. rewrite E in H.
  by destruct H as (_ & ? & _).
Qed.

End ParseLoop.

(** * Further properties of the lexer *)

Section RawLines.

Local Abbreviation p := NewAnnotationParser.

(** X1. The line kept in an annotation is enough to rebuild it: parsing
    the [RawLine] of any annotation [Parse] answers gives that one
    annotation again, and nothing else. *)
Theorem Parse_RawLine_again (text : string) (anns : list Annotation)
    (a : Annotation) :
  Parse p text = Done anns → a ∈ anns → Parse p (RawLine a) = Done [a].
Proof.
  intros H Ha. destruct (Parse_elem _ _ _ H Ha) as (l & Hl & Hbang & E).
  rewrite (parseLine_RawLine _ _ E). unfold Parse.
  pose proof (Split_no_sep text nl) as Hsep. rewrite Forall_forall in Hsep.
  rewrite (Split_whole (TrimSpace l) nl) by (apply all_TrimSpace, Hsep, Hl).
  simpl. rewrite TrimSpace_idempotent, Hbang, E. done.
Qed.

Lemma Parse_RawLine_again_witness :
  Parse p (RawLine path_annotation) = Done [path_annotation].
Proof.
  apply (Parse_RawLine_again
           (security_line +:+ newline +:+ "  " +:+ path_line)
           [security_annotation; path_annotation]).
  - vm_compute. reflexivity.
  - apply list_elem_of_further, list_elem_of_here.
Defined.

(** X2. The line kept in an annotation is a piece of the text given to
    [Parse]; it starts with an exclamation mark, holds no line break and
    has no white space at either end. *)
Theorem Parse_RawLine_shape (text : string) (anns : list Annotation)
    (a : Annotation) :
  Parse p text = Done anns → a ∈ anns →
  Contains text (RawLine a) = true ∧
  HasPrefix (RawLine a) "!" = true ∧
  Contains (RawLine a) (String nl EmptyString) = false ∧
  TrimSpace (RawLine a) = RawLine a.
Proof.
  intros H Ha. destruct (Parse_elem _ _ _ H Ha) as (l & Hl & Hbang & E).
  rewrite (parseLine_RawLine _ _ E).
  pose proof (Split_no_sep text nl) as Hsep. rewrite Forall_forall in Hsep.
  repeat split.
  - apply Contains_spec.
    destruct (Split_piece _ _ _ Hl) as (pre & post & ->).
    destruct (TrimSpace_piece l) as (pre' & post' & Hpiece).
    exists (pre +:+ pre'), (post' +:+ post). rewrite Hpiece at 1.
    by rewrite !append_assoc.
  - done.
  - apply Contains_all, all_TrimSpace, Hsep, Hl.
  - apply TrimSpace_idempotent.
Qed.

Lemma Parse_RawLine_shape_witness :
  let text := security_line +:+ newline +:+ "  " +:+ path_line +:+ "  " in
  Contains text (RawLine path_annotation) = true ∧
  HasPrefix (RawLine path_annotation) "!" = true ∧
  Contains (RawLine path_annotation) (String nl EmptyString) = false ∧
  TrimSpace (RawLine path_annotation) = RawLine path_annotation.
Proof.
  apply (Parse_RawLine_shape
           (security_line +:+ newline +:+ "  " +:+ path_line +:+ "  ")
           [security_annotation; path_annotation]).
  - vm_compute. reflexivity.
  - apply list_elem_of_further, list_elem_of_here.
Defined.

Lemma parse_lines_skip lines : ∀ acc,
  Forall (λ l, HasPrefix (TrimSpace l) "!" = false) lines →
  parse_lines p lines acc = Done acc.
Proof.
  induction lines as [|l lines IH]; intros acc Hall; simpl; [done|].
  inversion Hall as [|?? Hl Hrest]; subst. rewrite Hl. simpl. by apply IH.
Qed.

(** X3. A text without an exclamation mark holds no directive: [Parse]
    answers the empty list, whatever else the text holds. *)
Theorem Parse_without_bang (text : string) :
  Contains text "!" = false → Parse p text = Done [].
Proof.
  intros H%Contains_all. unfold Parse. apply parse_lines_skip.
  eapply Forall_impl; [apply (all_Split _ _ nl H)|]. intros l Hl. simpl in Hl.
  apply (all_TrimSpace _ l) in Hl. destruct (TrimSpace l) as [|c w]; [done|].
  rewrite HasPrefix1. simpl in Hl. apply andb_true_iff in Hl as [Hc _].
  unfold non, chr in Hc. by apply negb_true_iff in Hc.
Qed.

Lemma Parse_without_bang_witness :
  Parse p ("// GetUser returns a user" +:+ newline +:+ "GET /users") = Done [].
Proof. apply Parse_without_bang. vm_compute. reflexivity. Defined.

End RawLines.

(** ** What a group captures *)

Section Captures.

Lemma Contains_piece (s pre v post : string) :
  s = pre +:+ v +:+ post → Contains s v = true.
Proof. intros ->. apply Contains_spec. by exists pre, post. Qed.

Lemma Contains_empty (s : string) : Contains s EmptyString = true.
Proof. apply (Contains_piece s EmptyString EmptyString s). done. Qed.

Lemma Contains_trans (s t v : string) :
  Contains s t = true → Contains t v = true → Contains s v = true.
Proof.
  intros (pre & post & ->)%Contains_spec (pre' & post' & ->)%Contains_spec.
  apply (Contains_piece _ (pre +:+ pre') v (post' +:+ post)).
  by rewrite !append_assoc.
Qed.

(** A submatch a match has written is a piece of the text matched, and
    the body of its group matches it. *)
Lemma matches_capture r w cs cs' (i : nat) v :
  matches r w cs cs' → cs' !! i = Some (Some v) →
  cs !! i = Some (Some v) ∨
  ∃ body c1 c2, body ∈ bodies r i ∧ matches body v c1 c2 ∧
    Contains w v = true.
Proof.
  induction 1 as [| | |r1 r2 w1 w2 cs cs1 cs2 _ IH1 _ IH2
                  |r1 r2 w cs cs' _ IH|r1 r2 w cs cs' _ IH
                  |r w cs cs' _ IH| |j r w cs cs' M IH];
    simpl; intros Hv; auto.
  - destruct (IH2 Hv) as [H1|(body & c1 & c2 & Hin & Hm & Hc)].
    + destruct (IH1 H1) as [H0|(body & c1 & c2 & Hin & Hm & Hc)]; [by left|].
      right. exists body, c1, c2. split; [apply elem_of_app; by left|].
      split; [done|]. apply Contains_spec in Hc as (pre & post & ->).
      apply (Contains_piece _ pre v (post +:+ w2)). by rewrite !append_assoc.
    + right. exists body, c1, c2. split; [apply elem_of_app; by right|].
      split; [done|]. apply Contains_spec in Hc as (pre & post & ->).
      apply (Contains_piece _ (w1 +:+ pre) v post). by rewrite !append_assoc.
  - destruct (IH Hv) as [?|(body & c1 & c2 & Hin & Hm & Hc)]; [by left|].
    right. exists body, c1, c2. split; [apply elem_of_app; by left|done].
  - destruct (IH Hv) as [?|(body & c1 & c2 & Hin & Hm & Hc)]; [by left|].
    right. exists body, c1, c2. split; [apply elem_of_app; by right|done].
  - apply list_lookup_insert_Some in Hv as [(<- & [= <-] & _)|[Hne Hv]].
    + right. exists r, cs, cs'. rewrite Nat.eqb_refl.
      split; [apply elem_of_app; left; apply list_elem_of_here|].
      split; [done|]. apply (Contains_piece _ EmptyString w EmptyString).
      by rewrite append_nil_r.
    + destruct (IH Hv) as [?|(body & c1 & c2 & Hin & Hm & Hc)]; [by left|].
      right. exists body, c1, c2. split; [apply elem_of_app; by right|done].
Qed.

Lemma found_piece re s w cs :
  (if anchored re then exec (expr re) s else search (expr re) s)
    = Some (w, cs) →
  ∃ cs', Contains s w = true ∧
    matches (expr re) w (replicate (S (NumSubexp (expr re))) None) cs' ∧
    cs = <[0 := Some w]> cs'.
Proof.
  destruct (anchored re); intros H.
  - apply exec_sound in H as (s' & cs' & -> & M & ->). exists cs'.
    split; [|done]. apply (Contains_piece _ EmptyString w s'). done.
  - apply search_sound in H as (pre & s' & cs' & -> & M & ->). exists cs'.
    split; [|done]. by apply (Contains_piece _ pre w s').
Qed.

(** Every entry of a match is a piece of the text searched; the entry of
    a group is empty or a text the body of the group matches. *)
Lemma FindStringSubmatch_capture re s m (i : nat) v :
  FindStringSubmatch re s = Some m → m !! S i = Some v →
  Contains s v = true ∧
  (v = EmptyString ∨
   ∃ body c1 c2, body ∈ bodies (expr re) (S i) ∧ matches body v c1 c2).
Proof.
  unfold FindStringSubmatch, submatches. intros H Hv.
  apply fmap_Some in H as ([w cs] & H & ->). simpl in Hv.
  apply found_piece in H as (cs' & Hw & M & ->).
  rewrite list_lookup_fmap, list_lookup_insert_ne in Hv by done.
  destruct (cs' !! S i) as [[u|]|] eqn:E; simpl in Hv; [| |done];
    injection Hv as <-.
  - destruct (matches_capture _ _ _ _ _ _ M E)
      as [H0|(body & c1 & c2 & Hin & Hm & Hc)].
    + apply lookup_replicate in H0 as [? _]. done.
    + split; [by apply (Contains_trans s w)|]. right. eauto.
  - split; [apply Contains_empty|by left].
Qed.

Lemma matches_keeps r w cs cs' (i : nat) :
  matches r w cs cs' → is_Some (cs !! i ≫= id) → is_Some (cs' !! i ≫= id).
Proof.
  induction 1 as [| | |r1 r2 w1 w2 cs cs1 cs2 _ IH1 _ IH2
                  |r1 r2 w cs cs' _ IH|r1 r2 w cs cs' _ IH
                  |r w cs cs' _ IH| |j r w cs cs' M IH]; auto.
  intros H. specialize (IH H). destruct (decide (j = i)) as [->|Hne].
  - destruct (cs' !! i) as [o|] eqn:E; [|by destruct IH].
    apply lookup_lt_Some in E. rewrite list_lookup_insert_eq by done. by eexists.
  - by rewrite list_lookup_insert_ne.
Qed.

Lemma matches_mandatory r w cs cs' (i : nat) :
  matches r w cs cs' → mandatory r i = true → i < length cs →
  is_Some (cs' !! i ≫= id).
Proof.
  induction 1 as [| | |r1 r2 w1 w2 cs cs1 cs2 M1 IH1 M2 IH2
                  |r1 r2 w cs cs' _ IH|r1 r2 w cs cs' _ IH
                  |r w cs cs' _ IH| |j r w cs cs' M IH];
    simpl; intros Hm Hlen; try done.
  - apply orb_true_iff in Hm as [Hm|Hm].
    + apply (matches_keeps _ _ _ _ _ M2). by apply IH1.
    + apply IH2; [done|]. by rewrite (matches_length _ _ _ _ M1).
  - apply andb_true_iff in Hm as [Hm _]. by apply IH.
  - apply andb_true_iff in Hm as [_ Hm]. by apply IH.
  - destruct (Nat.eqb_spec i j) as [->|Hne].
    + rewrite list_lookup_insert_eq; [by eexists|].
      by rewrite (matches_length _ _ _ _ M).
    + rewrite list_lookup_insert_ne by done. by apply IH.
Qed.

(** The entry of a group every match takes part in is a text the body of
    the group matches. *)
Lemma FindStringSubmatch_mandatory re s m (i : nat) v :
  FindStringSubmatch re s = Some m → m !! S i = Some v →
  mandatory (expr re) (S i) = true →
  ∃ body c1 c2, body ∈ bodies (expr re) (S i) ∧ matches body v c1 c2.
Proof.
  unfold FindStringSubmatch, submatches. intros H Hv Hm.
  apply fmap_Some in H as ([w cs] & H & ->). simpl in Hv.
  apply found_piece in H as (cs' & Hw & M & ->).
  rewrite list_lookup_fmap, list_lookup_insert_ne in Hv by done.
  assert (S i < length (replicate (S (NumSubexp (expr re))) (@None string)))
    as Hlen.
  { rewrite <- (matches_length _ _ _ _ M). apply lookup_lt_is_Some. destruct (cs' !! S i); [by eexists|done]. }
  destruct (matches_mandatory _ _ _ _ _ M Hm Hlen) as [u Hu].
  destruct (cs' !! S i) as [[u'|]|] eqn:E; simpl in Hu, Hv; try done.
  injection Hv as <-.
  destruct (matches_capture _ _ _ _ _ _ M E)
    as [H0|(body & c1 & c2 & Hin & Hb & _)]; [|eauto].
  apply lookup_replicate in H0 as [? _]. done.
Qed.

Lemma FindStringSubmatch_whole re s m v :
  FindStringSubmatch re s = Some m → m !! 0 = Some v → Contains s v = true.
Proof.
  unfold FindStringSubmatch, submatches. intros H Hv.
  apply fmap_Some in H as ([w cs] & H & ->). simpl in Hv.
  apply found_piece in H as (cs' & Hw & M & ->).
  rewrite list_lookup_fmap in Hv.
  destruct cs' as [|c0 cs']; simpl in Hv; [done|]. by injection Hv as <-.
Qed.

Lemma FindStringSubmatch_piece re s m (i : nat) v :
  FindStringSubmatch re s = Some m → m !! i = Some v → Contains s v = true.
Proof.
  destruct i; [apply FindStringSubmatch_whole|].
  intros H Hv. by destruct (FindStringSubmatch_capture _ _ _ _ _ H Hv).
Qed.

End Captures.

(** ** The stages of [parseLine], read backwards *)

Section Inversion.

Local Abbreviation p := NewAnnotationParser.

Lemma first_simple_inv matchers line a :
  first_simple matchers line = Done (Some a) →
  ∃ re keys m, (re, Type_ a, keys) ∈ matchers ∧
    FindStringSubmatch re line = Some m ∧
    fill_args keys 0 m ∅ = Done (Args a) ∧
    RawLine a = line ∧ Tags a = [].
Proof.
  induction matchers as [|[[re t] keys] matchers IH]; simpl; [done|].
  destruct (FindStringSubmatch re line) as [m|] eqn:E.
  - destruct (fill_args keys 0 m ∅) as [args|] eqn:F; simpl; [|done].
    intros [= <-]. exists re, keys, m. simpl. split; [left|done].
  - intros H. destruct (IH H) as (re' & keys' & m & Hin & Hrest).
    exists re', keys', m. split; [by right|done].
Qed.

Lemma fill_args_lookup keys : ∀ i (m : list string) args args',
  fill_args keys i m args = Done args' →
  ∀ k v, args' !! k = Some v →
    args !! k = Some v ∨ ∃ j, m !! S j = Some v.
Proof.
  induction keys as [|key keys IH]; intros i m args args'; simpl.
  - intros [= <-] k v Hv. by left.
  - destruct (Nat.ltb (i + 1) (length m)); [|by apply IH].
    unfold idx. destruct (m !! (i + 1)) as [x|] eqn:E; simpl; [|done].
    intros H k v Hv. destruct (IH _ _ _ _ H k v Hv) as [H0|H0]; [|by right].
    apply lookup_insert_Some in H0 as [[_ <-]|[_ H0]]; [|by left].
    right. exists i. by rewrite <- Nat.add_1_r.
Qed.

Lemma parseRoutePattern_inv line a :
  parseRoutePattern p line = Done (Some a) →
  ∃ m0 m1 m2 m3 m4,
    FindStringSubmatch (routePattern p) line = Some [m0; m1; m2; m3; m4] ∧
    a = mkAnnotation AnnotationRoute line
          (list_to_map [("method", ToUpper m1); ("path", m2);
                        ("operationId", m3); ("summary", m4)])
          (hash_words line).
Proof.
  unfold parseRoutePattern.
  destruct (FindStringSubmatch (routePattern p) line) as [m|] eqn:E; [|done].
  match_shape E. rewrite extractTags_hash_words. simpl. intros [= <-].
  by eexists _, _, _, _, _.
Qed.

Lemma parseParamPattern_inv line a :
  parseParamPattern p line = Done (Some a) →
  ∃ m0 m1 m2 m3 m4 args,
    FindStringSubmatch (paramPattern p) line = Some [m0; m1; m2; m3; m4] ∧
    a = mkAnnotation
          (if String.eqb m1 "path" then AnnotationPath
           else if String.eqb m1 "header" then AnnotationHeader
           else AnnotationQuery)
          line args [] ∧
    ∀ k v, args !! k = Some v →
      (k, v) ∈ [("in", m1); ("name", m2); ("type", m3); ("description", m4);
                ("required", argTrue)] ∨
      k = "default" ∧ ∃ d0 d,
        FindStringSubmatch defaultPattern line = Some [d0; d] ∧
        v = Trim d quotes.
Proof.
  unfold parseParamPattern.
  destruct (FindStringSubmatch (paramPattern p) line) as [m|] eqn:E; [|done].
  match_shape E. simpl.
  destruct (FindStringSubmatch defaultPattern line) as [dm|] eqn:Ed;
    [match_shape Ed|]; simpl; intros [= <-]; eexists _, _, _, _, _, _;
    (split; [done|]); (split; [done|]); intros k v Hv;
    destruct (Contains line " required");
    repeat (apply lookup_insert_Some in Hv as [[<- <-]|[_ Hv]];
            [first [ by right; split; [|eexists _, _]
                   | by left; repeat first [apply list_elem_of_here
                                           | apply list_elem_of_further] ]|]);
    done.
Qed.

Lemma parseBodyPattern_inv line a :
  parseBodyPattern p line = Done (Some a) →
  ∃ m0 m1 m2,
    FindStringSubmatch (bodyPattern p) line = Some [m0; m1; m2] ∧
    a = mkAnnotation AnnotationBody line
          (let args : gmap string string :=
             list_to_map [("schema", m1); ("description", m2)] in
           if Contains line " required"
           then <["required" := argTrue]> args else args)
          [].
Proof.
  unfold parseBodyPattern.
  destruct (FindStringSubmatch (bodyPattern p) line) as [m|] eqn:E; [|done].
  match_shape E. simpl. intros [= <-]. by eexists _, _, _.
Qed.

Lemma parseResponsePattern_inv line a :
  parseResponsePattern p line = Done (Some a) →
  ∃ m0 m1 m2 m3 m4,
    FindStringSubmatch (responsePattern p) line = Some [m0; m1; m2; m3; m4] ∧
    a = mkAnnotation
          (if String.eqb m1 "error" then AnnotationError else AnnotationOK)
          line
          (list_to_map
             [("status",
               let statusCode :=
                 if String.eqb m1 "ok" && String.eqb m2 EmptyString
                 then "200" else m2 in
               if String.eqb m1 "error" && String.eqb statusCode EmptyString
               then "500" else statusCode);
              ("schema", m3); ("description", m4)])
          [].
Proof.
  unfold parseResponsePattern.
  destruct (FindStringSubmatch (responsePattern p) line) as [m|] eqn:E; [|done].
  match_shape E. simpl. intros [= <-]. by eexists _, _, _, _, _.
Qed.

Lemma parseSecurePattern_inv line a :
  parseSecurePattern p line = Done (Some a) →
  ∃ m0 m1,
    FindStringSubmatch (securePattern p) line = Some [m0; m1] ∧
    a = mkAnnotation AnnotationSecure line
          (list_to_map [("names", Join (Fields m1) ",")]) (Fields m1).
Proof.
  unfold parseSecurePattern.
  destruct (FindStringSubmatch (securePattern p) line) as [m|] eqn:E; [|done].
  match_shape E. simpl. intros [= <-]. by eexists _, _.
Qed.

Lemma parseWebhookPattern_inv line a :
  parseWebhookPattern p line = Done (Some a) →
  (∃ m0 m1 m2 m3,
     FindStringSubmatch (webhookPattern p) line = Some [m0; m1; m2; m3] ∧
     a = mkAnnotation AnnotationWebhook line
           (list_to_map [("name", m1); ("method", m2); ("description", m3)])
           []) ∨
  (∃ m0 m1 m2,
     FindStringSubmatch (webhookBodyPattern p) line = Some [m0; m1; m2] ∧
     a = mkAnnotation AnnotationWebhookBody line
           (list_to_map [("schema", m1); ("description", m2)]) []) ∨
  (∃ m0 m1 m2 m3,
     FindStringSubmatch (webhookRespPattern p) line = Some [m0; m1; m2; m3] ∧
     a = mkAnnotation AnnotationWebhookResponse line
           (list_to_map [("status", m1); ("schema", m2); ("description", m3)])
           []).
Proof.
  unfold parseWebhookPattern.
  destruct (FindStringSubmatch (webhookPattern p) line) as [m|] eqn:E.
  { match_shape E. simpl. intros [= <-]. left. by eexists _, _, _, _. }
  destruct (FindStringSubmatch (webhookBodyPattern p) line) as [m|] eqn:E2.
  { match_shape E2. simpl. intros [= <-]. right. left. by eexists _, _, _. }
  destruct (FindStringSubmatch (webhookRespPattern p) line) as [m|] eqn:E3;
    [|done].
  match_shape E3. simpl. intros [= <-]. right. right. by eexists _, _, _, _.
Qed.

Lemma parseModelPattern_inv line a :
  parseModelPattern p line = Done (Some a) →
  ∃ m0 m1,
    FindStringSubmatch (modelPattern p) line = Some [m0; m1] ∧
    a = mkAnnotation AnnotationModel line
          (list_to_map [("description", m1)]) [].
Proof.
  unfold parseModelPattern.
  destruct (FindStringSubmatch (modelPattern p) line) as [m|] eqn:E; [|done].
  match_shape E. simpl. intros [= <-]. by eexists _, _.
Qed.

Lemma parseFieldPattern_inv line a :
  parseFieldPattern p line = Done (Some a) →
  ∃ m0 m1 m2 m3 args,
    FindStringSubmatch (fieldPattern p) line = Some [m0; m1; m2; m3] ∧
    a = mkAnnotation AnnotationField line args [] ∧
    ∀ k v, args !! k = Some v →
      (k, v) ∈ [("name", m1); ("type", m2); ("description", m3);
                ("required", argTrue)] ∨
      k = "example" ∧ ∃ e0 e,
        FindStringSubmatch examplePattern line = Some [e0; e] ∧
        v = Trim e quotes.
Proof.
  unfold parseFieldPattern.
  destruct (FindStringSubmatch (fieldPattern p) line) as [m|] eqn:E; [|done].
  match_shape E. simpl.
  destruct (FindStringSubmatch examplePattern line) as [em|] eqn:Ee;
    [match_shape Ee|]; simpl; intros [= <-]; eexists _, _, _, _, _;
    (split; [done|]); (split; [done|]); intros k v Hv;
    destruct (Contains line " required");
    repeat (apply lookup_insert_Some in Hv as [[<- <-]|[_ Hv]];
            [first [ by right; split; [|eexists _, _]
                   | by left; repeat first [apply list_elem_of_here
                                           | apply list_elem_of_further] ]|]);
    done.
Qed.

Lemma parseSimplePatterns_inv line a :
  parseSimplePatterns p line = Done (Some a) →
  ∃ re keys m, (re, Type_ a, keys) ∈ simple_matchers p ∧
    FindStringSubmatch re line = Some m ∧
    fill_args keys 0 m ∅ = Done (Args a).
Proof.
  intros H. apply first_simple_inv in H as (re & keys & m & ? & ? & ? & _).
  by exists re, keys, m.
Qed.

Lemma parseParamPattern_args line a :
  parseParamPattern p line = Done (Some a) →
  ∃ m0 m1 m2 m3 m4,
    FindStringSubmatch (paramPattern p) line = Some [m0; m1; m2; m3; m4] ∧
    Type_ a = (if String.eqb m1 "path" then AnnotationPath
               else if String.eqb m1 "header" then AnnotationHeader
               else AnnotationQuery) ∧
    Args a !!! "in" = m1 ∧ Args a !!! "name" = m2 ∧
    Args a !!! "type" = m3 ∧ Args a !!! "description" = m4.
Proof.
  unfold parseParamPattern.
  destruct (FindStringSubmatch (paramPattern p) line) as [m|] eqn:E; [|done].
  match_shape E. simpl.
  destruct (FindStringSubmatch defaultPattern line) as [dm|] eqn:Ed;
    [match_shape Ed|]; simpl; intros [= <-]; eexists _, _, _, _, _;
    (split; [done|]); simpl; destruct (Contains line " required"); done.
Qed.

Lemma parseFieldPattern_args line a :
  parseFieldPattern p line = Done (Some a) →
  ∃ m0 m1 m2 m3,
    FindStringSubmatch (fieldPattern p) line = Some [m0; m1; m2; m3] ∧
    Args a !!! "name" = m1 ∧ Args a !!! "type" = m2 ∧
    Args a !!! "description" = m3 ∧
    Args a !!! "example" =
      match FindStringSubmatch examplePattern line with
      | Some em => Trim (em !!! 1) quotes
      | None => EmptyString
      end.
Proof.
  unfold parseFieldPattern.
  destruct (FindStringSubmatch (fieldPattern p) line) as [m|] eqn:E; [|done].
  match_shape E. simpl.
  destruct (FindStringSubmatch examplePattern line) as [em|] eqn:Ee;
    [match_shape Ee|]; simpl; intros [= <-]; eexists _, _, _, _;
    (split; [done|]); simpl; destruct (Contains line " required"); done.
Qed.

End Inversion.

Ltac simple_stage H Hty E F :=
let Hs := fresh "Hs" in
let Hin := fresh "Hin" in
pose proof (parseLine_stage _ _ H) as Hs; rewrite Hty in Hs;
apply parseSimplePatterns_inv in Hs as (? & ? & ? & Hin & E & F);
rewrite Hty in Hin;
repeat (apply elem_of_cons in Hin as [Hin|Hin]; [try discriminate Hin|]);
[injection Hin as -> ->|by apply elem_of_nil in Hin];
match_shape E; simpl in F; injection F as F.

Ltac webhook_stage H Hty E :=
let Hs := fresh "Hs" in
pose proof (parseLine_stage _ _ H) as Hs; rewrite Hty in Hs;
apply parseWebhookPattern_inv in Hs
  as [(? & ? & ? & ? & E & ->)|[(? & ? & ? & E & ->)|(? & ? & ? & ? & E & ->)]];
try discriminate Hty.

(** ** Pieces of a text *)

Section Pieces.

Lemma drop_while_suffix (f : ascii → bool) (s : string) :
  ∃ pre, s = pre +:+ drop_while f s.
Proof.
  induction s as [|c s [pre IH]]; simpl; [by exists EmptyString|].
  destruct (f c); [|by exists EmptyString].
  exists (String c pre). by rewrite IH at 1.
Qed.

Lemma take_drop_while (q : ascii → bool) (s : string) :
  s = take_while q s +:+ drop_while q s.
Proof.
  induction s as [|c s IH]; simpl; [done|].
  destruct (q c); [|done]. by rewrite append_cons, <- IH.
Qed.

(** [strings.Trim] answers a piece of its argument. *)
Lemma Contains_Trim (s cutset : string) : Contains s (Trim s cutset) = true.
Proof.
  unfold Trim. set (f := in_cutset cutset).
  destruct (drop_while_suffix f s) as [pre Hs].
  destruct (drop_while_suffix f (rev (drop_while f s))) as [post Hr].
  apply (Contains_piece _ pre _ (rev post)).
  rewrite <- rev_app, <- Hr, rev_involutive. done.
Qed.

Lemma drop_while_head (f : ascii → bool) (s : string) :
  head_is f (drop_while f s) = false.
Proof.
  induction s as [|c s IH]; simpl; [done|].
  destruct (f c) eqn:Hc; [done|]. simpl. by rewrite Hc.
Qed.

(** What [strings.Trim] answers neither starts nor ends with a byte of
    the cutset. *)
Lemma Trim_last (s cutset : string) :
  head_is (in_cutset cutset) (rev (Trim s cutset)) = false.
Proof. unfold Trim. rewrite rev_involutive. apply drop_while_head. Qed.

Lemma Trim_head (s cutset : string) :
  head_is (in_cutset cutset) (Trim s cutset) = false.
Proof.
  unfold Trim. set (f := in_cutset cutset). set (u := drop_while f s).
  destruct (drop_while_suffix f (rev u)) as [pre Hpre].
  apply (f_equal rev) in Hpre. rewrite rev_involutive, rev_app in Hpre.
  pose proof (drop_while_head f s) as Hu. fold u in Hu. rewrite Hpre in Hu.
  by destruct (rev (drop_while f (rev u))).
Qed.

Lemma rev_nonempty (c : ascii) (s : string) : rev (String c s) ≠ EmptyString.
Proof.
  intros H. apply (f_equal String.length) in H.
  rewrite length_rev in H. done.
Qed.

(** A hashtag is a run of word bytes that follows a [#] of the text. *)
Lemma hash_words_elem (s t : string) :
  t ∈ hash_words s →
  Contains s (String "#" t) = true ∧ all word t = true ∧ t ≠ EmptyString.
Proof.
  induction s as [|c s IH]; [by intros ?%elem_of_nil|].
  rewrite hash_words_cons.
  assert (t ∈ hash_words s →
          Contains (String c s) (String "#" t) = true ∧ all word t = true ∧
          t ≠ EmptyString) as Hrest.
  { intros Ht. destruct (IH Ht) as ((pre & post & ->)%Contains_spec & ? & ?).
    split; [|done]. by apply (Contains_piece _ (String c pre) _ post). }
  destruct (chr "#" c && head_is word s) eqn:E; [|done].
  apply andb_true_iff in E as [Hc Hs].
  intros [->|Ht]%elem_of_cons; [|by apply Hrest].
  apply Ascii.eqb_eq in Hc as <-. split; [|split].
  - apply (Contains_piece _ EmptyString _ (drop_while word s)).
    change (String "#" s = String "#" (take_while word s +:+ drop_while word s)).
    by rewrite <- take_drop_while.
  - clear. induction s as [|c s IH]; simpl; [done|].
    destruct (word c) eqn:Hc; simpl; [|done]. by rewrite Hc.
  - destruct s as [|c s]; simpl in *; [done|]. by rewrite Hs.
Qed.

Lemma fields_nil (cur : string) (skip : nat) :
  fields EmptyString cur skip =
    match cur with EmptyString => [] | _ => [rev cur] end.
Proof. done. Qed.

Lemma fields_cons (c : ascii) (s cur : string) (skip : nat) :
  fields (String c s) cur skip =
    match skip with
    | S n => fields s cur n
    | O =>
        match space_width space_runes (String c s) with
        | O => fields s (String c cur) 0
        | S w =>
            match cur with EmptyString => [] | _ => [rev cur] end
              ++ fields s EmptyString w
        end
    end.
Proof. done. Qed.

Lemma space_width_ascii (c : ascii) (s : string) :
  space_width space_runes (String c s) = 0 → ascii_space c = false.
Proof.
  intros H. destruct (ascii_space c) eqn:Hc; [|done]. exfalso.
  apply space_width_zero in H; [|apply space_runes_nonempty].
  assert (In (String c EmptyString) space_runes) as Hin.
  { destruct c as [[] [] [] [] [] [] [] []]; vm_compute in Hc;
      try discriminate Hc; vm_compute; auto 10. }
  apply (find_none _ _ H) in Hin.
  rewrite HasPrefix1, Ascii.eqb_refl in Hin. done.
Qed.

(** A field is a piece of the text without white space. *)
Lemma fields_elem (s : string) : ∀ cur skip f,
  skip = 0 ∨ cur = EmptyString →
  all (non ascii_space) cur = true →
  f ∈ fields s cur skip →
  Contains (rev cur +:+ s) f = true ∧ f ≠ EmptyString ∧
  all (non ascii_space) f = true.
Proof.
  assert (∀ cur s' f,
            all (non ascii_space) cur = true →
            f ∈ match cur with EmptyString => [] | _ => [rev cur] end →
            Contains (rev cur +:+ s') f = true ∧ f ≠ EmptyString ∧
            all (non ascii_space) f = true) as Hflush.
  { intros [|c cur] s' f Hcur; [by intros ?%elem_of_nil|].
    intros ->%list_elem_of_singleton. split; [|split].
    - by apply (Contains_piece _ EmptyString _ s').
    - apply rev_nonempty.
    - by rewrite all_rev. }
  induction s as [|c s IH]; intros cur skip f Hinv Hcur.
  - rewrite fields_nil. by apply Hflush.
  - rewrite fields_cons. destruct skip as [|n].
    + destruct (space_width space_runes (String c s)) as [|w] eqn:E.
      * intros Hf. apply IH in Hf as (Hc & ? & ?); [|by left|].
        -- split; [|done]. by rewrite rev_cons, append_assoc in Hc.
        -- simpl. rewrite Hcur. unfold non at 1.
           by rewrite (space_width_ascii _ _ E).
      * intros [Hf|Hf]%elem_of_app; [by apply Hflush|].
        apply IH in Hf as ((pre & post & Hs)%Contains_spec & ? & ?);
          [|by right|done].
        split; [|done]. change (rev EmptyString +:+ s) with s in Hs.
        apply (Contains_piece _ (rev cur +:+ String c pre) _ post).
        rewrite Hs, !append_assoc. done.
    + destruct Hinv as [Hz| ->]; [done|]. intros Hf.
      apply IH in Hf as ((pre & post & Hs)%Contains_spec & ? & ?);
        [|by right|done].
      split; [|done]. change (rev EmptyString +:+ s) with s in Hs.
      apply (Contains_piece _ (String c pre) _ post). by rewrite Hs.
Qed.

Lemma Fields_elem (s f : string) :
  f ∈ Fields s →
  Contains s f = true ∧ f ≠ EmptyString ∧ all (non ascii_space) f = true.
Proof. intros H. by apply (fields_elem s EmptyString 0 f) in H; [|left|]. Qed.

End Pieces.

(** ** Where the attributes come from *)

Ltac piece E :=
first [ exact (FindStringSubmatch_piece _ _ _ 1 _ E eq_refl)
      | exact (FindStringSubmatch_piece _ _ _ 2 _ E eq_refl)
      | exact (FindStringSubmatch_piece _ _ _ 3 _ E eq_refl)
      | exact (FindStringSubmatch_piece _ _ _ 4 _ E eq_refl)
      | exact (FindStringSubmatch_piece _ _ _ 5 _ E eq_refl) ].

Ltac arg_cases Hv :=
repeat (apply lookup_insert_Some in Hv as [[<- <-]|[_ Hv]]);
[..|by rewrite lookup_empty in Hv].

Section Sources.

Local Abbreviation p := NewAnnotationParser.

Lemma parseSimplePatterns_pieces line a :
  parseSimplePatterns p line = Done (Some a) →
  (∀ k v, Args a !! k = Some v → Contains line v = true) ∧ Tags a = [].
Proof.
  intros H. apply first_simple_inv in H as (re & keys & m & _ & E & F & _ & Ht).
  split; [|done]. intros k v Hv.
  destruct (fill_args_lookup _ _ _ _ _ F k v Hv) as [H0|[j Hj]].
  - by rewrite lookup_empty in H0.
  - by apply (FindStringSubmatch_piece _ _ _ _ _ E Hj).
Qed.

(** The method of a route line is written in capitals already. *)
Lemma routePattern_method line m0 m1 m2 m3 m4 :
  FindStringSubmatch (routePattern p) line = Some [m0; m1; m2; m3; m4] →
  m1 ∈ ["GET"; "POST"; "PUT"; "DELETE"; "PATCH"; "OPTIONS"; "HEAD"] ∧
  ToUpper m1 = m1.
Proof.
  unfold FindStringSubmatch. intros H.
  apply fmap_Some in H as ([w cs] & H & Hm). simpl in H.
  apply (exec_keyword ["GET"; "POST"; "PUT"; "DELETE"; "PATCH"; "OPTIONS"; "HEAD"])
    in H as (kw & tail & Hkw & _ & Hcs); [|not_in_groups].
  apply submatches_lookup in Hcs. simpl in Hm. rewrite <- Hm in Hcs.
  injection Hcs as <-. split; [done|].
  repeat (apply elem_of_cons in Hkw as [->|Hkw]); try done.
  by apply elem_of_nil in Hkw.
Qed.

Lemma Contains_tail (c : ascii) (t : string) : Contains (String c t) t = true.
Proof.
  apply (Contains_piece _ (String c EmptyString) t EmptyString).
  by rewrite append_nil_r.
Qed.

(** X4. The lexer copies, it does not compose: every attribute value of
    an annotation is a piece of its line, except the three the code
    writes itself (the [required] flag, the default status of a response
    and the comma-joined names of a [!secure] line); every tag is a piece
    of the line as well. *)
Theorem attributes_from_line (line : string) (a : Annotation) :
  parseLine p line = Done (Some a) →
  (∀ k v, Args a !! k = Some v →
     Contains line v = true ∨
     (k = "required" ∧ v = "true") ∨
     (k = "status" ∧ (v = "200" ∨ v = "500")) ∨
     (k = "names" ∧ v = Join (Tags a) ",")) ∧
  (∀ t, t ∈ Tags a → Contains line t = true).
Proof.
  intros H. pose proof (parseLine_stage _ _ H) as Hs.
  destruct (Type_ a) eqn:Hty;
    try (apply parseSimplePatterns_pieces in Hs as [Hargs ->];
         split; [intros k v Hv; left; eauto|by intros t ?%elem_of_nil]).
  - (* webhook *)
    apply parseWebhookPattern_inv in Hs
      as [(m0 & m1 & m2 & m3 & E & ->)|[(m0 & m1 & m2 & E & ->)
         |(m0 & m1 & m2 & m3 & E & ->)]]; try done.
    split; [|by intros t ?%elem_of_nil]. intros k v Hv. simpl in Hv.
    arg_cases Hv; left; piece E.
  - apply parseWebhookPattern_inv in Hs
      as [(m0 & m1 & m2 & m3 & E & ->)|[(m0 & m1 & m2 & E & ->)
         |(m0 & m1 & m2 & m3 & E & ->)]]; try done.
    split; [|by intros t ?%elem_of_nil]. intros k v Hv. simpl in Hv.
    arg_cases Hv; left; piece E.
  - apply parseWebhookPattern_inv in Hs
      as [(m0 & m1 & m2 & m3 & E & ->)|[(m0 & m1 & m2 & E & ->)
         |(m0 & m1 & m2 & m3 & E & ->)]]; try done.
    split; [|by intros t ?%elem_of_nil]. intros k v Hv. simpl in Hv.
    arg_cases Hv; left; piece E.
  - (* route *)
    apply parseRoutePattern_inv in Hs as (m0 & m1 & m2 & m3 & m4 & E & ->).
    destruct (routePattern_method _ _ _ _ _ _ E) as [_ Hup]. split.
    + intros k v Hv. simpl in Hv. rewrite Hup in Hv.
      arg_cases Hv; left; piece E.
    + intros t Ht. simpl in Ht. apply hash_words_elem in Ht as [Ht _].
      apply (Contains_trans _ _ _ Ht), Contains_tail.
  - apply parseParamPattern_inv in Hs
      as (m0 & m1 & m2 & m3 & m4 & args & E & -> & Hargs).
    split; [|by intros t ?%elem_of_nil]. intros k v Hv.
    destruct (Hargs k v Hv) as [Hin|(-> & d0 & d & Ed & ->)].
    + repeat (apply elem_of_cons in Hin as [[= -> ->]|Hin]);
        [left; piece E..|by right; left|by apply elem_of_nil in Hin].
    + left. apply (Contains_trans _ d); [piece Ed|apply Contains_Trim].
  - apply parseParamPattern_inv in Hs
      as (m0 & m1 & m2 & m3 & m4 & args & E & -> & Hargs).
    split; [|by intros t ?%elem_of_nil]. intros k v Hv.
    destruct (Hargs k v Hv) as [Hin|(-> & d0 & d & Ed & ->)].
    + repeat (apply elem_of_cons in Hin as [[= -> ->]|Hin]);
        [left; piece E..|by right; left|by apply elem_of_nil in Hin].
    + left. apply (Contains_trans _ d); [piece Ed|apply Contains_Trim].
  - apply parseParamPattern_inv in Hs
      as (m0 & m1 & m2 & m3 & m4 & args & E & -> & Hargs).
    split; [|by intros t ?%elem_of_nil]. intros k v Hv.
    destruct (Hargs k v Hv) as [Hin|(-> & d0 & d & Ed & ->)].
    + repeat (apply elem_of_cons in Hin as [[= -> ->]|Hin]);
        [left; piece E..|by right; left|by apply elem_of_nil in Hin].
    + left. apply (Contains_trans _ d); [piece Ed|apply Contains_Trim].
  - apply parseBodyPattern_inv in Hs as (m0 & m1 & m2 & E & ->).
    split; [|by intros t ?%elem_of_nil]. intros k v Hv. simpl in Hv.
    destruct (Contains line " required"); arg_cases Hv;
      first [left; piece E|by right; left].
  - apply parseResponsePattern_inv in Hs as (m0 & m1 & m2 & m3 & m4 & E & ->).
    split; [|by intros t ?%elem_of_nil]. intros k v Hv. simpl in Hv.
    arg_cases Hv; try (left; piece E).
    cbv zeta.
    destruct (String.eqb m1 "ok"), (String.eqb m1 "error"),
      (String.eqb m2 EmptyString) eqn:E2; simpl; rewrite ?E2;
      first [left; piece E|right; right; left; split; [done|]; by auto].
  - apply parseResponsePattern_inv in Hs as (m0 & m1 & m2 & m3 & m4 & E & ->).
    split; [|by intros t ?%elem_of_nil]. intros k v Hv. simpl in Hv.
    arg_cases Hv; try (left; piece E).
    cbv zeta.
    destruct (String.eqb m1 "ok"), (String.eqb m1 "error"),
      (String.eqb m2 EmptyString) eqn:E2; simpl; rewrite ?E2;
      first [left; piece E|right; right; left; split; [done|]; by auto].
  - apply parseSecurePattern_inv in Hs as (m0 & m1 & E & ->). split.
    + intros k v Hv. simpl in Hv. arg_cases Hv. by right; right; right.
    + intros t Ht. simpl in Ht. apply Fields_elem in Ht as [Ht _].
      apply (Contains_trans _ m1); [piece E|done].
  - apply parseModelPattern_inv in Hs as (m0 & m1 & E & ->).
    split; [|by intros t ?%elem_of_nil]. intros k v Hv. simpl in Hv.
    arg_cases Hv. left; piece E.
  - apply parseFieldPattern_inv in Hs
      as (m0 & m1 & m2 & m3 & args & E & -> & Hargs).
    split; [|by intros t ?%elem_of_nil]. intros k v Hv.
    destruct (Hargs k v Hv) as [Hin|(-> & e0 & e & Ee & ->)].
    + repeat (apply elem_of_cons in Hin as [[= -> ->]|Hin]);
        [left; piece E..|by right; left|by apply elem_of_nil in Hin].
    + left. apply (Contains_trans _ e); [piece Ee|apply Contains_Trim].
Qed.

End Sources.

Lemma attributes_from_line_witness :
  (∀ k v, Args route_annotation !! k = Some v →
     Contains route_line v = true ∨
     (k = "required" ∧ v = "true") ∨
     (k = "status" ∧ (v = "200" ∨ v = "500")) ∨
     (k = "names" ∧ v = Join (Tags route_annotation) ",")) ∧
  (∀ t, t ∈ Tags route_annotation → Contains route_line t = true).
Proof.
  apply (attributes_from_line route_line route_annotation).
  vm_compute. reflexivity.
Defined.

(** ** The shape of the attributes *)

Ltac group_of E i body Hm :=
let b := fresh "b" in
let Hin := fresh "Hin" in
destruct (FindStringSubmatch_mandatory _ _ _ i _ E eq_refl eq_refl)
  as (b & ? & ? & Hin & Hm);
change (b ∈ [body]) in Hin; apply list_elem_of_singleton in Hin as ->.

Ltac optional_group_of E i body Hm :=
let b := fresh "b" in
let Hin := fresh "Hin" in
destruct (FindStringSubmatch_capture _ _ _ i _ E eq_refl)
  as [_ [->|(b & ? & ? & Hin & Hm)]];
[|change (b ∈ [body]) in Hin; apply list_elem_of_singleton in Hin as ->].

Section Shapes.

Local Abbreviation p := NewAnnotationParser.

Lemma matches_plus_shape (q : ascii → bool) w cs cs' :
  matches (Plus q) w cs cs' → w ≠ EmptyString ∧ all q w = true.
Proof.
  intros (_ & Hall & Hhead)%matches_plus. split; [|done].
  by destruct w.
Qed.

Lemma matches_star_shape (q : ascii → bool) w cs cs' :
  matches (Star q) w cs cs' → all q w = true.
Proof. by inversion 1. Qed.

(** X5. A route annotation names one of the seven methods, in capitals;
    its path and its operation id are not empty and hold no white space;
    its summary holds no double quote. *)
Theorem route_shape (line : string) (a : Annotation) :
  parseLine p line = Done (Some a) → Type_ a = AnnotationRoute →
  let r := GetRoute a in
  route_Method r ∈ ["GET"; "POST"; "PUT"; "DELETE"; "PATCH"; "OPTIONS"; "HEAD"] ∧
  route_Path r ≠ EmptyString ∧ all (non space) (route_Path r) = true ∧
  route_OperationID r ≠ EmptyString ∧
  all (non space) (route_OperationID r) = true ∧
  all (non (chr dquote)) (route_Summary r) = true.
Proof.
  intros H Hty. pose proof (parseLine_stage _ _ H) as Hs. rewrite Hty in Hs.
  apply parseRoutePattern_inv in Hs as (m0 & m1 & m2 & m3 & m4 & E & ->).
  destruct (routePattern_method _ _ _ _ _ _ E) as [Hm Hup].
  group_of E 1 (Plus (non space)) H2. apply matches_plus_shape in H2 as [? ?].
  group_of E 2 (Plus (non space)) H3. apply matches_plus_shape in H3 as [? ?].
  assert (all (non (chr dquote)) m4 = true).
  { optional_group_of E 3 (Star (non (chr dquote))) H4; [done|].
    by apply matches_star_shape in H4. }
  simpl. unfold GetRoute. simpl. rewrite Hup. done.
Qed.

Lemma route_shape_witness :
  let r := GetRoute route_annotation in
  route_Method r ∈ ["GET"; "POST"; "PUT"; "DELETE"; "PATCH"; "OPTIONS"; "HEAD"] ∧
  route_Path r ≠ EmptyString ∧ all (non space) (route_Path r) = true ∧
  route_OperationID r ≠ EmptyString ∧
  all (non space) (route_OperationID r) = true ∧
  all (non (chr dquote)) (route_Summary r) = true.
Proof.
  apply (route_shape route_line route_annotation).
  - vm_compute. reflexivity.
  - reflexivity.
Defined.

(** X6. The kind of a parameter annotation follows its location: [path]
    gives a path parameter, [header] a header parameter, [query] and
    [cookie] a query parameter, and there is no other location.  The name
    is a run of word bytes and hyphens, the type a run of word bytes,
    neither empty; the description holds no double quote. *)
Theorem param_shape (line : string) (a : Annotation) :
  parseLine p line = Done (Some a) →
  Type_ a ∈ [AnnotationQuery; AnnotationPath; AnnotationHeader] →
  let r := GetParam a in
  (param_In r = "path" ∧ Type_ a = AnnotationPath ∨
   param_In r = "header" ∧ Type_ a = AnnotationHeader ∨
   (param_In r = "query" ∨ param_In r = "cookie") ∧ Type_ a = AnnotationQuery) ∧
  param_Name r ≠ EmptyString ∧
  all (either word (chr "-")) (param_Name r) = true ∧
  param_Type r ≠ EmptyString ∧ all word (param_Type r) = true ∧
  all (non (chr dquote)) (param_Description r) = true.
Proof.
  intros H Hty. pose proof (parseLine_stage _ _ H) as Hs.
  assert (parseParamPattern p line = Done (Some a)) as Hp.
  { repeat (apply elem_of_cons in Hty as [Hty|Hty]; [by rewrite Hty in Hs|]).
    by apply elem_of_nil in Hty. }
  clear Hs Hty.
  apply parseParamPattern_args in Hp
    as (m0 & m1 & m2 & m3 & m4 & E & Ht & Hin & Hname & Htype & Hdesc).
  destruct (paramPattern_keyword _ _ E) as (kw & tail & Hkw & _ & [= <-]).
  group_of E 1 (Plus (either word (chr "-"))) H2.
  apply matches_plus_shape in H2 as [? ?].
  group_of E 2 (Plus word) H3. apply matches_plus_shape in H3 as [? ?].
  assert (all (non (chr dquote)) m4 = true).
  { optional_group_of E 3 (Star (non (chr dquote))) H4; [done|].
    by apply matches_star_shape in H4. }
  simpl. rewrite Hin, Hname, Htype, Hdesc, Ht. split; [|done].
  repeat (apply elem_of_cons in Hkw as [->|Hkw]); simpl; auto.
  by apply elem_of_nil in Hkw.
Qed.

Lemma param_shape_witness :
  let r := GetParam cookie_annotation in
  (param_In r = "path" ∧ Type_ cookie_annotation = AnnotationPath ∨
   param_In r = "header" ∧ Type_ cookie_annotation = AnnotationHeader ∨
   (param_In r = "query" ∨ param_In r = "cookie") ∧
     Type_ cookie_annotation = AnnotationQuery) ∧
  param_Name r ≠ EmptyString ∧
  all (either word (chr "-")) (param_Name r) = true ∧
  param_Type r ≠ EmptyString ∧ all word (param_Type r) = true ∧
  all (non (chr dquote)) (param_Description r) = true.
Proof.
  apply (param_shape "!cookie sid:string" cookie_annotation).
  - vm_compute. reflexivity.
  - apply list_elem_of_here.
Defined.

(** X7. The status of a response annotation is a number: it is never
    empty and holds decimal digits only, whether the line writes it out or
    leaves it to the default; the schema is one token, without white
    space. *)
Theorem response_status_number (line : string) (a : Annotation) :
  parseLine p line = Done (Some a) →
  Type_ a ∈ [AnnotationOK; AnnotationError] →
  let r := GetResponse a in
  response_Status r ≠ EmptyString ∧ all digit (response_Status r) = true ∧
  response_Schema r ≠ EmptyString ∧ all (non space) (response_Schema r) = true.
Proof.
  intros H Hty. pose proof (parseLine_stage _ _ H) as Hs.
  assert (parseResponsePattern p line = Done (Some a)) as Hp.
  { repeat (apply elem_of_cons in Hty as [Hty|Hty]; [by rewrite Hty in Hs|]).
    by apply elem_of_nil in Hty. }
  clear Hs Hty.
  apply parseResponsePattern_inv in Hp as (m0 & m1 & m2 & m3 & m4 & E & ->).
  group_of E 0 (one_of ["ok"; "error"]) H1.
  apply matches_one_of in H1 as [Hkw _].
  group_of E 2 (Plus (non space)) H3. apply matches_plus_shape in H3 as [? ?].
  assert (m2 = EmptyString ∨ m2 ≠ EmptyString ∧ all digit m2 = true) as Hm2.
  { optional_group_of E 1 (Plus digit) H2; [by left|].
    right. by apply matches_plus_shape in H2. }
  simpl. unfold GetResponse. simpl. split; [|split]; [..|done].
  - repeat (apply elem_of_cons in Hkw as [->|Hkw]);
      [..|by apply elem_of_nil in Hkw];
      destruct Hm2 as [->|[Hne _]]; simpl; try done;
      by destruct m2.
  - repeat (apply elem_of_cons in Hkw as [->|Hkw]);
      [..|by apply elem_of_nil in Hkw];
      destruct Hm2 as [->|[Hne Hd]]; simpl; try done;
      by destruct m2.
Qed.

Lemma response_status_number_witness :
  let r := GetResponse ok_annotation in
  response_Status r ≠ EmptyString ∧ all digit (response_Status r) = true ∧
  response_Schema r ≠ EmptyString ∧ all (non space) (response_Schema r) = true.
Proof.
  apply (response_status_number ok_line ok_annotation).
  - vm_compute. reflexivity.
  - apply list_elem_of_here.
Defined.

(** X8. A security annotation names one of the four scheme types; its
    name is a run of word bytes that is not empty, its location a run of
    word bytes that may be empty, and its url holds no white space. *)
Theorem security_shape (line : string) (a : Annotation) :
  parseLine p line = Done (Some a) → Type_ a = AnnotationSecurity →
  let r := GetSecurity a in
  security_Type r ∈ ["apiKey"; "oauth2"; "http"; "openIdConnect"] ∧
  security_Name r ≠ EmptyString ∧ all word (security_Name r) = true ∧
  all word (security_Location r) = true ∧
  all (non (chr dquote)) (security_Description r) = true ∧
  all (non space) (security_URL r) = true.
Proof.
  intros H Hty. simple_stage H Hty E F.
  group_of E 0 (Plus word) H1. apply matches_plus_shape in H1 as [? ?].
  group_of E 1 (one_of ["apiKey"; "oauth2"; "http"; "openIdConnect"]) H2.
  apply matches_one_of in H2 as [? _].
  group_of E 2 (Star word) H3. apply matches_star_shape in H3.
  match goal with
  | E : FindStringSubmatch _ _ = Some [_; _; _; _; ?m4; ?m5] |- _ =>
      assert (all (non (chr dquote)) m4 = true);
      [optional_group_of E 3 (Star (non (chr dquote))) H4; [done|];
       by apply matches_star_shape in H4|];
      assert (all (non space) m5 = true);
      [optional_group_of E 4 (Plus (non space)) H5; [done|];
       by apply matches_plus_shape in H5 as [_ ?]|]
  end.
  simpl. unfold GetSecurity. rewrite <- F. done.
Qed.

Lemma security_shape_witness :
  let r := GetSecurity security_annotation in
  security_Type r ∈ ["apiKey"; "oauth2"; "http"; "openIdConnect"] ∧
  security_Name r ≠ EmptyString ∧ all word (security_Name r) = true ∧
  all word (security_Location r) = true ∧
  all (non (chr dquote)) (security_Description r) = true ∧
  all (non space) (security_URL r) = true.
Proof.
  apply (security_shape security_line security_annotation).
  - vm_compute. reflexivity.
  - reflexivity.
Defined.

(** X9. A webhook annotation keeps the method as the line writes it, in
    small letters, one of five, and the typed view answers that same
    method in capitals: get gives GET, post POST, put PUT, delete DELETE
    and patch PATCH.  The view's name is the name stored, a run of word
    bytes that is not empty. *)
Theorem webhook_method_capitals (line : string) (a : Annotation) :
  parseLine p line = Done (Some a) → Type_ a = AnnotationWebhook →
  ∃ r, GetWebhook a = Some r ∧
    (Args a !!! "method", webhook_Method r) ∈
      [("get", "GET"); ("post", "POST"); ("put", "PUT");
       ("delete", "DELETE"); ("patch", "PATCH")] ∧
    webhook_Name r = Args a !!! "name" ∧
    webhook_Description r = Args a !!! "description" ∧
    webhook_Name r ≠ EmptyString ∧ all word (webhook_Name r) = true.
Proof.
  intros H Hty. webhook_stage H Hty E.
  group_of E 0 (Plus word) H1. apply matches_plus_shape in H1 as [? ?].
  group_of E 1 (one_of ["get"; "post"; "put"; "delete"; "patch"]) H2.
  apply matches_one_of in H2 as [Hkw _].
  repeat (apply elem_of_cons in Hkw as [->|Hkw]);
    [..|by apply elem_of_nil in Hkw];
    (eexists; split; [reflexivity|]); simpl;
    (split; [|done]);
    by repeat first [apply list_elem_of_here | apply list_elem_of_further].
Qed.

Lemma webhook_method_capitals_witness :
  let a := mkAnnotation AnnotationWebhook "!webhook newOrder:post"
             (args [("name", "newOrder"); ("method", "post");
                    ("description", EmptyString)]) [] in
  ∃ r, GetWebhook a = Some r ∧
    (Args a !!! "method", webhook_Method r) ∈
      [("get", "GET"); ("post", "POST"); ("put", "PUT");
       ("delete", "DELETE"); ("patch", "PATCH")] ∧
    webhook_Name r = Args a !!! "name" ∧
    webhook_Description r = Args a !!! "description" ∧
    webhook_Name r ≠ EmptyString ∧ all word (webhook_Name r) = true.
Proof.
  apply (webhook_method_capitals "!webhook newOrder:post").
  - vm_compute. reflexivity.
  - reflexivity.
Defined.

(** X10. A webhook body counts as required as soon as the letters
    [required] stand anywhere in its line, also inside the schema name or
    the description; the lexer itself stores no [required] attribute for
    it. *)
Theorem webhook_body_required (line : string) (a : Annotation) :
  parseLine p line = Done (Some a) → Type_ a = AnnotationWebhookBody →
  Args a !! "required" = None ∧
  (webhook_body_Required (GetWebhookBody a) = true ↔
   ∃ pre post, line = pre +:+ "required" +:+ post).
Proof.
  intros H Hty. webhook_stage H Hty E. split; [done|].
  unfold GetWebhookBody. simpl. apply Contains_spec.
Qed.

Lemma webhook_body_required_witness :
  let a := mkAnnotation AnnotationWebhookBody "!webhook-body required_fields"
             (args [("schema", "required_fields");
                    ("description", EmptyString)]) [] in
  Args a !! "required" = None ∧
  (webhook_body_Required (GetWebhookBody a) = true ↔
   ∃ pre post,
     "!webhook-body required_fields" = pre +:+ "required" +:+ post).
Proof.
  apply (webhook_body_required "!webhook-body required_fields").
  - vm_compute. reflexivity.
  - reflexivity.
Defined.

(** X11. The status of a webhook response is written out: it is a run of
    decimal digits that is not empty, and the schema is one token. *)
Theorem webhook_response_status (line : string) (a : Annotation) :
  parseLine p line = Done (Some a) → Type_ a = AnnotationWebhookResponse →
  let r := GetWebhookResponse a in
  webhook_response_Status r ≠ EmptyString ∧
  all digit (webhook_response_Status r) = true ∧
  Contains line (webhook_response_Status r) = true ∧
  webhook_response_Schema r ≠ EmptyString ∧
  all (non space) (webhook_response_Schema r) = true.
Proof.
  intros H Hty. webhook_stage H Hty E.
  group_of E 0 (Plus digit) H1. apply matches_plus_shape in H1 as [? ?].
  group_of E 1 (Plus (non space)) H2. apply matches_plus_shape in H2 as [? ?].
  unfold GetWebhookResponse. simpl. repeat split; try done. piece E.
Qed.

Lemma webhook_response_status_witness :
  let r := GetWebhookResponse
             (mkAnnotation AnnotationWebhookResponse
                "!webhook-response 200 SuccessResponse"
                (args [("status", "200"); ("schema", "SuccessResponse");
                       ("description", EmptyString)]) []) in
  webhook_response_Status r ≠ EmptyString ∧
  all digit (webhook_response_Status r) = true ∧
  Contains "!webhook-response 200 SuccessResponse"
    (webhook_response_Status r) = true ∧
  webhook_response_Schema r ≠ EmptyString ∧
  all (non space) (webhook_response_Schema r) = true.
Proof.
  apply (webhook_response_status "!webhook-response 200 SuccessResponse").
  - vm_compute. reflexivity.
  - reflexivity.
Defined.

End Shapes.

(** ** Keywords *)

Section KeywordFacts.

Local Abbreviation p := NewAnnotationParser.

Lemma run_plus_nohead {R} q s cs (k : string → string → caps → option R) :
  head_is q s = false → run (Plus q) s cs k = None.
Proof. destruct s as [|c s]; simpl; [done|]. by intros ->. Qed.

Lemma modelPattern_prefix rest :
  ∃ m0 m1,
    FindStringSubmatch (modelPattern p) ("!model" +:+ rest) = Some [m0; m1] ∧
    (head_is space rest = false → m1 = EmptyString).
Proof.
  destruct (FindStringSubmatch (modelPattern p) ("!model" +:+ rest))
    as [m|] eqn:E.
  - match_shape E. eexists _, _. split; [done|]. intros Hh.
    unfold FindStringSubmatch, exec in E. simpl anchored in E.
    simpl expr in E. rewrite run_seq, run_lit_append in E.
    unfold opt_quoted in E. rewrite run_opt_skip in E.
    + simpl in E. by injection E as _ <-.
    + unfold ws. rewrite run_seq. by apply run_plus_nohead.
  - exfalso. unfold FindStringSubmatch, exec in E. simpl anchored in E.
    simpl expr in E. rewrite run_seq, run_lit_append in E.
    apply fmap_None in E. unfold opt_quoted in E.
    match type of E with
    | run (Opt ?r) ?s ?cs ?k = None =>
        destruct (run_opt_total r s cs k) as [x Hx]
    end.
    + by intros ???; eexists.
    + by rewrite E in Hx.
Qed.

(** X12. The model grammar asks for nothing after its keyword: every line
    that begins with [!model] is a model directive, whatever follows, and
    its description is empty unless white space follows the keyword. *)
Theorem model_prefix (rest : string) :
  ∃ a, parseLine p ("!model" +:+ rest) = Done (Some a) ∧
    Type_ a = AnnotationModel ∧
    (head_is space rest = false → model_Description (GetModel a) = EmptyString).
Proof.
  destruct (modelPattern_prefix rest) as (m0 & m1 & E & Hm1).
  unfold parseLine.
  assert (parseSimplePatterns p ("!model" +:+ rest) = Done None) as ->
    by (vm_compute; reflexivity).
  assert (parseRoutePattern p ("!model" +:+ rest) = Done None) as ->
    by (vm_compute; reflexivity).
  assert (parseParamPattern p ("!model" +:+ rest) = Done None) as ->
    by (vm_compute; reflexivity).
  assert (parseBodyPattern p ("!model" +:+ rest) = Done None) as ->
    by (vm_compute; reflexivity).
  assert (parseResponsePattern p ("!model" +:+ rest) = Done None) as ->
    by (vm_compute; reflexivity).
  assert (parseSecurePattern p ("!model" +:+ rest) = Done None) as ->
    by (vm_compute; reflexivity).
  assert (parseWebhookPattern p ("!model" +:+ rest) = Done None) as ->
    by (vm_compute; reflexivity).
  rewrite !or_else_skip. unfold parseModelPattern. rewrite E. simpl.
  eexists. split; [done|]. split; [done|]. intros Hh.
  unfold GetModel. simpl. by rewrite (Hm1 Hh).
Qed.

Lemma keyword_line re line m kw r :
  FindStringSubmatch re line = Some m → anchored re = true →
  expr re = Seq (Lit kw) (Seq ws r) →
  ∃ tail, line = kw +:+ tail ∧ head_is space tail = true.
Proof.
  unfold FindStringSubmatch. intros H Ha He. rewrite Ha, He in H.
  apply fmap_Some in H as ([w cs] & H & _).
  apply exec_sound in H as (s' & cs' & -> & M & _).
  inversion M as [| | |? ? w1 w23 ? cs1 ? M1 M23| | | | |]; subst.
  inversion M1; subst.
  inversion M23 as [| | |? ? w2 w3 ? cs2 ? M2 M3| | | | |]; subst.
  apply matches_plus in M2 as (_ & _ & Hh).
  exists ((w2 +:+ w3) +:+ s'). split; [by rewrite append_assoc|].
  rewrite append_assoc. by apply head_is_append.
Qed.

Lemma keywords_line re line m kws r :
  FindStringSubmatch re line = Some m → anchored re = true →
  expr re = Seq (Lit "!") (Seq (Grp 1 (one_of kws)) (Seq ws r)) →
  1 ∉ groups r →
  ∃ kw tail, kw ∈ kws ∧ line = "!" +:+ kw +:+ tail ∧
    head_is space tail = true ∧ m !! 1 = Some kw.
Proof.
  unfold FindStringSubmatch. intros H Ha He Hfr. rewrite Ha, He in H.
  apply fmap_Some in H as ([w cs] & H & ->).
  apply exec_sound in H as (s' & cs' & -> & M & ->).
  inversion M as [| | |? ? w1 w23 ? cs1 ? M1 M23| | | | |]; subst.
  inversion M1; subst.
  inversion M23 as [| | |? ? w2 w34 ? cs2 ? M2 M34| | | | |]; subst.
  inversion M2 as [| | | | | | | |? ? ? ? cs2' M2']; subst.
  apply matches_one_of in M2' as [Hkw ->].
  inversion M34 as [| | |? ? w3 w4 ? cs3 ? M3 M4| | | | |]; subst.
  apply matches_plus in M3 as (-> & _ & Hh).
  exists w2, ((w3 +:+ w4) +:+ s'). split; [done|]. split; [|split].
  - by rewrite !append_assoc.
  - rewrite append_assoc. by apply head_is_append.
  - apply submatches_lookup. simpl.
    rewrite list_lookup_insert_ne by done.
    rewrite (matches_frame _ _ _ _ 1 M4 Hfr).
    apply list_lookup_insert_eq. simpl. rewrite length_replicate. lia.
Qed.

Ltac literal_keyword E :=
match goal with
| |- ∃ kw tail, kw ∈ [?k] ∧ _ =>
    let tail := fresh "tail" in
    let Hh := fresh "Hh" in
    destruct (keyword_line _ _ _ (String "!" k) _ E eq_refl eq_refl)
      as (tail & -> & Hh);
    exists k, tail; split; [apply list_elem_of_here|]; split; [done|];
    by intros _
end.

(** X13. The kind of an annotation is the kind of the keyword its line
    begins with, and, the model keyword apart, white space follows the
    keyword: the first token of the line decides the kind, so no line is
    read as a directive of two kinds. *)
Theorem kind_follows_keyword (line : string) (a : Annotation) :
  parseLine p line = Done (Some a) →
  ∃ kw tail, kw ∈ kind_keywords (Type_ a) ∧ line = "!" +:+ kw +:+ tail ∧
    (Type_ a ≠ AnnotationModel → head_is space tail = true).
Proof.
  intros H. destruct (Type_ a) eqn:Hty; simpl kind_keywords.
  1-11: simple_stage H Hty E F; literal_keyword E.
  1-3: webhook_stage H Hty E; literal_keyword E.
  - pose proof (parseLine_stage _ _ H) as Hs. rewrite Hty in Hs.
    apply parseRoutePattern_inv in Hs as (m0 & m1 & m2 & m3 & m4 & E & ->).
    destruct (keywords_line _ _ _
                ["GET"; "POST"; "PUT"; "DELETE"; "PATCH"; "OPTIONS"; "HEAD"]
                _ E eq_refl eq_refl) as (kw & tail & Hkw & -> & Hh & _);
      [not_in_groups|].
    by exists kw, tail.
  - pose proof (parseLine_stage _ _ H) as Hs. rewrite Hty in Hs.
    apply parseParamPattern_args in Hs as (m0 & m1 & m2 & m3 & m4 & E & Ht & _).
    destruct (keywords_line _ _ _ ["query"; "path"; "header"; "cookie"]
                _ E eq_refl eq_refl) as (kw & tail & Hkw & -> & Hh & [= <-]);
      [not_in_groups|].
    rewrite Hty in Ht. exists m1, tail.
    repeat (apply elem_of_cons in Hkw as [->|Hkw]);
      [..|by apply elem_of_nil in Hkw]; try discriminate Ht;
      (split; [|done]);
      by repeat first [apply list_elem_of_here | apply list_elem_of_further].
  - pose proof (parseLine_stage _ _ H) as Hs. rewrite Hty in Hs.
    apply parseParamPattern_args in Hs as (m0 & m1 & m2 & m3 & m4 & E & Ht & _).
    destruct (keywords_line _ _ _ ["query"; "path"; "header"; "cookie"]
                _ E eq_refl eq_refl) as (kw & tail & Hkw & -> & Hh & [= <-]);
      [not_in_groups|].
    rewrite Hty in Ht. exists m1, tail.
    repeat (apply elem_of_cons in Hkw as [->|Hkw]);
      [..|by apply elem_of_nil in Hkw]; try discriminate Ht;
      (split; [|done]);
      by repeat first [apply list_elem_of_here | apply list_elem_of_further].
  - pose proof (parseLine_stage _ _ H) as Hs. rewrite Hty in Hs.
    apply parseParamPattern_args in Hs as (m0 & m1 & m2 & m3 & m4 & E & Ht & _).
    destruct (keywords_line _ _ _ ["query"; "path"; "header"; "cookie"]
                _ E eq_refl eq_refl) as (kw & tail & Hkw & -> & Hh & [= <-]);
      [not_in_groups|].
    rewrite Hty in Ht. exists m1, tail.
    repeat (apply elem_of_cons in Hkw as [->|Hkw]);
      [..|by apply elem_of_nil in Hkw]; try discriminate Ht;
      (split; [|done]);
      by repeat first [apply list_elem_of_here | apply list_elem_of_further].
  - pose proof (parseLine_stage _ _ H) as Hs. rewrite Hty in Hs.
    apply parseBodyPattern_inv in Hs as (m0 & m1 & m2 & E & ->).
    literal_keyword E.
  - pose proof (parseLine_stage _ _ H) as Hs. rewrite Hty in Hs.
    apply parseResponsePattern_inv in Hs as (m0 & m1 & m2 & m3 & m4 & E & ->).
    destruct (keywords_line _ _ _ ["ok"; "error"]
                _ E eq_refl eq_refl) as (kw & tail & Hkw & -> & Hh & [= <-]);
      [not_in_groups|].
    exists m1, tail.
    repeat (apply elem_of_cons in Hkw as [->|Hkw]);
      [..|by apply elem_of_nil in Hkw]; try discriminate Hty;
      (split; [|done]); apply list_elem_of_here.
  - pose proof (parseLine_stage _ _ H) as Hs. rewrite Hty in Hs.
    apply parseResponsePattern_inv in Hs as (m0 & m1 & m2 & m3 & m4 & E & ->).
    destruct (keywords_line _ _ _ ["ok"; "error"]
                _ E eq_refl eq_refl) as (kw & tail & Hkw & -> & Hh & [= <-]);
      [not_in_groups|].
    exists m1, tail.
    repeat (apply elem_of_cons in Hkw as [->|Hkw]);
      [..|by apply elem_of_nil in Hkw]; try discriminate Hty;
      (split; [|done]); apply list_elem_of_here.
  - pose proof (parseLine_stage _ _ H) as Hs. rewrite Hty in Hs.
    apply parseSecurePattern_inv in Hs as (m0 & m1 & E & ->).
    literal_keyword E.
  - pose proof (parseLine_stage _ _ H) as Hs. rewrite Hty in Hs.
    apply parseModelPattern_inv in Hs as (m0 & m1 & E & ->).
    unfold FindStringSubmatch in E.
    apply fmap_Some in E as (x & E & _). apply exec_lit_prefix in E.
    apply prefix_strip in E as [rest ->]. exists "model", rest.
    split; [apply list_elem_of_here|]. split; [done|]. by intros [].
  - pose proof (parseLine_stage _ _ H) as Hs. rewrite Hty in Hs.
    apply parseFieldPattern_args in Hs as (m0 & m1 & m2 & m3 & E & _).
    literal_keyword E.
Qed.

Lemma kind_follows_keyword_witness :
  ∃ kw tail, kw ∈ kind_keywords (Type_ path_annotation) ∧
    path_line = "!" +:+ kw +:+ tail ∧
    (Type_ path_annotation ≠ AnnotationModel → head_is space tail = true).
Proof.
  apply (kind_follows_keyword path_line path_annotation).
  vm_compute. reflexivity.
Defined.

End KeywordFacts.

(** ** The names of a [!secure] line *)

Section SecureNames.

Local Abbreviation p := NewAnnotationParser.

Lemma space_width_rune (runes : list string) (s : string) w :
  space_width runes s = S w →
  ∃ r, r ∈ runes ∧ s = r +:+ drop (S w) s.
Proof.
  unfold space_width.
  destruct (List.find (HasPrefix s) runes) as [r|] eqn:E; [|done].
  apply find_some in E as [Hin Hr]. intros Hlen. exists r.
  split; [by apply list_elem_of_In|].
  apply prefix_strip in Hr as [rest ->]. rewrite <- Hlen.
  by rewrite drop_length_append.
Qed.

Lemma fields_cur_nonempty (s : string) : ∀ c cur,
  fields s (String c cur) 0 ≠ [].
Proof.
  induction s as [|b s IH]; intros c cur; [done|].
  rewrite fields_cons.
  destruct (space_width space_runes (String b s)); [apply IH|done].
Qed.

(** A text without fields is empty or ends with white space. *)
Lemma fields_empty (s : string) : ∀ skip,
  fields s EmptyString skip = [] →
  drop skip s = EmptyString ∨ ends_with_space (drop skip s).
Proof.
  induction s as [|c s IH]; intros skip; [by destruct skip; left|].
  rewrite fields_cons. destruct skip as [|n]; [|apply IH].
  destruct (space_width space_runes (String c s)) as [|w] eqn:E.
  - intros H. by apply fields_cur_nonempty in H.
  - intros H. simpl in H. right.
    destruct (space_width_rune _ _ _ E) as (r & Hr & Hs).
    change (drop 0 (String c s)) with (String c s). rewrite Hs.
    change (drop (S w) (String c s)) with (drop w s).
    destruct (IH w H) as [->|(pre & r' & Hr' & ->)].
    + exists EmptyString, r. by rewrite append_nil_r.
    + exists (r +:+ pre), r'. by rewrite append_assoc.
Qed.

(** What [strings.TrimSpace] answers ends with no white space. *)
Lemma TrimSpace_no_trailing (s : string) : ¬ ends_with_space (TrimSpace s).
Proof.
  unfold TrimSpace, TrimRightSpace. set (u := TrimLeftSpace s).
  set (v := trim_left (map rev space_runes) (String.length u) (rev u)).
  assert (space_width (map rev space_runes) v = 0) as Hv.
  { apply trim_left_head. by rewrite length_rev. }
  apply space_width_zero in Hv; [|apply rev_space_runes_nonempty].
  intros (pre & r & Hr & Hrev).
  apply (f_equal rev) in Hrev. rewrite rev_involutive, rev_app in Hrev.
  assert (In (rev r) (map rev space_runes)) as Hin.
  { apply in_map. by apply list_elem_of_In. }
  apply (find_none _ _ Hv) in Hin. rewrite Hrev in Hin.
  unfold HasPrefix in Hin.
  assert (String.prefix (rev r) (rev r +:+ rev pre) = true) as Hp
    by (apply prefix_strip; by eexists).
  by rewrite Hp in Hin.
Qed.

Lemma star_total {R} q s (k : string → string → option R) :
  (∀ w rest, is_Some (k w rest)) →
  star q s k = k (take_while q s) (drop_while q s).
Proof.
  intros Hk. destruct (Hk (take_while q s) (drop_while q s)) as [x Hx].
  rewrite Hx. by apply star_first.
Qed.

(** On a line without a line break the names of the secure grammar run
    to the end of the line; white space alone stands between them and the
    keyword. *)
Lemma securePattern_suffix line m0 m1 :
  all (non (chr nl)) line = true →
  FindStringSubmatch (securePattern p) line = Some [m0; m1] →
  m1 ≠ EmptyString ∧
  ∃ sp, all space sp = true ∧ line = "!secure" +:+ sp +:+ m1.
Proof.
  intros Hline E. unfold FindStringSubmatch, exec in E.
  simpl anchored in E. simpl expr in E.
  apply fmap_Some in E as ([w cs] & E & Hm).
  rewrite run_seq in E.
  apply run_sound in E as (w1 & s1 & cs1 & -> & M1 & E).
  inversion M1; subst. rewrite run_seq in E.
  apply run_sound in E as (w2 & s2 & cs2 & -> & M2 & E).
  apply matches_plus in M2 as (-> & Hsp & _).
  rewrite run_grp in E. unfold Plus in E. rewrite run_seq in E.
  destruct s2 as [|c s2]; [done|]. simpl in E.
  destruct (non (chr nl) c) eqn:Hc; [|done].
  rewrite star_total in E by (intros; by eexists).
  injection E as _ <-. simpl in Hm. injection Hm as _ ->.
  rewrite !all_append in Hline.
  apply andb_true_iff in Hline as [_ Hline].
  apply andb_true_iff in Hline as [_ Hline]. simpl in Hline.
  apply andb_true_iff in Hline as [_ Hline].
  destruct (take_while_all (non (chr nl)) s2 EmptyString Hline eq_refl)
    as [Ht _].
  rewrite append_nil_r in Ht. rewrite Ht. split; [done|].
  by exists w2.
Qed.

Lemma space_rune (c : ascii) :
  space c = true → String c EmptyString ∈ space_runes.
Proof.
  intros Hc. apply list_elem_of_In.
  destruct c as [[] [] [] [] [] [] [] []]; vm_compute in Hc;
    try discriminate Hc; vm_compute; auto 10.
Qed.

(** A byte of the class [\s] is a white-space rune of one byte. *)
Lemma space_width_space (c : ascii) (s : string) :
  space c = true → space_width space_runes (String c s) = 1.
Proof.
  intros Hc. unfold space_width.
  destruct (List.find (HasPrefix (String c s)) space_runes) as [r|] eqn:E.
  - apply find_some in E as [Hin Hr].
    apply prefix_strip in Hr as [rest Hr].
    destruct r as [|a r]; [by vm_compute in Hin; intuition discriminate|].
    rewrite append_cons in Hr. injection Hr as <- _.
    vm_compute in Hin.
    repeat (destruct Hin as [Hin|Hin];
            [injection Hin as <- <-; first [done|by vm_compute in Hc]|]).
    done.
  - apply space_rune, list_elem_of_In in Hc.
    apply (find_none _ _ E) in Hc.
    by rewrite HasPrefix1, Ascii.eqb_refl in Hc.
Qed.

(** [strings.Fields] does not see white space at the start of a text. *)
Lemma Fields_skip (sp s : string) :
  all space sp = true → Fields (sp +:+ s) = Fields s.
Proof.
  unfold Fields. induction sp as [|c sp IH]; [done|].
  intros Hall. simpl in Hall. apply andb_true_iff in Hall as [Hc Hsp].
  rewrite append_cons, fields_cons, (space_width_space _ _ Hc).
  by apply IH.
Qed.

Lemma append_snoc_split (x a b : string) (c : ascii) :
  x +:+ String c EmptyString = a +:+ b → b ≠ EmptyString →
  (b = String c EmptyString ∧ a = x) ∨
  ∃ b', b' ≠ EmptyString ∧ b = b' +:+ String c EmptyString ∧ x = a +:+ b'.
Proof.
  revert a. induction x as [|d x IH]; intros a Heq Hb.
  - change (EmptyString +:+ String c EmptyString) with (String c EmptyString)
      in Heq.
    destruct a as [|c' a].
    + left. by split.
    + rewrite append_cons in Heq. injection Heq as _ Heq.
      destruct a; [|done].
      by change (EmptyString +:+ b) with b in Heq.
  - rewrite append_cons in Heq. destruct a as [|d' a].
    + right. exists (String d x). split; [done|]. split; [|done].
      by rewrite append_cons.
    + rewrite append_cons in Heq. injection Heq as <- Heq.
      destruct (IH a Heq Hb) as [[-> ->]|(b' & Hb' & -> & ->)]; [by left|].
      right. exists b'. split; [done|]. split; [done|]. by rewrite append_cons.
Qed.

(** No white-space rune starts inside a field while it is read: [s] is
    what is left of the text. *)
Lemma fields_no_rune (s : string) : ∀ cur skip f,
  skip = 0 ∨ cur = EmptyString →
  (∀ a b, rev cur = a +:+ b → b ≠ EmptyString →
     space_width space_runes (b +:+ s) = 0) →
  f ∈ fields s cur skip →
  ∀ r, r ∈ space_runes → Contains f r = false.
Proof.
  assert (∀ cur s' f,
            (∀ a b, rev cur = a +:+ b → b ≠ EmptyString →
               space_width space_runes (b +:+ s') = 0) →
            f ∈ match cur with EmptyString => [] | _ => [rev cur] end →
            ∀ r, r ∈ space_runes → Contains f r = false) as Hflush.
  { intros cur s' f Hclean Hf r Hr.
    assert (f = rev cur) as ->.
    { destruct cur; [by apply elem_of_nil in Hf|].
      by apply list_elem_of_singleton in Hf. }
    apply not_true_iff_false.
    intros (pre & post & Heq)%Contains_spec.
    pose proof space_runes_nonempty as Hne. rewrite Forall_forall in Hne.
    specialize (Hne r Hr).
    assert (space_width space_runes ((r +:+ post) +:+ s') = 0) as Hw.
    { apply (Hclean pre); [done|]. by destruct r. }
    apply space_width_zero in Hw; [|apply space_runes_nonempty].
    apply list_elem_of_In in Hr. apply (find_none _ _ Hw) in Hr.
    unfold HasPrefix in Hr.
    assert (String.prefix r ((r +:+ post) +:+ s') = true) as Hp.
    { apply prefix_strip. exists (post +:+ s'). by rewrite append_assoc. }
    by rewrite Hp in Hr. }
  induction s as [|c s IH]; intros cur skip f Hinv Hclean.
  - rewrite fields_nil. by apply (Hflush cur EmptyString).
  - rewrite fields_cons. destruct skip as [|n].
    + destruct (space_width space_runes (String c s)) as [|w] eqn:E.
      * apply IH; [by left|]. intros a b Hab Hb. rewrite rev_cons in Hab.
        destruct (append_snoc_split _ _ _ _ Hab Hb)
          as [[-> ->]|(b' & Hb' & -> & Hcur)]; [done|].
        rewrite append_assoc. by apply (Hclean a).
      * intros [Hf|Hf]%elem_of_app; [by apply (Hflush cur (String c s))|].
        revert Hf. apply IH; [by right|].
        intros a b Hab Hb. by destruct a, b.
    + destruct Hinv as [Hz| ->]; [done|]. apply IH; [by right|].
      intros a b Hab Hb. by destruct a, b.
Qed.

Lemma Fields_no_rune (s f r : string) :
  f ∈ Fields s → r ∈ space_runes → Contains f r = false.
Proof.
  intros Hf. apply (fields_no_rune s EmptyString 0 f); [by left| |done].
  intros a b Hab Hb. by destruct a, b.
Qed.

(** X14. The names of a [!secure] annotation [Parse] answers are the
    white-space separated fields of its line after the keyword, in order,
    and there is at least one; no name is empty, no name holds a
    white-space rune, ASCII or not, each is a piece of the line, and the
    [names] attribute is their comma-joined list. *)
Theorem secure_names (text : string) (anns : list Annotation)
    (a : Annotation) :
  Parse p text = Done anns → a ∈ anns → Type_ a = AnnotationSecure →
  let names := secure_Names (GetSecure a) in
  names = Fields (drop 7 (RawLine a)) ∧
  names ≠ [] ∧
  (∀ n, n ∈ names →
     n ≠ EmptyString ∧ (∀ r, r ∈ space_runes → Contains n r = false) ∧
     Contains (RawLine a) n = true) ∧
  Args a !! "names" = Some (Join names ",").
Proof.
  intros H Ha Hty. destruct (Parse_elem _ _ _ H Ha) as (l & Hl & _ & Hp).
  pose proof (parseLine_stage _ _ Hp) as Hs. rewrite Hty in Hs.
  apply parseSecurePattern_inv in Hs as (m0 & m1 & E & ->). simpl.
  assert (all (non (chr nl)) (TrimSpace l) = true) as Hline.
  { pose proof (Split_no_sep text nl) as Hsep.
    rewrite Forall_forall in Hsep. by apply all_TrimSpace, Hsep. }
  destruct (securePattern_suffix _ _ _ Hline E) as (Hne & sp & Hsp & Hpre).
  split; [|split; [|split; [|done]]].
  - assert (drop 7 ("!secure" +:+ sp +:+ m1) = sp +:+ m1) as Hdrop
      by exact (drop_length_append "!secure" _).
    change (Fields m1 = Fields (drop 7 (TrimSpace l))).
    by rewrite Hpre, Hdrop, Fields_skip.
  - intros Hnil. apply (fields_empty m1 0) in Hnil as [?|(x & r & Hr & Hx)];
      [done|].
    apply (TrimSpace_no_trailing l). exists (("!secure" +:+ sp) +:+ x), r.
    split; [done|]. rewrite Hpre. simpl in Hx.
    by rewrite Hx, !append_assoc.
  - intros n Hn. pose proof (Fields_elem _ _ Hn) as (Hc & ? & _).
    split; [done|]. split; [intros r Hr; by apply (Fields_no_rune m1)|].
    apply (Contains_trans _ m1); [|done].
    apply (Contains_piece _ ("!secure" +:+ sp) m1 EmptyString).
    by rewrite Hpre, append_nil_r, append_assoc.
Qed.

Lemma secure_names_witness :
  let a := mkAnnotation AnnotationSecure "!secure api_key petstore_auth"
             (args [("names", "api_key,petstore_auth")])
             ["api_key"; "petstore_auth"] in
  let names := secure_Names (GetSecure a) in
  names = Fields (drop 7 (RawLine a)) ∧
  names ≠ [] ∧
  (∀ n, n ∈ names →
     n ≠ EmptyString ∧ (∀ r, r ∈ space_runes → Contains n r = false) ∧
     Contains (RawLine a) n = true) ∧
  Args a !! "names" = Some (Join names ",").
Proof.
  apply (secure_names ("  !secure api_key petstore_auth  ")
           [mkAnnotation AnnotationSecure "!secure api_key petstore_auth"
              (args [("names", "api_key,petstore_auth")])
              ["api_key"; "petstore_auth"]]).
  - vm_compute. reflexivity.
  - apply list_elem_of_here.
  - reflexivity.
Defined.

End SecureNames.

(** ** Indentation *)

Section Indentation.

Local Abbreviation p := NewAnnotationParser.

Lemma Split_nonempty (s : string) (sep : ascii) : Split s sep ≠ [].
Proof.
  destruct s as [|c s]; simpl; [done|].
  destruct (Ascii.eqb c sep); [done|]. by destruct (Split s sep).
Qed.

(** Cutting what [strings.Join] has joined gives the pieces back, when no
    piece holds the separator. *)
Lemma Split_Join (ls : list string) (sep : ascii) :
  ls ≠ [] → Forall (λ l, all (non (chr sep)) l = true) ls →
  Split (Join ls (String sep EmptyString)) sep = ls.
Proof.
  unfold Join. induction ls as [|l [|l' ls] IH]; [done|..]; intros _ Hall.
  - inversion Hall; subst. by apply Split_whole.
  - inversion Hall as [|? ? Hl Hrest]; subst.
    change (String.concat (String sep EmptyString) (l :: l' :: ls))
      with (l +:+ String sep (String.concat (String sep EmptyString) (l' :: ls))).
    rewrite Split_append, (Split_whole l sep Hl), IH; done.
Qed.

Lemma parse_lines_trimmed lines : ∀ acc,
  parse_lines p (map TrimSpace lines) acc = parse_lines p lines acc.
Proof.
  induction lines as [|l lines IH]; intros acc; simpl; [done|].
  rewrite TrimSpace_idempotent.
  destruct (HasPrefix (TrimSpace l) "!"); simpl; [|done].
  destruct (parseLine p (TrimSpace l)) as [[a|]|]; simpl; done.
Qed.

(** X15. Indentation does not count: trimming the white space around
    every line of a text, line breaks kept, changes nothing of what
    [Parse] answers. *)
Theorem Parse_trimmed_lines (text : string) :
  Parse p (Join (map TrimSpace (Split text nl)) (String nl EmptyString))
    = Parse p text.
Proof.
  unfold Parse. rewrite Split_Join.
  - apply parse_lines_trimmed.
  - pose proof (Split_nonempty text nl). by destruct (Split text nl).
  - apply Forall_fmap. eapply Forall_impl; [apply Split_no_sep|].
    intros l Hl. by apply all_TrimSpace.
Qed.

(** X22. The lines of a text are read one by one: the annotations of two
    texts joined by a line break are those of the first text followed by
    those of the second, so what a line yields does not depend on the
    lines around it. *)
Theorem Parse_append (earlier text : string) :
  ∃ before anns,
    Parse p earlier = Done before ∧ Parse p text = Done anns ∧
    Parse p (earlier +:+ String nl text) = Done (before ++ anns).
Proof.
  unfold Parse.
  destruct (parse_lines_spec (Split earlier nl) []) as (o1 & H1 & _).
  destruct (parse_lines_spec (Split text nl) []) as (o2 & H2 & _).
  exists (omap id o1), (omap id o2). split; [done|]. split; [done|].
  rewrite Split_append, parse_lines_app, H1. simpl.
  rewrite parse_lines_acc, H2. done.
Qed.

End Indentation.

(** ** Tags and versions *)

Section TagsVersions.

Local Abbreviation p := NewAnnotationParser.

(** X16. Hashtags count on route lines only: the tags of a route
    annotation are runs of word bytes, none empty, each written after a
    [#] of the line, and an annotation that is neither a route nor a
    [!secure] line has no tags, whatever hashtags its line holds. *)
Theorem tags_on_routes_only (line : string) (a : Annotation) :
  parseLine p line = Done (Some a) →
  (Type_ a = AnnotationRoute →
   ∀ t, t ∈ route_Tags (GetRoute a) →
     t ≠ EmptyString ∧ all word t = true ∧
     Contains line (String "#" t) = true) ∧
  (Type_ a ≠ AnnotationRoute → Type_ a ≠ AnnotationSecure → Tags a = []).
Proof.
  intros H. pose proof (parseLine_stage _ _ H) as Hs. split.
  - intros Hty t Ht. rewrite Hty in Hs.
    apply parseRoutePattern_inv in Hs as (m0 & m1 & m2 & m3 & m4 & E & ->).
    simpl in Ht. by apply hash_words_elem in Ht as (? & ? & ?).
  - intros Hr Hsec. destruct (Type_ a) eqn:Hty; try done;
      try (by apply parseSimplePatterns_pieces in Hs as [_ ?]).
    + by apply parseWebhookPattern_inv in Hs
        as [(? & ? & ? & ? & _ & ->)|[(? & ? & ? & _ & ->)
           |(? & ? & ? & ? & _ & ->)]].
    + by apply parseWebhookPattern_inv in Hs
        as [(? & ? & ? & ? & _ & ->)|[(? & ? & ? & _ & ->)
           |(? & ? & ? & ? & _ & ->)]].
    + by apply parseWebhookPattern_inv in Hs
        as [(? & ? & ? & ? & _ & ->)|[(? & ? & ? & _ & ->)
           |(? & ? & ? & ? & _ & ->)]].
    + by apply parseParamPattern_inv in Hs as (? & ? & ? & ? & ? & ? & _ & -> & _).
    + by apply parseParamPattern_inv in Hs as (? & ? & ? & ? & ? & ? & _ & -> & _).
    + by apply parseParamPattern_inv in Hs as (? & ? & ? & ? & ? & ? & _ & -> & _).
    + by apply parseBodyPattern_inv in Hs as (? & ? & ? & _ & ->).
    + by apply parseResponsePattern_inv in Hs as (? & ? & ? & ? & ? & _ & ->).
    + by apply parseResponsePattern_inv in Hs as (? & ? & ? & ? & ? & _ & ->).
    + by apply parseModelPattern_inv in Hs as (? & ? & _ & ->).
    + by apply parseFieldPattern_inv in Hs as (? & ? & ? & ? & ? & _ & -> & _).
Qed.

Lemma tags_on_routes_only_witness :
  (Type_ route_annotation = AnnotationRoute →
   ∀ t, t ∈ route_Tags (GetRoute route_annotation) →
     t ≠ EmptyString ∧ all word t = true ∧
     Contains route_line (String "#" t) = true) ∧
  (Type_ route_annotation ≠ AnnotationRoute →
   Type_ route_annotation ≠ AnnotationSecure → Tags route_annotation = []).
Proof.
  apply (tags_on_routes_only route_line route_annotation).
  vm_compute. reflexivity.
Defined.

(** X17. The version of an [!api] or [!info] line is stored without its
    leading [v]: it is a run of digits and dots that is not empty; the
    title of an [!info] line is not empty and holds no double quote. *)
Theorem version_shape (line : string) (a : Annotation) :
  parseLine p line = Done (Some a) →
  (Type_ a = AnnotationAPI →
   api_Version (GetAPI a) ≠ EmptyString ∧
   all (either digit (chr ".")) (api_Version (GetAPI a)) = true) ∧
  (Type_ a = AnnotationInfo →
   info_Version (GetInfo a) ≠ EmptyString ∧
   all (either digit (chr ".")) (info_Version (GetInfo a)) = true ∧
   info_Title (GetInfo a) ≠ EmptyString ∧
   all (non (chr dquote)) (info_Title (GetInfo a)) = true).
Proof.
  intros H. split; intros Hty; simple_stage H Hty E F.
  - group_of E 0 (Plus (either digit (chr "."))) H1.
    apply matches_plus_shape in H1 as [? ?].
    unfold GetAPI. rewrite <- F. done.
  - group_of E 0 (Plus (non (chr dquote))) H1.
    apply matches_plus_shape in H1 as [? ?].
    group_of E 1 (Plus (either digit (chr "."))) H2.
    apply matches_plus_shape in H2 as [? ?].
    unfold GetInfo. rewrite <- F. done.
Qed.

Lemma version_shape_witness :
  let a := mkAnnotation AnnotationAPI "!api v3.0.3"
             (args [("version", "3.0.3")]) [] in
  (Type_ a = AnnotationAPI →
   api_Version (GetAPI a) ≠ EmptyString ∧
   all (either digit (chr ".")) (api_Version (GetAPI a)) = true) ∧
  (Type_ a = AnnotationInfo →
   info_Version (GetInfo a) ≠ EmptyString ∧
   all (either digit (chr ".")) (info_Version (GetInfo a)) = true ∧
   info_Title (GetInfo a) ≠ EmptyString ∧
   all (non (chr dquote)) (info_Title (GetInfo a)) = true).
Proof.
  apply (version_shape "!api v3.0.3"). vm_compute. reflexivity.
Defined.

End TagsVersions.

(** ** Defaults and examples *)

Section Optional.

Local Abbreviation p := NewAnnotationParser.

Lemma search_complete r pre s :
  is_Some (exec r s) → is_Some (search r (pre +:+ s)).
Proof.
  intros [x Hx]. induction pre as [|c pre IH].
  - change (EmptyString +:+ s) with s. destruct s; simpl; rewrite Hx; eauto.
  - rewrite append_cons. simpl. destruct (exec r (String c (pre +:+ s))); eauto.
Qed.

Lemma parseParamPattern_default_key line a :
  parseParamPattern p line = Done (Some a) →
  is_Some (Args a !! "default") ↔
  is_Some (FindStringSubmatch defaultPattern line).
Proof.
  unfold parseParamPattern.
  destruct (FindStringSubmatch (paramPattern p) line) as [m|] eqn:E; [|done].
  match_shape E. simpl.
  destruct (FindStringSubmatch defaultPattern line) as [dm|] eqn:Ed;
    [match_shape Ed|]; simpl; intros [= <-]; simpl;
    destruct (Contains line " required"); simpl;
    split; intros [x Hx]; try done; by eexists.
Qed.

Lemma parseFieldPattern_example_key line a :
  parseFieldPattern p line = Done (Some a) →
  is_Some (Args a !! "example") ↔
  is_Some (FindStringSubmatch examplePattern line).
Proof.
  unfold parseFieldPattern.
  destruct (FindStringSubmatch (fieldPattern p) line) as [m|] eqn:E; [|done].
  match_shape E. simpl.
  destruct (FindStringSubmatch examplePattern line) as [em|] eqn:Ee;
    [match_shape Ee|]; simpl; intros [= <-]; simpl;
    destruct (Contains line " required"); simpl;
    split; intros [x Hx]; try done; by eexists.
Qed.

Lemma defaultPattern_found line :
  is_Some (FindStringSubmatch defaultPattern line) ↔
  ∃ pre c post, line = pre +:+ "default=" +:+ String c post ∧ space c = false.
Proof.
  unfold FindStringSubmatch. simpl anchored. simpl expr.
  rewrite fmap_is_Some. split.
  - intros [[w cs] H].
    apply search_sound in H as (pre & s' & cs' & -> & M & _).
    inversion M as [| | |? ? w1 w2 ? cs1 ? M1 M2| | | | |]; subst.
    inversion M1; subst.
    inversion M2 as [| | | | | | | |? ? ? ? cs2 M2']; subst.
    apply matches_plus in M2' as (_ & _ & Hh).
    destruct w2 as [|c w2]; [done|]. simpl in Hh.
    exists pre, c, (w2 +:+ s'). split; [|by apply negb_true_iff].
    by rewrite append_assoc.
  - intros (pre & c & post & -> & Hc). apply search_complete.
    unfold exec. rewrite run_seq, run_lit_append. unfold token.
    rewrite run_grp. erewrite run_plus_first; [by eexists| |reflexivity].
    simpl. unfold non. by rewrite Hc.
Qed.

Lemma examplePattern_found line :
  is_Some (FindStringSubmatch examplePattern line) ↔
  ∃ pre c post, line = pre +:+ "example=" +:+ String c post ∧ space c = false.
Proof.
  unfold FindStringSubmatch. simpl anchored. simpl expr.
  rewrite fmap_is_Some. split.
  - intros [[w cs] H].
    apply search_sound in H as (pre & s' & cs' & -> & M & _).
    inversion M as [| | |? ? w1 w2 ? cs1 ? M1 M2| | | | |]; subst.
    inversion M1; subst.
    inversion M2 as [| | | | | | | |? ? ? ? cs2 M2']; subst.
    inversion M2' as [| | | |? ? ? ? ? ML|? ? ? ? ? MR| | |]; subst.
    + inversion ML as [| | |? ? q1 q2 ? ? ? Mq _| | | | |]; subst.
      inversion Mq; subst.
      exists pre, dquote, (q2 +:+ s'). split; [|done].
      by rewrite !append_assoc.
    + apply matches_plus in MR as (_ & _ & Hh).
      destruct w2 as [|c w2]; [done|]. simpl in Hh.
      exists pre, c, (w2 +:+ s'). split; [|by apply negb_true_iff].
      by rewrite append_assoc.
  - intros (pre & c & post & -> & Hc). apply search_complete.
    unfold exec. rewrite run_seq, run_lit_append, run_grp.
    match goal with
    | |- is_Some (run (Alt ?r1 ?r2) ?s ?cs ?k) =>
        change (run (Alt r1 r2) s cs k)
          with (match run r1 s cs k with
                | Some x => Some x
                | None => run r2 s cs k
                end);
        destruct (run r1 s cs k); [by eexists|]
    end.
    erewrite run_plus_first; [by eexists| |reflexivity].
    simpl. unfold non. by rewrite Hc.
Qed.

(** X18. A parameter annotation has a [default] attribute exactly when
    its line holds [default=] followed by a byte that is not white space,
    anywhere on the line, also inside the description; likewise a field
    annotation has an [example] attribute exactly when its line holds
    [example=] followed by such a byte. *)
Theorem default_where_written (line : string) (a : Annotation) :
  parseLine p line = Done (Some a) →
  (Type_ a ∈ [AnnotationQuery; AnnotationPath; AnnotationHeader] →
   is_Some (Args a !! "default") ↔
   ∃ pre c post,
     line = pre +:+ "default=" +:+ String c post ∧ space c = false) ∧
  (Type_ a = AnnotationField →
   is_Some (Args a !! "example") ↔
   ∃ pre c post,
     line = pre +:+ "example=" +:+ String c post ∧ space c = false).
Proof.
  intros H. pose proof (parseLine_stage _ _ H) as Hs. split; intros Hty.
  - assert (parseParamPattern p line = Done (Some a)) as Hp.
    { repeat (apply elem_of_cons in Hty as [Hty|Hty]; [by rewrite Hty in Hs|]).
      by apply elem_of_nil in Hty. }
    rewrite (parseParamPattern_default_key _ _ Hp).
    apply defaultPattern_found.
  - rewrite Hty in Hs. rewrite (parseFieldPattern_example_key _ _ Hs).
    apply examplePattern_found.
Qed.

Lemma default_where_written_witness :
  let line := "!query q:string " +:+ q +:+ "set default=5" +:+ q in
  let a := mkAnnotation AnnotationQuery line
             (args [("in", "query"); ("name", "q"); ("type", "string");
                    ("description", "set default=5"); ("default", "5")])
             [] in
  (Type_ a ∈ [AnnotationQuery; AnnotationPath; AnnotationHeader] →
   is_Some (Args a !! "default") ↔
   ∃ pre c post,
     line = pre +:+ "default=" +:+ String c post ∧ space c = false) ∧
  (Type_ a = AnnotationField →
   is_Some (Args a !! "example") ↔
   ∃ pre c post,
     line = pre +:+ "example=" +:+ String c post ∧ space c = false).
Proof.
  apply (default_where_written
           ("!query q:string " +:+ q +:+ "set default=5" +:+ q)).
  vm_compute. reflexivity.
Defined.

End Optional.

(** ** The loop of [parseSimplePatterns] *)

Section SimpleLoop.

Local Abbreviation p := NewAnnotationParser.

Lemma fill_args_keys keys : ∀ i (m : list string) args args',
  NoDup keys → i + length keys < length m →
  fill_args keys i m args = Done args' →
  (∀ j k, keys !! j = Some k → args' !! k = m !! (i + j + 1)) ∧
  (∀ k, k ∉ keys → args' !! k = args !! k).
Proof.
  induction keys as [|key keys IH]; intros i m args args' Hnd Hlen; simpl.
  - intros [= <-]. split; [by intros j k ?|done].
  - apply NoDup_cons in Hnd as [Hkey Hnd]. simpl in Hlen.
    destruct (Nat.ltb_spec (i + 1) (length m)) as [Hlt|]; [|lia].
    unfold idx. destruct (lookup_lt_is_Some_2 m (i + 1) Hlt) as [v Hv].
    rewrite Hv. simpl. intros H.
    destruct (IH (S i) m _ _ Hnd ltac:(lia) H) as [Hin Hout]. split.
    + intros [|j] k Hk; simpl in Hk.
      * injection Hk as <-. rewrite (Hout _ Hkey), lookup_insert_eq.
        by rewrite Nat.add_0_r, Hv.
      * rewrite (Hin _ _ Hk). f_equal. lia.
    + intros k Hk. apply not_elem_of_cons in Hk as [Hne Hk].
      rewrite (Hout _ Hk). by rewrite lookup_insert_ne.
Qed.

Lemma first_simple_split matchers line a :
  first_simple matchers line = Done (Some a) →
  ∃ earlier re keys later m,
    matchers = earlier ++ (re, Type_ a, keys) :: later ∧
    Forall (λ x, FindStringSubmatch x.1.1 line = None) earlier ∧
    FindStringSubmatch re line = Some m ∧
    fill_args keys 0 m ∅ = Done (Args a).
Proof.
  induction matchers as [|[[re t] keys] matchers IH]; simpl; [done|].
  destruct (FindStringSubmatch re line) as [m|] eqn:E.
  - destruct (fill_args keys 0 m ∅) as [args|] eqn:F; simpl; [|done].
    intros [= <-]. by exists [], re, keys, matchers, m.
  - intros H.
    destruct (IH H) as (earlier & re' & keys' & later & m & -> & Hall & Hrest).
    exists ((re, t, keys) :: earlier), re', keys', later, m.
    split; [done|]. split; [by constructor|done].
Qed.

Lemma simple_matchers_keys :
  Forall (λ x, NoDup x.2 ∧ length x.2 = NumSubexp (expr x.1.1))
    (simple_matchers p).
Proof.
  repeat (apply Forall_cons; split; [split; [|done]|]); [..|constructor];
    by apply (bool_decide_unpack _).
Qed.

(** X19. [parseSimplePatterns] answers for the first matcher of its table
    whose pattern matches the line: the annotation has the kind of that
    matcher, the key at position [i] of the matcher holds submatch [i + 1]
    of the match, and no other key is there. *)
Theorem simple_keys_hold_submatches (line : string) (a : Annotation) :
  parseSimplePatterns p line = Done (Some a) →
  ∃ earlier re keys later m,
    simple_matchers p = earlier ++ (re, Type_ a, keys) :: later ∧
    Forall (λ x, FindStringSubmatch x.1.1 line = None) earlier ∧
    FindStringSubmatch re line = Some m ∧
    (∀ i k, keys !! i = Some k → Args a !! k = m !! (i + 1)) ∧
    (∀ k, k ∉ keys → Args a !! k = None).
Proof.
  intros H.
  apply first_simple_split in H
    as (earlier & re & keys & later & m & Heq & Hall & E & F).
  exists earlier, re, keys, later, m. split; [done|]. split; [done|].
  split; [done|].
  pose proof simple_matchers_keys as Hk. rewrite Heq in Hk.
  apply Forall_app in Hk as [_ Hk]. apply Forall_cons in Hk as [[Hnd Hlen] _].
  simpl in Hnd, Hlen.
  pose proof (FindStringSubmatch_length _ _ _ E) as Hm.
  destruct (fill_args_keys keys 0 m ∅ (Args a) Hnd ltac:(lia) F) as [Hin Hout].
  split; [exact Hin|]. intros k Hk'. by rewrite (Hout _ Hk'), lookup_empty.
Qed.

Lemma simple_keys_hold_submatches_witness :
  ∃ earlier re keys later m,
    simple_matchers p =
      earlier ++ (re, Type_ security_annotation, keys) :: later ∧
    Forall (λ x, FindStringSubmatch x.1.1 security_line = None) earlier ∧
    FindStringSubmatch re security_line = Some m ∧
    (∀ i k, keys !! i = Some k →
       Args security_annotation !! k = m !! (i + 1)) ∧
    (∀ k, k ∉ keys → Args security_annotation !! k = None).
Proof.
  apply (simple_keys_hold_submatches security_line security_annotation).
  vm_compute. reflexivity.
Defined.

End SimpleLoop.

(** ** Tokens *)

Section Tokens.

Local Abbreviation p := NewAnnotationParser.

Ltac token_found E i F :=
let Hm := fresh "Hm" in
group_of E i (Plus (non space)) Hm;
apply matches_plus_shape in Hm as [? ?];
eexists; rewrite <- F; (split; [reflexivity|done]).

(** X20. The name of a license or of a tag, the url of a server, of the
    terms of service, of the external documentation or of a link, and the
    schema of a body or of a webhook body are always there, not empty and
    without white space. *)
Theorem token_attributes (line : string) (a : Annotation) (k : string) :
  parseLine p line = Done (Some a) → token_key (Type_ a) = Some k →
  ∃ v, Args a !! k = Some v ∧ v ≠ EmptyString ∧ all (non space) v = true.
Proof.
  intros H. destruct (Type_ a) eqn:Hty; simpl; intros [= <-].
  - simple_stage H Hty E F. token_found E 0 F.
  - simple_stage H Hty E F. token_found E 0 F.
  - simple_stage H Hty E F. token_found E 0 F.
  - simple_stage H Hty E F. token_found E 0 F.
  - simple_stage H Hty E F. token_found E 0 F.
  - simple_stage H Hty E F. token_found E 1 F.
  - webhook_stage H Hty E.
    group_of E 0 (Plus (non space)) Hm.
    apply matches_plus_shape in Hm as [? ?]. by eexists.
  - pose proof (parseLine_stage _ _ H) as Hs. rewrite Hty in Hs.
    apply parseBodyPattern_inv in Hs as (m0 & m1 & m2 & E & ->).
    group_of E 0 (Plus (non space)) Hm.
    apply matches_plus_shape in Hm as [? ?].
    exists m1. simpl. by destruct (Contains line " required").
Qed.

Lemma token_attributes_witness :
  ∃ v, Args (mkAnnotation AnnotationServer "!server https://api.example.com"
               (args [("url", "https://api.example.com");
                      ("description", EmptyString)]) []) !! "url" = Some v ∧
    v ≠ EmptyString ∧ all (non space) v = true.
Proof.
  apply (token_attributes "!server https://api.example.com").
  - vm_compute. reflexivity.
  - reflexivity.
Defined.

(** X21. The name and the type of a field annotation are runs of word
    bytes that are not empty; its description holds no double quote, and
    its example neither starts nor ends with a quote. *)
Theorem field_shape (line : string) (a : Annotation) :
  parseLine p line = Done (Some a) → Type_ a = AnnotationField →
  let r := GetField a in
  field_Name r ≠ EmptyString ∧ all word (field_Name r) = true ∧
  field_Type r ≠ EmptyString ∧ all word (field_Type r) = true ∧
  all (non (chr dquote)) (field_Description r) = true ∧
  head_is (in_cutset quotes) (field_Example r) = false ∧
  head_is (in_cutset quotes) (rev (field_Example r)) = false.
Proof.
  intros H Hty. pose proof (parseLine_stage _ _ H) as Hs. rewrite Hty in Hs.
  apply parseFieldPattern_args in Hs
    as (m0 & m1 & m2 & m3 & E & Hname & Htype & Hdesc & Hex).
  group_of E 0 (Plus word) Hq1. apply matches_plus_shape in Hq1 as [? ?].
  group_of E 1 (Plus word) Hq2. apply matches_plus_shape in Hq2 as [? ?].
  assert (all (non (chr dquote)) m3 = true).
  { optional_group_of E 2 (Star (non (chr dquote))) Hq3; [done|].
    by apply matches_star_shape in Hq3. }
  simpl. rewrite Hname, Htype, Hdesc, Hex.
  repeat (split; [done|]).
  destruct (FindStringSubmatch examplePattern line) as [em|]; [|done].
  split; [apply Trim_head|apply Trim_last].
Qed.

Lemma field_shape_witness :
  let r := GetField
             (mkAnnotation AnnotationField quoted_example_line
                (args [("name", "name"); ("type", "string");
                       ("description", "User name");
                       ("example", "John Doe")]) []) in
  field_Name r ≠ EmptyString ∧ all word (field_Name r) = true ∧
  field_Type r ≠ EmptyString ∧ all word (field_Type r) = true ∧
  all (non (chr dquote)) (field_Description r) = true ∧
  head_is (in_cutset quotes) (field_Example r) = false ∧
  head_is (in_cutset quotes) (rev (field_Example r)) = false.
Proof.
  apply (field_shape quoted_example_line).
  - vm_compute. reflexivity.
  - reflexivity.
Defined.

End Tokens.

(** ** What is stored for each group *)

Ltac name_captures Hm :=
unfold submatches in Hm;
repeat match type of Hm with
       | _ :: _ = map _ ?cs =>
           destruct cs as [|? cs]; [discriminate Hm|];
           simpl in Hm; injection Hm as -> Hm
       | [] = map _ ?cs => destruct cs; [clear Hm|discriminate Hm]
       end.

Section Storage.

Local Abbreviation p := NewAnnotationParser.

Lemma FindStringSubmatch_exec re line m :
  FindStringSubmatch re line = Some m → anchored re = true →
  ∃ w cs, exec (expr re) line = Some (w, cs) ∧ m = submatches cs.
Proof.
  unfold FindStringSubmatch. intros H Ha. rewrite Ha in H.
  apply fmap_Some in H as ([w cs] & H & ->). by exists w, cs.
Qed.

Lemma exec_capture r s w cs (i : nat) u :
  exec r s = Some (w, cs) → cs !! S i = Some (Some u) →
  ∃ body c1 c2, body ∈ bodies r (S i) ∧ matches body u c1 c2.
Proof.
  intros H Hu. apply exec_sound in H as (s' & cs' & _ & M & ->).
  rewrite list_lookup_insert_ne in Hu by done.
  destruct (matches_capture _ _ _ _ _ _ M Hu)
    as [H0|(body & c1 & c2 & Hin & Hb & _)]; [|eauto].
  apply lookup_replicate in H0 as [? _]. done.
Qed.

Lemma parseParamPattern_lookup line a :
  parseParamPattern p line = Done (Some a) →
  ∃ m0 m1 m2 m3 m4,
    FindStringSubmatch (paramPattern p) line = Some [m0; m1; m2; m3; m4] ∧
    Type_ a ∈ [AnnotationQuery; AnnotationPath; AnnotationHeader] ∧
    RawLine a = line ∧
    Args a !! "in" = Some m1 ∧ Args a !! "name" = Some m2 ∧
    Args a !! "type" = Some m3 ∧ Args a !! "description" = Some m4.
Proof.
  unfold parseParamPattern.
  destruct (FindStringSubmatch (paramPattern p) line) as [m|] eqn:E; [|done].
  match_shape E. simpl.
  destruct (FindStringSubmatch defaultPattern line) as [dm|] eqn:Ed;
    [match_shape Ed|]; simpl; intros [= <-]; eexists _, _, _, _, _;
    (split; [done|]); simpl; destruct (Contains line " required");
    (split; [|done]);
    repeat match goal with
           | |- context [if ?b then _ else _] => destruct b
           end;
    by repeat first [apply list_elem_of_here | apply list_elem_of_further].
Qed.

Lemma parseFieldPattern_lookup line a :
  parseFieldPattern p line = Done (Some a) →
  ∃ m0 m1 m2 m3,
    FindStringSubmatch (fieldPattern p) line = Some [m0; m1; m2; m3] ∧
    RawLine a = line ∧
    Args a !! "name" = Some m1 ∧ Args a !! "type" = Some m2 ∧
    Args a !! "description" = Some m3.
Proof.
  unfold parseFieldPattern.
  destruct (FindStringSubmatch (fieldPattern p) line) as [m|] eqn:E; [|done].
  match_shape E. simpl.
  destruct (FindStringSubmatch examplePattern line) as [em|] eqn:Ee;
    [match_shape Ee|]; simpl; intros [= <-]; eexists _, _, _, _;
    (split; [done|]); simpl; destruct (Contains line " required"); done.
Qed.

Ltac captured E :=
let w := fresh "w" in
let cs := fresh "cs" in
let Hex := fresh "Hex" in
let Hm := fresh "Hm" in
destruct (FindStringSubmatch_exec _ _ _ E eq_refl) as (w & cs & Hex & Hm);
name_captures Hm;
unfold stored_groups, line_captures; eexists;
(split; [exact (f_equal (λ x, snd <$> x) Hex)|]).

Ltac each_key :=
let k := fresh "k" in
let g := fresh "g" in
let Hin := fresh "Hin" in
intros k g Hin; simpl in Hin;
repeat (apply elem_of_cons in Hin as [[= -> ->]|Hin]);
[..|by apply elem_of_nil in Hin];
(eexists; split; [reflexivity|]).

Ltac stored_done :=
match goal with
| |- context [match ?o with Some _ => _ | None => _ end] => destruct o
end; reflexivity.

Lemma parseLine_stored line a :
  parseLine p line = Done (Some a) → stored_groups p a.
Proof.
  intros H. pose proof (parseLine_RawLine _ _ H) as Hraw.
  destruct (Type_ a) eqn:Hty.
  1-11: simple_stage H Hty E F; destruct a as [t raw args' tags];
        simpl in *; subst; captured E; each_key; stored_done.
  1-3: webhook_stage H Hty E; captured E; each_key; stored_done.
  - pose proof (parseLine_stage _ _ H) as Hs. rewrite Hty in Hs.
    apply parseRoutePattern_inv in Hs as (m0 & m1 & m2 & m3 & m4 & E & ->).
    destruct (routePattern_method _ _ _ _ _ _ E) as [_ Hup].
    captured E. each_key; [rewrite Hup|..]; stored_done.
  - pose proof (parseLine_stage _ _ H) as Hs. rewrite Hty in Hs.
    apply parseParamPattern_lookup in Hs
      as (m0 & m1 & m2 & m3 & m4 & E & _ & _ & Hi & Hn & Ht & Hd).
    destruct (FindStringSubmatch_exec _ _ _ E eq_refl) as (w & cs & Hex & Hm).
    name_captures Hm. unfold stored_groups, line_captures.
    rewrite Hty, Hraw. eexists.
    split; [exact (f_equal (λ x, snd <$> x) Hex)|].
    each_key; rewrite ?Hi, ?Hn, ?Ht, ?Hd; stored_done.
  - pose proof (parseLine_stage _ _ H) as Hs. rewrite Hty in Hs.
    apply parseParamPattern_lookup in Hs
      as (m0 & m1 & m2 & m3 & m4 & E & _ & _ & Hi & Hn & Ht & Hd).
    destruct (FindStringSubmatch_exec _ _ _ E eq_refl) as (w & cs & Hex & Hm).
    name_captures Hm. unfold stored_groups, line_captures.
    rewrite Hty, Hraw. eexists.
    split; [exact (f_equal (λ x, snd <$> x) Hex)|].
    each_key; rewrite ?Hi, ?Hn, ?Ht, ?Hd; stored_done.
  - pose proof (parseLine_stage _ _ H) as Hs. rewrite Hty in Hs.
    apply parseParamPattern_lookup in Hs
      as (m0 & m1 & m2 & m3 & m4 & E & _ & _ & Hi & Hn & Ht & Hd).
    destruct (FindStringSubmatch_exec _ _ _ E eq_refl) as (w & cs & Hex & Hm).
    name_captures Hm. unfold stored_groups, line_captures.
    rewrite Hty, Hraw. eexists.
    split; [exact (f_equal (λ x, snd <$> x) Hex)|].
    each_key; rewrite ?Hi, ?Hn, ?Ht, ?Hd; stored_done.
  - pose proof (parseLine_stage _ _ H) as Hs. rewrite Hty in Hs.
    apply parseBodyPattern_inv in Hs as (m0 & m1 & m2 & E & ->).
    captured E. each_key; simpl; destruct (Contains line " required");
      stored_done.
  - pose proof (parseLine_stage _ _ H) as Hs. rewrite Hty in Hs.
    apply parseResponsePattern_inv in Hs as (m0 & m1 & m2 & m3 & m4 & E & ->).
    group_of E 0 (one_of ["ok"; "error"]) Hkw.
    apply matches_one_of in Hkw as [Hkw _].
    destruct (FindStringSubmatch_exec _ _ _ E eq_refl) as (w & cs & Hex & Hm).
    destruct cs as [|c0 [|c1 [|c2 [|c3 [|c4 [|]]]]]]; try discriminate Hm.
    injection Hm as -> -> -> -> ->.
    assert (∀ u, c2 = Some u → u ≠ EmptyString) as Hc2.
    { intros u ->.
      destruct (exec_capture _ _ _ _ 1 u Hex eq_refl)
        as (body & ? & ? & Hb & Hmb).
      change (body ∈ [Plus digit]) in Hb.
      apply list_elem_of_singleton in Hb as ->.
      by apply matches_plus_shape in Hmb as [? _]. }
    destruct c1 as [kw|]; simpl in Hkw;
      [|repeat (apply elem_of_cons in Hkw as [Hkw|Hkw]; [done|]);
        by apply elem_of_nil in Hkw].
    simpl in Hty, H.
    repeat (apply elem_of_cons in Hkw as [->|Hkw]);
      [..|by apply elem_of_nil in Hkw]; try discriminate Hty;
      unfold stored_groups, line_captures; eexists;
      (split; [exact (f_equal (λ x, snd <$> x) Hex)|]);
      each_key; try stored_done;
      destruct c2 as [u|]; [|reflexivity];
      specialize (Hc2 u eq_refl); by destruct u.
  - pose proof (parseLine_stage _ _ H) as Hs. rewrite Hty in Hs.
    apply parseResponsePattern_inv in Hs as (m0 & m1 & m2 & m3 & m4 & E & ->).
    group_of E 0 (one_of ["ok"; "error"]) Hkw.
    apply matches_one_of in Hkw as [Hkw _].
    destruct (FindStringSubmatch_exec _ _ _ E eq_refl) as (w & cs & Hex & Hm).
    destruct cs as [|c0 [|c1 [|c2 [|c3 [|c4 [|]]]]]]; try discriminate Hm.
    injection Hm as -> -> -> -> ->.
    assert (∀ u, c2 = Some u → u ≠ EmptyString) as Hc2.
    { intros u ->.
      destruct (exec_capture _ _ _ _ 1 u Hex eq_refl)
        as (body & ? & ? & Hb & Hmb).
      change (body ∈ [Plus digit]) in Hb.
      apply list_elem_of_singleton in Hb as ->.
      by apply matches_plus_shape in Hmb as [? _]. }
    destruct c1 as [kw|]; simpl in Hkw;
      [|repeat (apply elem_of_cons in Hkw as [Hkw|Hkw]; [done|]);
        by apply elem_of_nil in Hkw].
    simpl in Hty, H.
    repeat (apply elem_of_cons in Hkw as [->|Hkw]);
      [..|by apply elem_of_nil in Hkw]; try discriminate Hty;
      unfold stored_groups, line_captures; eexists;
      (split; [exact (f_equal (λ x, snd <$> x) Hex)|]);
      each_key; try stored_done;
      destruct c2 as [u|]; [|reflexivity];
      specialize (Hc2 u eq_refl); by destruct u.
  - pose proof (parseLine_stage _ _ H) as Hs. rewrite Hty in Hs.
    apply parseSecurePattern_inv in Hs as (m0 & m1 & E & ->).
    captured E. each_key; stored_done.
  - pose proof (parseLine_stage _ _ H) as Hs. rewrite Hty in Hs.
    apply parseModelPattern_inv in Hs as (m0 & m1 & E & ->).
    captured E. each_key; stored_done.
  - pose proof (parseLine_stage _ _ H) as Hs. rewrite Hty in Hs.
    apply parseFieldPattern_lookup in Hs
      as (m0 & m1 & m2 & m3 & E & _ & Hn & Ht & Hd).
    destruct (FindStringSubmatch_exec _ _ _ E eq_refl) as (w & cs & Hex & Hm).
    name_captures Hm. unfold stored_groups, line_captures.
    rewrite Hty, Hraw. eexists.
    split; [exact (f_equal (λ x, snd <$> x) Hex)|].
    each_key; rewrite ?Hn, ?Ht, ?Hd; stored_done.
Qed.

(** C6, as it is written, fails on a response line without a status: the
    status group takes no part in the match, and the status stored is 200,
    not the empty string. *)
Lemma absent_status_counterexample :
  Parse p ok_line = Done [ok_annotation] ∧
  ¬ absent_groups_empty p ok_annotation.
Proof.
  split; [vm_compute; reflexivity|]. intros (cs & Hcs & Hall).
  vm_compute in Hcs. injection Hcs as <-.
  destruct (Hall "status" 2) as [_ Habs]; [apply list_elem_of_here|].
  specialize (Habs eq_refl). vm_compute in Habs. discriminate Habs.
Qed.

(** C6, amended. Every annotation [Parse] answers holds the attribute keys
    its kind guarantees, each taken from one group of the grammar of the
    kind: a key whose group matched holds the text matched (the names of a
    [!secure] line cut into fields and joined by commas), and a key whose
    group took no part in the match holds the empty string, the status of
    a response apart, which then holds 200 for [!ok] and 500 for [!error].
    A security annotation holds name, type, location, description and
    url. *)
Theorem Parse_carries_keys (text : string) (anns : list Annotation) :
  Parse p text = Done anns →
  Forall carries_keys anns ∧
  (∀ a, a ∈ anns → Type_ a = AnnotationSecurity →
     ∀ k, k ∈ ["name"; "type"; "location"; "description"; "url"] →
       is_Some (Args a !! k)) ∧
  (∀ a, a ∈ anns → stored_groups p a) ∧
  (∀ t, (key_groups t).*1 = guaranteed_keys t).
Proof.
  intros H.
  assert (∀ a, a ∈ anns → stored_groups p a) as Hstored.
  { intros a Ha. destruct (Parse_elem _ _ _ H Ha) as (l & _ & _ & Hl).
    by apply (parseLine_stored (TrimSpace l)). }
  assert (∀ t, (key_groups t).*1 = guaranteed_keys t) as Hkeys
    by (by intros []).
  assert (Forall carries_keys anns) as Hall.
  { apply Forall_forall. intros a Ha k Hk.
    destruct (Hstored a Ha) as (cs & _ & Hcs).
    rewrite <- Hkeys in Hk. apply list_elem_of_fmap in Hk as ([k' g] & -> & Hk).
    destruct (Hcs k' g Hk) as (o & _ & Hv). simpl. rewrite Hv. by eexists. }
  split; [done|]. split; [|done]. intros a Ha Hty k Hk.
  rewrite Forall_forall in Hall. apply (Hall a Ha). by rewrite Hty.
Qed.

Lemma Parse_carries_keys_witness :
  Forall carries_keys [security_annotation] ∧
  (∀ a, a ∈ [security_annotation] → Type_ a = AnnotationSecurity →
     ∀ k, k ∈ ["name"; "type"; "location"; "description"; "url"] →
       is_Some (Args a !! k)) ∧
  (∀ a, a ∈ [security_annotation] → stored_groups p a) ∧
  (∀ t, (key_groups t).*1 = guaranteed_keys t).
Proof.
  apply (Parse_carries_keys security_line [security_annotation]).
  vm_compute. reflexivity.
Defined.

End Storage.
